(** * generate-locale: key-path builder and reference-driven merge

    A shallow embedding of the two command line scripts of the repository,

    - [sync-structure.mjs]: [readYaml], [missingLeaf], [reorderLike] and
      the call of the main program;
    - [generate-locale.mjs]: [getArg], [isBlank], [splitMultiKey],
      [parseKey], [ensureContainer], [setDeep], [fillMissingFromRef],
      [createFromRef], the row projection loop and the reference merge,

    together with the properties of them that the design document states.

    Scope of the JavaScript model.  An object is the list of its own
    enumerable properties in the order of [Object.keys]: array indices
    first, in ascending order, then the other keys in insertion order; its
    prototype is [Object.prototype].  In [sync-structure.mjs] the members
    that an object inherits from [Object.prototype] are part of the model:
    [k in o] and [o[k]] find them, and an assignment to [__proto__] goes to
    the inherited setter and stores no property; the prototype that the
    setter gives an object is not part of the tree.  The model of
    [generate-locale.mjs] follows own properties: its functions are those
    of the script on a walk that meets no inherited member, no [length] of
    an array and no function ([plain_walk]), and for a reference whose keys
    are not names of members of [Object.prototype] ([plain_keys]).
    The numbers of a document are integers (the scripts never compute with
    them) and the index of a bracketed token is a natural number.  A string
    is the sequence of the bytes of its UTF-8 encoding.  The trees that
    [setDeep] builds share no container, so an assignment through a
    reference to a container is an update of the tree at the place of that
    container. *)

From Stdlib Require Import List String Ascii Bool Arith NArith ZArith Lia.
From Stdlib Require Import DecimalString Decimal DecimalN DecimalNat.
Import ListNotations.

Local Open Scope string_scope.
Local Open Scope list_scope.

Set Implicit Arguments.
Set Warnings "-register-all".

(** Boolean hypotheses about bytes, taken apart. *)
Ltac bool_hyps :=
  repeat match goal with
  | H : (_ && _)%bool = true |- _ => apply andb_prop in H; destruct H
  | H : (_ || _)%bool = true |- _ => apply orb_prop in H; destruct H
  | H : Nat.eqb _ _ = true |- _ => apply Nat.eqb_eq in H
  | H : Nat.leb _ _ = true |- _ => apply Nat.leb_le in H
  end.

(* ================================================================== *)
(** ** JavaScript strings, property keys and ordinary objects *)
(* ================================================================== *)

Module Js.

(** [String(n)] for a non-negative integer. *)
Definition string_of_N (n : N) : string :=
  NilZero.string_of_uint (N.to_uint n).

Definition string_of_nat (n : nat) : string := string_of_N (N.of_nat n).

(** The numeric value of a run of decimal digits: [Number(m[2])] for a
    value below [2^53], which a double holds exactly. *)
Definition N_of_digits (s : string) : option N :=
  match NilEmpty.uint_of_string s with
  | Some d => Some (N.of_uint d)
  | None => None
  end.

(** An array index in the sense of ECMAScript: a canonical numeric string
    ([String(Number(s)) === s]) whose value is below [2^32 - 1]. *)
Definition array_index (s : string) : option N :=
  match s with
  | EmptyString => None
  | _ =>
    match N_of_digits s with
    | Some n =>
        if (String.eqb (string_of_N n) s && (n <? 4294967295)%N)%bool
        then Some n else None
    | None => None
    end
  end.

(** [Object.getOwnPropertyNames(Object.prototype)]: the names of the
    members that every ordinary object inherits. *)
Definition object_prototype_names : list string :=
  ["constructor"; "__defineGetter__"; "__defineSetter__"; "hasOwnProperty";
   "__lookupGetter__"; "__lookupSetter__"; "isPrototypeOf";
   "propertyIsEnumerable"; "toString"; "valueOf"; "__proto__";
   "toLocaleString"].

Definition inherited (k : string) : bool :=
  existsb (String.eqb k) object_prototype_names.

(** Ordinary objects: the own properties in the order in which
    [Object.keys] enumerates them (array indices first, ascending, then the
    other keys in insertion order). *)
Section Objects.
Variable A : Type.

Definition obj := list (string * A).

Fixpoint obj_get (o : obj) (k : string) : option A :=
  match o with
  | [] => None
  | (k', v) :: o' => if String.eqb k' k then Some v else obj_get o' k
  end.

(** [k] is an own property of [o]. *)
Definition obj_has (o : obj) (k : string) : bool :=
  match obj_get o k with Some _ => true | None => false end.

(** [Object.keys(o)] *)
Definition obj_keys (o : obj) : list string := map fst o.

(** Assignment to a property that exists: the value changes in place. *)
Fixpoint obj_update (o : obj) (k : string) (v : A) : obj :=
  match o with
  | [] => []
  | (k', v') :: o' =>
      if String.eqb k' k then (k', v) :: o' else (k', v') :: obj_update o' k v
  end.

(** A new array-index key goes before the first key that is not an array
    index or is a greater one. *)
Fixpoint obj_insert_index (o : obj) (n : N) (k : string) (v : A) : obj :=
  match o with
  | [] => [(k, v)]
  | (k', v') :: o' =>
      match array_index k' with
      | Some m =>
          if (m <? n)%N then (k', v') :: obj_insert_index o' n k v
          else (k, v) :: (k', v') :: o'
      | None => (k, v) :: (k', v') :: o'
      end
  end.

(** [o[k] = v] where the assignment defines or updates the own property
    [k]. *)
Definition obj_set (o : obj) (k : string) (v : A) : obj :=
  if obj_has o k then obj_update o k v
  else match array_index k with
       | Some n => obj_insert_index o n k v
       | None => o ++ [(k, v)]
       end.

(** [k in o]: an own property, or a member of [Object.prototype]. *)
Definition obj_in (o : obj) (k : string) : bool :=
  (obj_has o k || inherited k)%bool.

(** [o[k] = v] for an object with the prototype [Object.prototype]: unless
    [__proto__] is an own property of [o], the assignment to it calls the
    setter that [o] inherits, which stores no property (the prototype that
    the setter installs for an object or [null] is not part of a document:
    a call of the scripts never reads a prototype that it has set).  The
    members of
    [Object.prototype] other than [__proto__] are writable data properties:
    an assignment to one of these names defines an own property. *)
Definition obj_put (o : obj) (k : string) (v : A) : obj :=
  if (negb (obj_has o k) && String.eqb k "__proto__")%bool then o
  else obj_set o k v.

(** The object that results from assigning the entries of [l], in order,
    to the properties of [o]. *)
Definition obj_assign (o : obj) (l : list (string * A)) : obj :=
  fold_left (fun acc kv => obj_set acc (fst kv) (snd kv)) l o.

(** The entries whose key passes a test. *)
Definition keep (P : string -> bool) (o : obj) : obj :=
  filter (fun kv => P (fst kv)) o.

(** The entries that an assignment to a fresh object stores. *)
Definition storable (o : obj) : obj :=
  keep (fun k => negb (String.eqb k "__proto__")) o.

(** [obj_put], entry after entry. *)
Definition obj_put_all (o : obj) (l : list (string * A)) : obj :=
  fold_left (fun acc kv => obj_put acc (fst kv) (snd kv)) l o.

(** Enumeration order of keys. *)
Definition key_before (k1 k2 : string) : Prop :=
  match array_index k1, array_index k2 with
  | Some n, Some m => (n < m)%N
  | Some _, None => True
  | None, Some _ => False
  | None, None => True
  end.

Inductive keys_ordered : list string -> Prop :=
| ko_nil : keys_ordered []
| ko_cons k ks :
    Forall (key_before k) ks -> keys_ordered ks -> keys_ordered (k :: ks).

(** What a JavaScript object is: distinct keys in enumeration order. *)
Definition obj_wf (o : obj) : Prop :=
  NoDup (obj_keys o) /\ keys_ordered (obj_keys o).

(** The same, decided. *)
Definition key_beforeb (k1 k2 : string) : bool :=
  match array_index k1, array_index k2 with
  | Some n, Some m => (n <? m)%N
  | Some _, None => true
  | None, Some _ => false
  | None, None => true
  end.

Fixpoint keys_orderedb (ks : list string) : bool :=
  match ks with
  | [] => true
  | k :: ks' => forallb (key_beforeb k) ks' && keys_orderedb ks'
  end.

Fixpoint keys_distinctb (ks : list string) : bool :=
  match ks with
  | [] => true
  | k :: ks' => negb (existsb (String.eqb k) ks') && keys_distinctb ks'
  end.

Definition obj_wfb (o : obj) : bool :=
  keys_distinctb (obj_keys o) && keys_orderedb (obj_keys o).
End Objects.

End Js.

(* ================================================================== *)
(** ** Document trees as [YAML.parse] returns them *)
(* ================================================================== *)

Module Yaml.

(** Scalars, sequences and mappings, and the functions that an object
    inherits: [JFun k] is the function [Object.prototype[k]], which
    [YAML.parse] never returns and the merge can read from a mapping.
    [undefined] is not a value of a document: a possibly absent node is an
    [option value]. *)
Inductive value : Type :=
| JNull : value
| JBool : bool -> value
| JNum : Z -> value
| JStr : string -> value
| JFun : string -> value
| JArr : list value -> value
| JObj : list (string * value) -> value.

(** [Array.isArray(v)] *)
Definition isArray (v : value) : bool :=
  match v with JArr _ => true | _ => false end.

(** [isObject(v)]: non-null, of type object and not an array. *)
Definition isObject (v : value) : bool :=
  match v with JObj _ => true | _ => false end.

Definition isContainer (v : value) : bool := isObject v || isArray v.

Definition isLeaf (v : value) : bool := negb (isContainer v).

(** Induction over trees, with the hypothesis for every element of a
    sequence and every entry of a mapping. *)
Section ValueInd.
Variable P : value -> Prop.
Hypothesis Hnull : P JNull.
Hypothesis Hbool : forall b, P (JBool b).
Hypothesis Hnum : forall z, P (JNum z).
Hypothesis Hstr : forall s, P (JStr s).
Hypothesis Hfun : forall k, P (JFun k).
Hypothesis Harr : forall l, Forall P l -> P (JArr l).
Hypothesis Hobj : forall o, Forall (fun kv => P (snd kv)) o -> P (JObj o).

Fixpoint value_tree_ind (v : value) : P v :=
  match v with
  | JNull => Hnull
  | JBool b => Hbool b
  | JNum z => Hnum z
  | JStr s => Hstr s
  | JFun k => Hfun k
  | JArr l =>
      Harr ((fix elems (l : list value) : Forall P l :=
               match l with
               | [] => Forall_nil P
               | x :: l' => Forall_cons x (value_tree_ind x) (elems l')
               end) l)
  | JObj o =>
      Hobj ((fix entries (o : list (string * value))
               : Forall (fun kv => P (snd kv)) o :=
               match o with
               | [] => Forall_nil _
               | kv :: o' =>
                   Forall_cons kv (value_tree_ind (snd kv)) (entries o')
               end) o)
  end.
End ValueInd.

(** A well-formed document: every mapping is a JavaScript object. *)
Fixpoint wf (v : value) : Prop :=
  match v with
  | JArr l => (fix all (l : list value) : Prop :=
                 match l with [] => True | x :: l' => wf x /\ all l' end) l
  | JObj o =>
      Js.obj_wf o /\
      (fix all (o : list (string * value)) : Prop :=
         match o with [] => True | kv :: o' => wf (snd kv) /\ all o' end) o
  | _ => True
  end.

Fixpoint wfb (v : value) : bool :=
  match v with
  | JArr l => forallb wfb l
  | JObj o => Js.obj_wfb o && forallb (fun kv => wfb (snd kv)) o
  | _ => true
  end.

(** The tree with every leaf replaced by its image under [f]. *)
Fixpoint map_leaves (f : value -> value) (v : value) : value :=
  match v with
  | JArr l => JArr (map (map_leaves f) l)
  | JObj o => JObj (map (fun kv => (fst kv, map_leaves f (snd kv))) o)
  | _ => f v
  end.

(** Every key of every mapping of the tree passes a test. *)
Fixpoint keys_all (P : string -> bool) (v : value) : bool :=
  match v with
  | JArr l => forallb (keys_all P) l
  | JObj o => forallb (fun kv => P (fst kv) && keys_all P (snd kv)) o
  | _ => true
  end.

(** No key of the tree is the name of a member of [Object.prototype]. *)
Definition plain_keys (v : value) : bool :=
  keys_all (fun k => negb (Js.inherited k)) v.

(** No key of the tree is [__proto__]. *)
Definition no_proto_key (v : value) : bool :=
  keys_all (fun k => negb (String.eqb k "__proto__")) v.

(** Positions in a tree. *)
Inductive step : Type :=
| Key : string -> step
| Idx : nat -> step.

Fixpoint lookup (v : value) (p : list step) : option value :=
  match p with
  | [] => Some v
  | Key k :: p' =>
      match v with
      | JObj o =>
          match Js.obj_get o k with
          | Some c => lookup c p'
          | None => None
          end
      | _ => None
      end
  | Idx i :: p' =>
      match v with
      | JArr l =>
          match nth_error l i with
          | Some c => lookup c p'
          | None => None
          end
      | _ => None
      end
  end.

(** No key of a path is the name of a member of [Object.prototype]. *)
Fixpoint plain_path (p : list step) : bool :=
  match p with
  | [] => true
  | Key k :: p' => negb (Js.inherited k) && plain_path p'
  | Idx _ :: p' => plain_path p'
  end.

(** No key of a path is [__proto__]. *)
Fixpoint no_proto_path (p : list step) : bool :=
  match p with
  | [] => true
  | Key k :: p' => negb (String.eqb k "__proto__") && no_proto_path p'
  | Idx _ :: p' => no_proto_path p'
  end.

Definition wf_opt (v : option value) : Prop :=
  match v with
  | Some t => wf t
  | None => True
  end.

(** Every position of [ref] is a position of [tgt]. *)
Definition covers (tgt ref : value) : Prop :=
  forall p, lookup ref p <> None -> lookup tgt p <> None.

(** The node of a possibly absent tree at a position. *)
Definition lookup_opt (v : option value) (p : list step) : option value :=
  match v with
  | Some t => lookup t p
  | None => None
  end.

End Yaml.

(* ================================================================== *)
(** ** sync-structure.mjs *)
(* ================================================================== *)

Module SyncStructure.
Import Yaml.

(** [stats = { missing: [], extra: [] }] *)
Record stats : Type := Stats { missing : list string; extra : list string }.

Definition no_stats : stats := Stats [] [].

(** [stats.missing.push(p)] and [stats.extra.push(p)] *)
Definition push_missing (st : stats) (p : string) : stats :=
  Stats (missing st ++ [p]) (extra st).

Definition push_extra (st : stats) (p : string) : stats :=
  Stats (missing st) (extra st ++ [p]).

(** [`${keyPath}[${i}]`] *)
Definition index_path (keyPath : string) (i : nat) : string :=
  keyPath ++ "[" ++ Js.string_of_nat i ++ "]".

(** [keyPath ? `${keyPath}.${k}` : k] *)
Definition key_path (keyPath k : string) : string :=
  match keyPath with
  | EmptyString => k
  | _ => keyPath ++ "." ++ k
  end.

(** [keyPath || "(root)"] *)
Definition root_path (keyPath : string) : string :=
  match keyPath with
  | EmptyString => "(root)"
  | _ => keyPath
  end.

(** [Array.isArray(tgtNode) ? tgtNode : []] *)
Definition target_array (tgtNode : option value) : list value :=
  match tgtNode with
  | Some (JArr a) => a
  | _ => []
  end.

(** [isObject(tgtNode) ? tgtNode : {}] *)
Definition target_object (tgtNode : option value) : Js.obj value :=
  match tgtNode with
  | Some (JObj o) => o
  | _ => []
  end.

(** [tgtObj[k]] for a key that is in [tgtObj], and [None] for a key that
    is not: the own property, or else the member of [Object.prototype] of
    that name.  The inherited [__proto__] reads as [Object.prototype], an
    object without enumerable properties that has, as own members, the
    members that the empty object inherits, and so counts as the empty
    object wherever the merge can use it: as a target, or in an
    assignment to [__proto__]. *)
Definition target_value (tgtObj : Js.obj value) (k : string)
  : option value :=
  match Js.obj_get tgtObj k with
  | Some v => Some v
  | None =>
      if String.eqb k "__proto__" then Some (JObj [])
      else if Js.inherited k then Some (JFun k)
      else None
  end.

(** The reports of two stretches of a run, one after the other. *)
Definition stats_app (s1 s2 : stats) : stats :=
  Stats (missing s1 ++ missing s2) (extra s1 ++ extra s2).

Section Merge.
(** [missingMode], the lower-cased value of [--missing]. *)
Variable missingMode : string.

Definition missingLeaf (refLeaf : value) : value :=
  if String.eqb missingMode "null" then JNull
  else if String.eqb missingMode "ref" then refLeaf
  else match refLeaf with
       | JStr _ => JStr ""
       | JNull => JStr ""
       | _ => JStr ""
       end.

Section Loops.
(** The recursive call of [reorderLike]. *)
Variable rec : value -> option value -> string -> stats -> value * stats.

(** The element that is pushed where the target has none. *)
Definition fill_missing (refVal : value) (p : string) (st : stats)
  : value * stats :=
  let (v, st1) :=
    if isContainer refVal then rec refVal None p st
    else (missingLeaf refVal, st) in
  (v, push_missing st1 p).

(** The element that is pushed where both have one. *)
Definition merge_present (refVal tgtVal : value) (p : string) (st : stats)
  : value * stats :=
  if isContainer refVal then rec refVal (Some tgtVal) p st
  else (tgtVal, st).

(** Iterations [i, i+1, ...] of the array loop once the reference array is
    exhausted: the target elements are kept. *)
Fixpoint array_extra (keyPath : string) (tgts : list value) (i : nat)
  (st : stats) : list value * stats :=
  match tgts with
  | [] => ([], st)
  | tgtVal :: tgts' =>
      let st1 := push_extra st (index_path keyPath i) in
      let (out, st') := array_extra keyPath tgts' (S i) st1 in
      (tgtVal :: out, st')
  end.

(** Iterations [i, i+1, ...] of the array loop; [refs] and [tgts] are the
    elements of the two arrays from index [i] on. *)
Fixpoint array_loop (keyPath : string) (refs tgts : list value) (i : nat)
  (st : stats) : list value * stats :=
  match refs with
  | [] => array_extra keyPath tgts i st
  | refVal :: refs' =>
      let p := index_path keyPath i in
      match tgts with
      | [] =>
          let (v, st1) := fill_missing refVal p st in
          let (out, st2) := array_loop keyPath refs' [] (S i) st1 in
          (v :: out, st2)
      | tgtVal :: tgts' =>
          let (v, st1) := merge_present refVal tgtVal p st in
          let (out, st2) := array_loop keyPath refs' tgts' (S i) st1 in
          (v :: out, st2)
      end
  end.

(** First loop of the object case: the keys of the reference, in its
    enumeration order. *)
Fixpoint ref_keys_loop (keyPath : string) (tgtObj : Js.obj value)
  (refs : Js.obj value) (out : Js.obj value) (st : stats)
  : Js.obj value * stats :=
  match refs with
  | [] => (out, st)
  | (k, refVal) :: refs' =>
      let p := key_path keyPath k in
      let (v, st1) :=
        match target_value tgtObj k with
        | None => fill_missing refVal p st
        | Some tgtVal => merge_present refVal tgtVal p st
        end in
      ref_keys_loop keyPath tgtObj refs' (Js.obj_put out k v) st1
  end.

(** Second loop of the object case: the keys of the target that the
    reference does not have. *)
Fixpoint target_only_loop (keyPath : string) (refObj : Js.obj value)
  (tgts : Js.obj value) (out : Js.obj value) (st : stats)
  : Js.obj value * stats :=
  match tgts with
  | [] => (out, st)
  | (k, tgtVal) :: tgts' =>
      if Js.obj_in refObj k
      then target_only_loop keyPath refObj tgts' out st
      else target_only_loop keyPath refObj tgts'
             (Js.obj_put out k tgtVal) (push_extra st (key_path keyPath k))
  end.
End Loops.

Fixpoint reorderLike (refNode : value) (tgtNode : option value)
  (keyPath : string) (st : stats) {struct refNode} : value * stats :=
  match refNode with
  | JArr refArr =>
      let tgtArr := target_array tgtNode in
      let (out, st') := array_loop reorderLike keyPath refArr tgtArr 0 st in
      (JArr out, st')
  | JObj refObj =>
      let tgtObj := target_object tgtNode in
      let (out1, st1) :=
        ref_keys_loop reorderLike keyPath tgtObj refObj [] st in
      let (out2, st2) := target_only_loop keyPath refObj tgtObj out1 st1 in
      (JObj out2, st2)
  | _ =>
      match tgtNode with
      | None => (missingLeaf refNode, push_missing st (root_path keyPath))
      | Some t => (t, st)
      end
  end.

(** What the pieces of the loops add to an empty report. *)
Definition fill_report (refVal : value) (p : string) : stats :=
  snd (fill_missing reorderLike refVal p no_stats).

Definition present_report (refVal tgtVal : value) (p : string) : stats :=
  snd (merge_present reorderLike refVal tgtVal p no_stats).

Definition entry_report (keyPath : string) (tgtObj : Js.obj value)
  (k : string) (refVal : value) : stats :=
  match target_value tgtObj k with
  | None => fill_report refVal (key_path keyPath k)
  | Some tgtVal => present_report refVal tgtVal (key_path keyPath k)
  end.

Definition array_report (keyPath : string) (refs tgts : list value)
  (i : nat) : stats :=
  snd (array_loop reorderLike keyPath refs tgts i no_stats).

Definition ref_keys_report (keyPath : string) (tgtObj refs : Js.obj value)
  : stats :=
  snd (ref_keys_loop reorderLike keyPath tgtObj refs [] no_stats).

(** The tree that [reorderLike] returns and what it adds to the report. *)
Definition merged (refNode : value) (tgtNode : option value) : value :=
  fst (reorderLike refNode tgtNode "" no_stats).

Definition report (refNode : value) (tgtNode : option value)
  (keyPath : string) : stats :=
  snd (reorderLike refNode tgtNode keyPath no_stats).

(** The entries that the first loop of the object case assigns. *)
Definition ref_entries (tgtObj refs : Js.obj value) : Js.obj value :=
  map (fun kv => (fst kv, merged (snd kv) (target_value tgtObj (fst kv))))
    refs.

(** The tree that a call returns depends neither on the path nor on the
    report so far, and the call appends to the report. *)
Definition accumulates (r : value) : Prop :=
  forall t p st,
    reorderLike r t p st = (merged r t, stats_app st (report r t p)).

(** A second merge with the same reference returns its target, reports
    nothing missing and reports the extra paths of the first merge. *)
Definition idempotent_at (r : value) : Prop :=
  forall t p, wf_opt t ->
    merged r (Some (merged r t)) = merged r t /\
    missing (report r (Some (merged r t)) p) = [] /\
    extra (report r (Some (merged r t)) p) = extra (report r t p).
End Merge.

(** Element by element: [f] where the reference has an element, the target
    element where only the target has one. *)
Fixpoint zip_elements (f : value -> option value -> value)
  (refs tgts : list value) : list value :=
  match refs with
  | [] => tgts
  | r :: refs' =>
      match tgts with
      | [] => f r None :: zip_elements f refs' []
      | t :: tgts' => f r (Some t) :: zip_elements f refs' tgts'
      end
  end.

(** The entries of the target whose key is not in the reference. *)
Definition target_only (refObj tgtObj : Js.obj value) : Js.obj value :=
  filter (fun kv => negb (Js.obj_in refObj (fst kv))) tgtObj.

(** [readYaml(p)], from what [YAML.parse] returned for the file: [{}] for
    a document that is [null]. *)
Definition readYaml (parsed : value) : value :=
  match parsed with
  | JNull => JObj []
  | _ => parsed
  end.

(** The call of the main program: the normalised tree and the report, for
    the parsed reference and target files. *)
Definition normalized (mode : string) (refParsed tgtParsed : value)
  : value * stats :=
  reorderLike mode (readYaml refParsed) (Some (readYaml tgtParsed)) ""
    no_stats.

End SyncStructure.

(* ================================================================== *)
(** ** generate-locale.mjs *)
(* ================================================================== *)

Module GenerateLocale.

(** *** Strings *)

(** The characters that [trim] strips are the white space and the line
    terminators of ECMAScript.  In UTF-8 they take one byte (U+0009 to
    U+000D and U+0020), two bytes (U+00A0) or three (U+1680, U+2000 to
    U+200A, U+2028, U+2029, U+202F, U+205F, U+3000 and U+FEFF). *)
Definition is_space (c : ascii) : bool :=
  let n := nat_of_ascii c in
  (Nat.eqb n 32 || (Nat.leb 9 n && Nat.leb n 13))%bool.

Definition is_space2 (c1 c2 : ascii) : bool :=
  (Nat.eqb (nat_of_ascii c1) 194 && Nat.eqb (nat_of_ascii c2) 160)%bool.

Definition is_space3 (c1 c2 c3 : ascii) : bool :=
  let n1 := nat_of_ascii c1 in
  let n2 := nat_of_ascii c2 in
  let n3 := nat_of_ascii c3 in
  ((Nat.eqb n1 225 && Nat.eqb n2 154 && Nat.eqb n3 128) ||
   (Nat.eqb n1 226 && Nat.eqb n2 128 &&
    ((Nat.leb 128 n3 && Nat.leb n3 138) || Nat.eqb n3 168 ||
     Nat.eqb n3 169 || Nat.eqb n3 175)) ||
   (Nat.eqb n1 226 && Nat.eqb n2 129 && Nat.eqb n3 159) ||
   (Nat.eqb n1 227 && Nat.eqb n2 128 && Nat.eqb n3 128) ||
   (Nat.eqb n1 239 && Nat.eqb n2 187 && Nat.eqb n3 191))%bool.

(** What follows the white space character that a string begins with. *)
Definition space_prefix (s : string) : option string :=
  match s with
  | String c1 (String c2 (String c3 s3 as s2) as s1) =>
      if is_space c1 then Some s1
      else if is_space2 c1 c2 then Some s2
      else if is_space3 c1 c2 c3 then Some s3
      else None
  | String c1 (String c2 s2 as s1) =>
      if is_space c1 then Some s1
      else if is_space2 c1 c2 then Some s2
      else None
  | String c1 s1 => if is_space c1 then Some s1 else None
  | EmptyString => None
  end.

Fixpoint trim_start (s : string) : string :=
  match s with
  | EmptyString => s
  | String c1 s1 =>
      if is_space c1 then trim_start s1
      else
        match s1 with
        | EmptyString => s
        | String c2 s2 =>
            if is_space2 c1 c2 then trim_start s2
            else
              match s2 with
              | EmptyString => s
              | String c3 s3 =>
                  if is_space3 c1 c2 c3 then trim_start s3 else s
              end
        end
  end.

(** White space only. *)
Definition all_space (s : string) : bool :=
  match trim_start s with
  | EmptyString => true
  | _ => false
  end.

(** What is left of [s] once its trailing white space is dropped. *)
Fixpoint trim_end (s : string) : string :=
  match s with
  | EmptyString => EmptyString
  | String c s' => if all_space s then EmptyString else String c (trim_end s')
  end.

(** Every character passes a test. *)
Fixpoint string_all (P : ascii -> bool) (s : string) : bool :=
  match s with
  | EmptyString => true
  | String c s' => P c && string_all P s'
  end.

(** [s.trim()] *)
Definition trim (s : string) : string := trim_end (trim_start s).

(** [s.split(re)] for a regular expression [re] that matches the maximal
    runs of the characters [sep]; [piece] is the text since the last run and
    [in_run] tells whether the previous character belonged to a run. *)
Fixpoint split_runs (sep : ascii -> bool) (s : string) (piece : string)
  (in_run : bool) : list string :=
  match s with
  | EmptyString => [piece]
  | String c s' =>
      if sep c then
        if in_run then split_runs sep s' EmptyString true
        else piece :: split_runs sep s' EmptyString true
      else split_runs sep s' (piece ++ String c EmptyString) false
  end.

(** *** Command-line arguments *)

(** [args.indexOf(x)], where [None] stands for [-1]. *)
Fixpoint index_of (x : string) (args : list string) : option nat :=
  match args with
  | [] => None
  | a :: args' =>
      if String.eqb a x then Some 0
      else match index_of x args' with
           | Some i => Some (S i)
           | None => None
           end
  end.

(** [getArg(name, fallback)] over the arguments [args]; [None] stands for
    [null]. *)
Definition getArg (args : list string) (name : string)
  (fallback : option string) : option string :=
  match index_of ("--" ++ name) args with
  | None => fallback
  | Some idx =>
      match nth_error args (idx + 1) with
      | Some a => Some a
      | None => fallback
      end
  end.

(** *** Spreadsheet cells and rows *)

Inductive cell : Type :=
| CUndefined : cell
| CNull : cell
| CStr : string -> cell
| CNum : Z -> cell
| CBool : bool -> cell.

Definition string_of_Z (z : Z) : string :=
  match z with
  | Z0 => "0"
  | Zpos p => Js.string_of_N (Npos p)
  | Zneg p => "-" ++ Js.string_of_N (Npos p)
  end.

(** [String(v)]; a number is printed digit by digit, as [String] does for
    an integer that is not above [2^53] in absolute value. *)
Definition String_ (v : cell) : string :=
  match v with
  | CUndefined => "undefined"
  | CNull => "null"
  | CStr s => s
  | CNum z => string_of_Z z
  | CBool true => "true"
  | CBool false => "false"
  end.

(** A cell that [String] prints as [String_] does. *)
Definition printed_in_full (v : cell) : bool :=
  match v with
  | CNum z => (Z.abs z <=? 9007199254740992)%Z
  | _ => true
  end.

(** [v == null] *)
Definition cell_nullish (v : cell) : bool :=
  match v with CUndefined | CNull => true | _ => false end.

(** Truthiness of a cell. *)
Definition cell_truthy (v : cell) : bool :=
  match v with
  | CUndefined | CNull => false
  | CStr s => negb (String.eqb s "")
  | CNum z => negb (Z.eqb z 0)
  | CBool b => b
  end.

Definition isBlank (v : cell) : bool :=
  cell_nullish v || String.eqb (trim (String_ v)) "".

(** The characters of [/[\n|,]+/]. *)
Definition is_key_separator (c : ascii) : bool :=
  let n := nat_of_ascii c in
  (Nat.eqb n 10 || Nat.eqb n 124 || Nat.eqb n 44)%bool.

Definition splitMultiKey (c : cell) : list string :=
  let text := String_ (if cell_truthy c then c else CStr "") in
  filter (fun s => negb (String.eqb s ""))
    (map trim (split_runs is_key_separator text EmptyString false)).

(** *** Key paths *)

(** The elements of the array that [parseKey] returns: a string for a
    property name, a number for a bracketed index. *)
Inductive token : Type :=
| TProp : string -> token
| TIndex : N -> token.

(** [typeof t === "number"] *)
Definition is_number (t : token) : bool :=
  match t with TIndex _ => true | TProp _ => false end.

(** The property key that [cur[t]] addresses. *)
Definition prop_key (t : token) : string :=
  match t with
  | TProp s => s
  | TIndex n => Js.string_of_N n
  end.

Definition is_dot (c : ascii) : bool := Nat.eqb (nat_of_ascii c) 46.
Definition is_lbracket (c : ascii) : bool := Nat.eqb (nat_of_ascii c) 91.
Definition is_rbracket (c : ascii) : bool := Nat.eqb (nat_of_ascii c) 93.
Definition is_digit (c : ascii) : bool :=
  let n := nat_of_ascii c in (Nat.leb 48 n && Nat.leb n 57)%bool.

(** [[^.[]+]: the longest prefix without [.] and [[], and the rest. *)
Fixpoint take_run (s : string) : string * string :=
  match s with
  | EmptyString => (EmptyString, EmptyString)
  | String c s' =>
      if (is_dot c || is_lbracket c)%bool then (EmptyString, s)
      else let (run, rest) := take_run s' in (String c run, rest)
  end.

(** [\d+]: the longest prefix of digits, and the rest. *)
Fixpoint take_digits (s : string) : string * string :=
  match s with
  | EmptyString => (EmptyString, EmptyString)
  | String c s' =>
      if is_digit c
      then let (ds, rest) := take_digits s' in (String c ds, rest)
      else (EmptyString, s)
  end.

(** [(\d+)\]] after an opening bracket: the index and the rest. *)
Definition match_index (s : string) : option (N * string) :=
  match take_digits s with
  | (EmptyString, _) => None
  | (ds, String c rest) =>
      if is_rbracket c then
        match Js.N_of_digits ds with
        | Some n => Some (n, rest)
        | None => None
        end
      else None
  | (_, EmptyString) => None
  end.

(** The loop [while ((m = re.exec(key)))] from the position where [s]
    starts: the first alternative is tried first, then the second, and a
    position where neither matches is passed over.  Every iteration
    consumes a character, so [fuel] above the length of [s] is never used
    up. *)
Fixpoint parse_from (fuel : nat) (s : string) : list token :=
  match fuel with
  | O => []
  | S fuel' =>
      match s with
      | EmptyString => []
      | String c s' =>
          if is_dot c then parse_from fuel' s'
          else if is_lbracket c then
            match match_index s' with
            | Some (n, rest) => TIndex n :: parse_from fuel' rest
            | None => parse_from fuel' s'
            end
          else let (run, rest) := take_run s in
               TProp run :: parse_from fuel' rest
      end
  end.

Definition parseKey (key : string) : list token :=
  parse_from (S (String.length key)) key.

(** A string without dots and opening brackets. *)
Fixpoint no_separator (s : string) : bool :=
  match s with
  | EmptyString => true
  | String c s' => negb (is_dot c || is_lbracket c) && no_separator s'
  end.

(** A string that is empty or begins with a dot or an opening bracket. *)
Definition starts_with_separator (s : string) : Prop :=
  match s with
  | EmptyString => True
  | String c _ => (is_dot c || is_lbracket c)%bool = true
  end.

(** A string of decimal digits. *)
Fixpoint all_digits (s : string) : bool :=
  match s with
  | EmptyString => true
  | String c s' => is_digit c && all_digits s'
  end.

(** A string of dots and opening brackets. *)
Fixpoint only_separators (s : string) : bool :=
  match s with
  | EmptyString => true
  | String c s' => (is_dot c || is_lbracket c) && only_separators s'
  end.

(** *** Trees under construction *)

(** The values that [setDeep] meets.  An array has elements, where
    [VUndef] is a hole, and may have named properties besides.  [VFun k]
    stands for the function [Object.prototype[k]] and makes [of_yaml]
    total: no tree of the script holds one ([YAML.parse] returns none, and
    [setDeep] is given strings), and its properties are not modelled. *)
Inductive value : Type :=
| VUndef : value
| VNull : value
| VBool : bool -> value
| VNum : Z -> value
| VStr : string -> value
| VFun : string -> value
| VArr : list value -> list (string * value) -> value
| VObj : list (string * value) -> value.

Definition isArray (v : value) : bool :=
  match v with VArr _ _ => true | _ => false end.

Definition isObject (v : value) : bool :=
  match v with VObj _ => true | _ => false end.

Definition isContainer (v : value) : bool := (isObject v || isArray v)%bool.

(** [v == null] *)
Definition nullish (v : value) : bool :=
  match v with VUndef | VNull => true | _ => false end.

Definition or_undefined (o : option value) : value :=
  match o with Some v => v | None => VUndef end.

(** [s[i]] for a string of ASCII characters. *)
Definition char_at (s : string) (i : nat) : value :=
  match String.get i s with
  | Some c => VStr (String c EmptyString)
  | None => VUndef
  end.

(** [v[k]] for a [v] that is neither [null] nor [undefined], where [k]
    is an own property or the name of no member that [v] inherits. *)
Definition get_prop (v : value) (k : string) : value :=
  match v with
  | VObj o => or_undefined (Js.obj_get o k)
  | VArr es ps =>
      match Js.array_index k with
      | Some i => nth (N.to_nat i) es VUndef
      | None => or_undefined (Js.obj_get ps k)
      end
  | VStr s =>
      match Js.array_index k with
      | Some i => char_at s (N.to_nat i)
      | None => VUndef
      end
  | _ => VUndef
  end.

(** [es[i] = x]: an index past the end leaves holes before it. *)
Fixpoint array_store (es : list value) (i : nat) (x : value) : list value :=
  match es, i with
  | [], O => [x]
  | [], S i' => VUndef :: array_store [] i' x
  | _ :: es', O => x :: es'
  | e :: es', S i' => e :: array_store es' i' x
  end.

(** [v[k] = x] for an object or an array [v], where [k] is neither
    [__proto__] nor the [length] of an array. *)
Definition store (v : value) (k : string) (x : value) : value :=
  match v with
  | VObj o => VObj (Js.obj_set o k x)
  | VArr es ps =>
      match Js.array_index k with
      | Some i => VArr (array_store es (N.to_nat i) x) ps
      | None => VArr es (Js.obj_set ps k x)
      end
  | _ => v
  end.

(** What [setDeep] can throw: its own [Error("Expected array ...")], and
    the [TypeError] of the engine. *)
Inductive error : Type :=
| ExpectedArray : error
| JsTypeError : error.

Inductive result (A : Type) : Type :=
| Ok : A -> result A
| Throw : error -> result A.
Arguments Ok {A} _.
Arguments Throw {A} _.

Definition bind {A B : Type} (r : result A) (f : A -> result B) : result B :=
  match r with
  | Ok a => f a
  | Throw e => Throw e
  end.

Notation "x <- r ;; k" := (bind r (fun x => k))
  (at level 61, r at next level, right associativity).

(** [v[k] = x] in a module, that is in strict mode: assignment to a
    property of a primitive value throws, and leaves everything as it was. *)
Definition set_prop (v : value) (k : string) (x : value) : result value :=
  if isContainer v then Ok (store v k x)
  else Throw JsTypeError.

(** [typeof nextToken === "number" ? [] : {}] *)
Definition fresh_for (nextToken : token) : value :=
  if is_number nextToken then VArr [] [] else VObj [].

(** [ensureContainer(parent, prop, nextToken)]: the parent after the
    assignments, and the value returned. *)
Definition ensureContainer (parent : value) (prop : string)
  (nextToken : token) : result (value * value) :=
  let wantsArray := is_number nextToken in
  if nullish parent then Throw JsTypeError else
  parent1 <- (if nullish (get_prop parent prop)
              then set_prop parent prop
                     (if wantsArray then VArr [] [] else VObj [])
              else Ok parent) ;;
  parent2 <- (if (wantsArray && negb (isArray (get_prop parent1 prop)))%bool
              then set_prop parent1 prop (VArr [] [])
              else Ok parent1) ;;
  parent3 <- (if (negb wantsArray && isArray (get_prop parent2 prop))%bool
              then set_prop parent2 prop (VObj [])
              else Ok parent2) ;;
  Ok (parent3, get_prop parent3 prop).

(** The body of the loop of [setDeep] for a token [t] that is not the last:
    the current container after the assignments, and the child that becomes
    the current one. *)
Definition enter (cur : value) (t next : token) : result (value * value) :=
  match t with
  | TIndex _ =>
      if isArray cur then
        let cur1 :=
          if nullish (get_prop cur (prop_key t))
          then store cur (prop_key t) (fresh_for next)
          else cur in
        Ok (cur1, get_prop cur1 (prop_key t))
      else Throw ExpectedArray
  | TProp s => ensureContainer cur s next
  end.

(** The loop of [setDeep] from the container [cur] on.  The containers of a
    tree are not shared, so the assignments made below [cur] are written
    back into it.  The result is the container after the call and what was
    thrown, if anything. *)
Fixpoint setDeep_from (cur : value) (tokens : list token) (v : value)
  : value * option error :=
  match tokens with
  | [] => (cur, None)
  | t :: rest =>
      match rest with
      | [] =>
          match set_prop cur (prop_key t) v with
          | Ok cur' => (cur', None)
          | Throw e => (cur, Some e)
          end
      | next :: _ =>
          match enter cur t next with
          | Throw e => (cur, Some e)
          | Ok (cur1, child) =>
              let (child', e) := setDeep_from child rest v in
              (store cur1 (prop_key t) child', e)
          end
      end
  end.

Definition setDeep (obj : value) (key : string) (v : value)
  : value * option error :=
  setDeep_from obj (parseKey key) v.

(** [obj?.[t1]?.[t2]...] for the tokens of a path: a step from a value
    without the property gives [undefined]. *)
Fixpoint get_path (v : value) (tokens : list token) : value :=
  match tokens with
  | [] => v
  | t :: rest => get_path (get_prop v (prop_key t)) rest
  end.

(** The iterations of the loop of [setDeep]: the current container, the
    token and whether it is the last one. *)
Fixpoint visits (cur : value) (tokens : list token)
  : list (value * token * bool) :=
  match tokens with
  | [] => []
  | t :: rest =>
      match rest with
      | [] => [(cur, t, true)]
      | next :: _ =>
          (cur, t, false) ::
          match enter cur t next with
          | Throw _ => []
          | Ok (_, child) => visits child rest
          end
      end
  end.

(** An iteration of the loop that meets no inherited member: an index
    token below [2^53], which [Number] and [String] keep as it is, never
    does; a property token that is the last is assigned, which
    defines an own property of an object unless it is [__proto__] and of
    an array unless it is [length] or [__proto__], and throws on the other
    values; a property token that is not the last is read, from an object
    whose prototype has no member of that name, or from [null] or
    [undefined], which throws. *)
Definition plain_visit (it : value * token * bool) : bool :=
  match it with
  | (cur, TIndex n, _) =>
      ((n <? 9007199254740992)%N &&
       negb (match cur with VFun _ => true | _ => false end))%bool
  | (cur, TProp k, true) =>
      match cur with
      | VObj _ => negb (String.eqb k "__proto__")
      | VArr _ _ =>
          (negb (String.eqb k "__proto__") && negb (String.eqb k "length"))%bool
      | VFun _ => false
      | _ => true
      end
  | (cur, TProp k, false) =>
      match cur with
      | VObj _ => negb (Js.inherited k)
      | VUndef | VNull => true
      | _ => false
      end
  end.

(** The walk of [setDeep] along a key meets no inherited member. *)
Definition plain_walk (obj : value) (key : string) : bool :=
  forallb plain_visit (visits obj (parseKey key)).

(** An iteration for an index token on a container that is not an array. *)
Definition index_on_non_array (it : value * token * bool) : Prop :=
  is_number (snd (fst it)) = true /\ isArray (fst (fst it)) = false.

(** The same, for a token that is not the last. *)
Definition inner_index_on_non_array (it : value * token * bool) : Prop :=
  index_on_non_array it /\ snd it = false.

(** *** The projection of the rows *)

Definition row := Js.obj cell.

(** [r[col]] *)
Definition row_get (r : row) (col : string) : cell :=
  match Js.obj_get r col with Some c => c | None => CUndefined end.

(** The interpolated parts of a warning:
    [Row ${i + 2} col "${col}" key "${key}": ${e.message}]. *)
Record warning : Type :=
  Warning { w_row : nat; w_col : string; w_key : string; w_error : error }.

Record state : Type :=
  State { outputs : Js.obj value; warnings : list warning }.

(** [for (const col of localeCols) outputs[col] = {}] *)
Definition initial_state (localeCols : list string) : state :=
  State (Js.obj_assign [] (map (fun col => (col, VObj [])) localeCols)) [].

(** The body of the innermost loop, for row [i], a key and a column. *)
Definition project_cell (i : nat) (r : row) (key : string) (st : state)
  (col : string) : state :=
  let raw := row_get r col in
  if isBlank raw then st
  else
    let (tree, e) :=
      setDeep (or_undefined (Js.obj_get (outputs st) col)) key
        (VStr (String_ raw)) in
    State (Js.obj_update (outputs st) col tree)
      match e with
      | Some err => warnings st ++ [Warning (i + 2) col key err]
      | None => warnings st
      end.

Definition project_key (localeCols : list string) (i : nat) (r : row)
  (st : state) (key : string) : state :=
  fold_left (project_cell i r key) localeCols st.

Definition project_row (keyColName : string) (localeCols : list string)
  (i : nat) (r : row) (st : state) : state :=
  let keys := splitMultiKey (row_get r keyColName) in
  match keys with
  | [] => st
  | _ => fold_left (project_key localeCols i r) keys st
  end.

(** Rows [i, i+1, ...]. *)
Fixpoint project_rows (keyColName : string) (localeCols : list string)
  (i : nat) (rows : list row) (st : state) : state :=
  match rows with
  | [] => st
  | r :: rows' =>
      project_rows keyColName localeCols (S i) rows'
        (project_row keyColName localeCols i r st)
  end.

Definition project (keyColName : string) (localeCols : list string)
  (rows : list row) : state :=
  project_rows keyColName localeCols 0 rows (initial_state localeCols).

(** *** Filling from a reference *)

(** [createFromRef(refVal, mode)] and [fillMissingFromRef(target, ref,
    mode)] follow own properties: they are the functions of the script for
    a reference none of whose keys is the name of a member of
    [Object.prototype] ([Yaml.plain_keys]). *)
Fixpoint createFromRef (refVal : Yaml.value) (mode : string) : Yaml.value :=
  match refVal with
  | Yaml.JArr l => Yaml.JArr (map (fun v => createFromRef v mode) l)
  | Yaml.JObj o =>
      Yaml.JObj
        ((fix keys_loop (o : Js.obj Yaml.value) (out : Js.obj Yaml.value) :=
            match o with
            | [] => out
            | (k, v) :: o' =>
                keys_loop o' (Js.obj_set out k (createFromRef v mode))
            end) o [])
  | _ => if String.eqb mode "ref" then refVal else Yaml.JStr ""
  end.

(** A parsed document as a value of the program. *)
Fixpoint of_yaml (v : Yaml.value) : value :=
  match v with
  | Yaml.JNull => VNull
  | Yaml.JBool b => VBool b
  | Yaml.JNum z => VNum z
  | Yaml.JStr s => VStr s
  | Yaml.JFun k => VFun k
  | Yaml.JArr l => VArr (map of_yaml l) []
  | Yaml.JObj o => VObj (map (fun kv => (fst kv, of_yaml (snd kv))) o)
  end.

(** [x === undefined] *)
Definition is_undefined (x : value) : bool :=
  match x with VUndef => true | _ => false end.

(** [isObject(refVal) && isObject(tgtVal)], or else
    [Array.isArray(refVal) && Array.isArray(tgtVal)]. *)
Definition both_objects_or_arrays (refVal : Yaml.value) (tgtVal : value)
  : bool :=
  ((Yaml.isObject refVal && isObject tgtVal) ||
   (Yaml.isArray refVal && isArray tgtVal))%bool.

(** [fillMissingFromRef(target, ref, mode)].  A recursive call is made on a
    child of the kind of the reference, which it changes in place and
    returns: the child is written back where it was. *)
Fixpoint fillMissingFromRef (target : value) (ref : Yaml.value)
  (mode : string) : value :=
  match ref with
  | Yaml.JArr refArr =>
      let (es, ps) :=
        match target with
        | VArr es ps => (es, ps)
        | _ => ([], [])
        end in
      VArr
        ((fix elements_loop (refArr : list Yaml.value) (i : nat)
            (es : list value) {struct refArr} : list value :=
            match refArr with
            | [] => es
            | refVal :: refArr' =>
                let tgtVal := nth i es VUndef in
                elements_loop refArr' (S i)
                  (if is_undefined tgtVal
                   then array_store es i (of_yaml (createFromRef refVal mode))
                   else if both_objects_or_arrays refVal tgtVal
                        then array_store es i
                               (fillMissingFromRef tgtVal refVal mode)
                        else es)
            end) refArr 0 es) ps
  | Yaml.JObj refObj =>
      let o := match target with VObj o => o | _ => [] end in
      VObj
        ((fix keys_loop (refObj : Js.obj Yaml.value) (o : Js.obj value)
            {struct refObj} : Js.obj value :=
            match refObj with
            | [] => o
            | (k, refVal) :: refObj' =>
                let tgtVal := or_undefined (Js.obj_get o k) in
                keys_loop refObj'
                  (if is_undefined tgtVal
                   then Js.obj_set o k (of_yaml (createFromRef refVal mode))
                   else if both_objects_or_arrays refVal tgtVal
                        then Js.obj_set o k
                               (fillMissingFromRef tgtVal refVal mode)
                        else o)
            end) refObj o)
  | _ => target
  end.

(** One pass of the loops of [fillMissingFromRef], for the value [tgtVal]
    found at a position where the reference has [refVal]. *)
Definition filled (tgtVal : value) (refVal : Yaml.value) (mode : string)
  : value :=
  if is_undefined tgtVal then of_yaml (createFromRef refVal mode)
  else if both_objects_or_arrays refVal tgtVal
       then fillMissingFromRef tgtVal refVal mode
       else tgtVal.

(** The loops of [fillMissingFromRef], by themselves. *)
Fixpoint fill_elements (mode : string) (refArr : list Yaml.value) (i : nat)
  (es : list value) : list value :=
  match refArr with
  | [] => es
  | refVal :: refArr' =>
      let tgtVal := nth i es VUndef in
      fill_elements mode refArr' (S i)
        (if is_undefined tgtVal
         then array_store es i (of_yaml (createFromRef refVal mode))
         else if both_objects_or_arrays refVal tgtVal
              then array_store es i (fillMissingFromRef tgtVal refVal mode)
              else es)
  end.

Fixpoint fill_keys (mode : string) (refObj : Js.obj Yaml.value)
  (o : Js.obj value) : Js.obj value :=
  match refObj with
  | [] => o
  | (k, refVal) :: refObj' =>
      let tgtVal := or_undefined (Js.obj_get o k) in
      fill_keys mode refObj'
        (if is_undefined tgtVal
         then Js.obj_set o k (of_yaml (createFromRef refVal mode))
         else if both_objects_or_arrays refVal tgtVal
              then Js.obj_set o k (fillMissingFromRef tgtVal refVal mode)
              else o)
  end.


End GenerateLocale.
(* ================================================================== *)
(** ** Facts about property keys and objects *)
(* ================================================================== *)

Module JsFacts.
Import Js.

Lemma array_index_canonical (s : string) (n : N) :
  array_index s = Some n -> s = string_of_N n.
Proof.
  unfold array_index. destruct s as [|c s]; [discriminate|].
  destruct (N_of_digits (String c s)) as [m|]; [|discriminate].
  destruct (String.eqb (string_of_N m) (String c s)) eqn:E; simpl; [|discriminate].
  destruct (m <? 4294967295)%N; [|discriminate].
  intros H. inversion H. subst. apply String.eqb_eq in E. congruence.
Qed.

Lemma array_index_inj (k k' : string) (n : N) :
  array_index k = Some n -> array_index k' = Some n -> k = k'.
Proof.
  intros H1 H2. apply array_index_canonical in H1, H2. congruence.
Qed.

Lemma key_beforeb_sound (k1 k2 : string) :
  key_beforeb k1 k2 = true -> key_before k1 k2.
Proof.
  unfold key_beforeb, key_before.
  destruct (array_index k1), (array_index k2); try easy.
  apply N.ltb_lt.
Qed.

Lemma keys_orderedb_sound (ks : list string) :
  keys_orderedb ks = true -> keys_ordered ks.
Proof.
  induction ks as [|k ks IH]; simpl; intros H; constructor.
  - apply andb_prop in H. destruct H as [H _].
    rewrite forallb_forall in H. apply Forall_forall.
    intros x Hx. apply key_beforeb_sound. auto.
  - apply IH. apply andb_prop in H. tauto.
Qed.

Lemma keys_distinctb_sound (ks : list string) :
  keys_distinctb ks = true -> NoDup ks.
Proof.
  induction ks as [|k ks IH]; simpl; intros H; constructor.
  - apply andb_prop in H. destruct H as [H _].
    intros Hin. apply negb_true_iff in H.
    assert (existsb (String.eqb k) ks = true); [|congruence].
    apply existsb_exists. exists k. split; auto. apply String.eqb_refl.
  - apply IH. apply andb_prop in H. tauto.
Qed.

Section ObjFacts.
Variable A : Type.
Implicit Types (o l : obj A) (k : string) (v : A).

Lemma obj_wfb_sound o : obj_wfb o = true -> obj_wf o.
Proof.
  unfold obj_wfb, obj_wf. intros H. apply andb_prop in H. destruct H.
  split; [apply keys_distinctb_sound | apply keys_orderedb_sound]; assumption.
Qed.

Lemma obj_get_none_iff o k : obj_get o k = None <-> ~ In k (obj_keys o).
Proof.
  induction o as [|[k' v'] o IH]; simpl.
  - tauto.
  - destruct (String.eqb_spec k' k).
    + split; [discriminate | intros H; exfalso; apply H; auto].
    + rewrite IH. tauto.
Qed.

Lemma obj_get_some_in o k v : obj_get o k = Some v -> In (k, v) o.
Proof.
  induction o as [|[k' v'] o IH]; simpl; [discriminate|].
  destruct (String.eqb_spec k' k).
  - intros H. inversion H. subst. auto.
  - auto.
Qed.

Lemma obj_get_in_keys o k v : obj_get o k = Some v -> In k (obj_keys o).
Proof.
  intros H. apply obj_get_some_in in H.
  apply (in_map fst) in H. exact H.
Qed.

Lemma obj_get_of_in o k v :
  NoDup (obj_keys o) -> In (k, v) o -> obj_get o k = Some v.
Proof.
  induction o as [|[k' v'] o IH]; simpl; [tauto|].
  intros Hnd [Heq|Hin].
  - inversion Heq. subst. rewrite String.eqb_refl. reflexivity.
  - inversion Hnd as [|? ? Hnot Hnd']. subst.
    destruct (String.eqb_spec k' k).
    + subst. exfalso. apply Hnot. apply (in_map fst) in Hin. exact Hin.
    + auto.
Qed.

Lemma obj_has_true_iff o k : obj_has o k = true <-> In k (obj_keys o).
Proof.
  unfold obj_has. destruct (obj_get o k) eqn:E.
  - split; auto. intros _. eapply obj_get_in_keys; eauto.
  - apply obj_get_none_iff in E. split; [discriminate | tauto].
Qed.

Lemma obj_has_false_iff o k : obj_has o k = false <-> ~ In k (obj_keys o).
Proof.
  rewrite <- obj_has_true_iff. destruct (obj_has o k); split; congruence.
Qed.

Lemma obj_keys_update o k v : obj_keys (obj_update o k v) = obj_keys o.
Proof.
  induction o as [|[k' v'] o IH]; simpl; auto.
  destruct (String.eqb k' k); simpl; congruence.
Qed.

Lemma obj_get_update_same o k v :
  In k (obj_keys o) -> obj_get (obj_update o k v) k = Some v.
Proof.
  induction o as [|[k' v'] o IH]; simpl; [tauto|].
  intros H. destruct (String.eqb_spec k' k); simpl.
  - subst. rewrite String.eqb_refl. reflexivity.
  - destruct (String.eqb_spec k' k); [contradiction|].
    apply IH. destruct H; [contradiction | assumption].
Qed.

Lemma obj_get_update_other o k k' v :
  k' <> k -> obj_get (obj_update o k v) k' = obj_get o k'.
Proof.
  intros Hne. induction o as [|[k1 v1] o IH]; simpl; auto.
  destruct (String.eqb_spec k1 k); simpl.
  - subst. destruct (String.eqb_spec k k'); [congruence | reflexivity].
  - rewrite IH. reflexivity.
Qed.

Lemma obj_get_insert_same o n k v :
  obj_get o k = None -> obj_get (obj_insert_index o n k v) k = Some v.
Proof.
  induction o as [|[k' v'] o IH]; simpl.
  - rewrite String.eqb_refl. reflexivity.
  - destruct (String.eqb_spec k' k); [discriminate|]. intros H.
    destruct (array_index k') as [m|]; simpl.
    + destruct (m <? n)%N; simpl.
      * destruct (String.eqb_spec k' k); [contradiction | auto].
      * rewrite String.eqb_refl. reflexivity.
    + rewrite String.eqb_refl. reflexivity.
Qed.

Lemma obj_get_insert_other o n k k' v :
  k' <> k -> obj_get (obj_insert_index o n k v) k' = obj_get o k'.
Proof.
  intros Hne. induction o as [|[k1 v1] o IH]; simpl.
  - destruct (String.eqb_spec k k'); [congruence | reflexivity].
  - destruct (array_index k1) as [m|]; simpl.
    + destruct (m <? n)%N; simpl.
      * rewrite IH. reflexivity.
      * destruct (String.eqb_spec k k'); [congruence | reflexivity].
    + destruct (String.eqb_spec k k'); [congruence | reflexivity].
Qed.

Lemma obj_get_app o1 o2 k :
  obj_get (o1 ++ o2) k =
  match obj_get o1 k with Some v => Some v | None => obj_get o2 k end.
Proof.
  induction o1 as [|[k' v'] o1 IH]; simpl; auto.
  destruct (String.eqb k' k); auto.
Qed.

Lemma obj_get_set_same o k v : obj_get (obj_set o k v) k = Some v.
Proof.
  unfold obj_set. destruct (obj_has o k) eqn:E.
  - apply obj_get_update_same. apply obj_has_true_iff. exact E.
  - assert (Hn : obj_get o k = None).
    { apply obj_get_none_iff. apply obj_has_false_iff. exact E. }
    destruct (array_index k).
    + apply obj_get_insert_same. exact Hn.
    + rewrite obj_get_app, Hn. simpl. rewrite String.eqb_refl. reflexivity.
Qed.

Lemma obj_get_set_other o k k' v :
  k' <> k -> obj_get (obj_set o k v) k' = obj_get o k'.
Proof.
  intros Hne. unfold obj_set. destruct (obj_has o k).
  - apply obj_get_update_other. exact Hne.
  - destruct (array_index k).
    + apply obj_get_insert_other. exact Hne.
    + rewrite obj_get_app. destruct (obj_get o k'); auto.
      simpl. destruct (String.eqb_spec k k'); [congruence | reflexivity].
Qed.

(** Assigning to a property the value that it has changes nothing. *)
Lemma obj_update_same_value o k v :
  obj_get o k = Some v -> obj_update o k v = o.
Proof.
  induction o as [|[k' v'] o IH]; simpl; auto.
  destruct (String.eqb_spec k' k).
  - intros H. inversion H. reflexivity.
  - intros H. rewrite IH; auto.
Qed.

Lemma obj_set_same_value o k v : obj_get o k = Some v -> obj_set o k v = o.
Proof.
  intros H. unfold obj_set, obj_has. rewrite H.
  apply obj_update_same_value. exact H.
Qed.

(** *** Enumeration order *)

Lemma key_before_trans (a b c : string) :
  key_before a b -> key_before b c -> key_before a c.
Proof.
  unfold key_before.
  destruct (array_index a), (array_index b), (array_index c);
    try tauto; lia.
Qed.

Lemma key_before_plain (a k : string) :
  array_index k = None -> key_before a k.
Proof.
  unfold key_before. intros ->. destruct (array_index a); exact I.
Qed.

Lemma keys_ordered_app (l1 l2 : list string) :
  keys_ordered (l1 ++ l2) <->
  keys_ordered l1 /\ keys_ordered l2 /\
  (forall a b, In a l1 -> In b l2 -> key_before a b).
Proof.
  induction l1 as [|x l1 IH]; simpl.
  - split.
    + intros H. repeat split; auto; [constructor | tauto].
    + tauto.
  - split.
    + intros H. inversion H as [|? ? Hall Hord]. subst.
      apply IH in Hord. destruct Hord as (H1 & H2 & H3).
      apply Forall_app in Hall. destruct Hall as [Ha Hb].
      repeat split; auto.
      * constructor; auto.
      * intros a b [->|Ha'] Hb'; auto.
        rewrite Forall_forall in Hb. auto.
    + intros (H1 & H2 & H3). inversion H1 as [|? ? Hall Hord]. subst.
      constructor.
      * apply Forall_app. split; auto.
        apply Forall_forall. intros b Hb. apply H3; auto.
      * apply IH. repeat split; auto.
Qed.

Lemma keys_ordered_filter (f : string -> bool) (l : list string) :
  keys_ordered l -> keys_ordered (filter f l).
Proof.
  induction 1 as [|k ks Hall Hord IH]; simpl; [constructor|].
  destruct (f k); auto. constructor; auto.
  apply Forall_forall. intros x Hx. apply filter_In in Hx.
  rewrite Forall_forall in Hall. apply Hall. tauto.
Qed.

Lemma obj_keys_app o1 o2 : obj_keys (o1 ++ o2) = obj_keys o1 ++ obj_keys o2.
Proof. apply map_app. Qed.

Lemma obj_keys_insert_in o n k v x :
  In x (obj_keys (obj_insert_index o n k v)) <-> x = k \/ In x (obj_keys o).
Proof.
  induction o as [|[k' v'] o IH]; simpl.
  - intuition.
  - destruct (array_index k') as [m|]; [destruct (m <? n)%N|]; simpl;
      try rewrite IH; intuition.
Qed.

Lemma obj_keys_set_in o k v x :
  In x (obj_keys (obj_set o k v)) <-> x = k \/ In x (obj_keys o).
Proof.
  unfold obj_set. destruct (obj_has o k) eqn:E.
  - rewrite obj_keys_update. apply obj_has_true_iff in E.
    split; [tauto | intros [->|H]; auto].
  - destruct (array_index k).
    + apply obj_keys_insert_in.
    + rewrite obj_keys_app, in_app_iff. simpl. intuition.
Qed.

Lemma keys_ordered_insert o n k v :
  array_index k = Some n -> ~ In k (obj_keys o) ->
  keys_ordered (obj_keys o) ->
  keys_ordered (obj_keys (obj_insert_index o n k v)).
Proof.
  intros Hk. induction o as [|[k' v'] o IH]; simpl; intros Hnot Hord.
  - constructor; constructor.
  - inversion Hord as [|? ? Hall Hord']. subst.
    assert (Hne : k' <> k) by tauto.
    assert (Hnot' : ~ In k (obj_keys o)) by tauto.
    destruct (array_index k') as [m|] eqn:Hm.
    + destruct (N.ltb_spec m n); simpl.
      * constructor; auto.
        apply Forall_forall. intros x Hx. apply obj_keys_insert_in in Hx.
        destruct Hx as [->|Hx].
        -- unfold key_before. rewrite Hm, Hk. assumption.
        -- rewrite Forall_forall in Hall. auto.
      * assert (Hkk' : key_before k k').
        { unfold key_before. rewrite Hm, Hk.
          assert (m <> n); [|lia].
          intros ->. apply Hne. eapply array_index_inj; eauto. }
        constructor; [|constructor; auto].
        constructor; auto.
        apply Forall_forall. intros x Hx. rewrite Forall_forall in Hall.
        eapply key_before_trans; eauto.
    + assert (Hkk' : key_before k k').
      { apply key_before_plain. assumption. }
      simpl. constructor; [|constructor; auto].
      constructor; auto.
      apply Forall_forall. intros x Hx. rewrite Forall_forall in Hall.
      eapply key_before_trans; eauto.
Qed.

Lemma NoDup_insert o n k v :
  ~ In k (obj_keys o) -> NoDup (obj_keys o) ->
  NoDup (obj_keys (obj_insert_index o n k v)).
Proof.
  induction o as [|[k' v'] o IH]; simpl; intros Hnot Hnd.
  - constructor; [tauto | constructor].
  - inversion Hnd as [|? ? Hn Hnd']. subst.
    destruct (array_index k') as [m|]; [destruct (m <? n)%N|]; simpl.
    + constructor.
      * rewrite obj_keys_insert_in. intuition.
      * apply IH; tauto.
    + constructor; [simpl; tauto | assumption].
    + constructor; [simpl; tauto | assumption].
Qed.

Lemma obj_set_wf o k v : obj_wf o -> obj_wf (obj_set o k v).
Proof.
  unfold obj_wf, obj_set. intros [Hnd Hord].
  destruct (obj_has o k) eqn:E.
  - rewrite obj_keys_update. auto.
  - apply obj_has_false_iff in E.
    destruct (array_index k) as [n|] eqn:Hk.
    + split; [apply NoDup_insert | apply keys_ordered_insert]; auto.
    + rewrite obj_keys_app. simpl. split.
      * apply NoDup_app. repeat split; auto.
        -- constructor; [tauto | constructor].
        -- intros x Hx [<-|[]]. contradiction.
      * apply keys_ordered_app. repeat split; auto.
        -- constructor; constructor.
        -- intros a b _ [<-|[]]. apply key_before_plain. assumption.
Qed.

Lemma obj_wf_nil : obj_wf (@nil (string * A)).
Proof. split; constructor. Qed.

(** A new array index goes to the front of keys that do not come before
    it, and to the end of keys that all do. *)
Lemma obj_insert_index_front o n k v :
  match o with
  | [] => True
  | (k', _) :: _ =>
      match array_index k' with Some m => (n <= m)%N | None => True end
  end ->
  obj_insert_index o n k v = (k, v) :: o.
Proof.
  destruct o as [|[k' v'] o]; simpl; auto.
  destruct (array_index k') as [m|]; auto.
  intros H. destruct (N.ltb_spec m n); [lia | reflexivity].
Qed.

Lemma obj_insert_index_back o n k v :
  array_index k = Some n ->
  Forall (fun x => key_before x k) (obj_keys o) ->
  obj_insert_index o n k v = o ++ [(k, v)].
Proof.
  intros Hk. induction o as [|[k' v'] o IH]; simpl; intros H; auto.
  inversion H as [|? ? Hb Hall]. subst.
  unfold key_before in Hb. rewrite Hk in Hb.
  destruct (array_index k') as [m|]; [|contradiction].
  destruct (N.ltb_spec m n); [|lia].
  rewrite IH; auto.
Qed.

(** An object that is assigned, in order, the entries of an object. *)
Lemma obj_assign_app_wf o l :
  obj_wf (o ++ l) -> obj_assign o l = o ++ l.
Proof.
  revert o. induction l as [|[k v] l IH]; simpl; intros o H.
  - symmetry. apply app_nil_r.
  - assert (Hstep : obj_set o k v = o ++ [(k, v)]).
    { destruct H as [Hnd Hord]. rewrite obj_keys_app in Hnd, Hord.
      simpl in Hnd, Hord.
      apply NoDup_remove_2 in Hnd.
      apply keys_ordered_app in Hord. destruct Hord as (_ & _ & H3).
      unfold obj_set.
      assert (E : obj_has o k = false).
      { apply obj_has_false_iff. intros Hin. apply Hnd.
        apply in_or_app. auto. }
      rewrite E. destruct (array_index k) as [n|] eqn:Hk; auto.
      apply obj_insert_index_back; auto.
      apply Forall_forall. intros x Hx. apply H3; simpl; auto. }
    rewrite Hstep. rewrite IH.
    + rewrite <- app_assoc. reflexivity.
    + rewrite <- app_assoc. exact H.
Qed.

Lemma obj_assign_nil_wf l : obj_wf l -> obj_assign [] l = l.
Proof. intros H. apply (obj_assign_app_wf [] l). exact H. Qed.

Lemma obj_assign_app o l1 l2 :
  obj_assign o (l1 ++ l2) = obj_assign (obj_assign o l1) l2.
Proof. apply fold_left_app. Qed.

(** *** The entries whose key satisfies a test *)

Lemma obj_keys_keep P o : obj_keys (keep P o) = filter P (obj_keys o).
Proof.
  induction o as [|[k v] o IH]; simpl; auto.
  destruct (P k); simpl; congruence.
Qed.

Lemma obj_get_keep P o k :
  P k = true -> obj_get (keep P o) k = obj_get o k.
Proof.
  intros HP. induction o as [|[k' v'] o IH]; simpl; auto.
  destruct (P k') eqn:E; simpl.
  - rewrite IH. reflexivity.
  - destruct (String.eqb_spec k' k); [congruence | exact IH].
Qed.

Lemma keep_update P o k v :
  keep P (obj_update o k v) =
  if P k then obj_update (keep P o) k v else keep P o.
Proof.
  induction o as [|[k' v'] o IH]; simpl.
  - destruct (P k); reflexivity.
  - destruct (String.eqb_spec k' k); simpl.
    + subst. destruct (P k) eqn:E; simpl; auto.
      rewrite String.eqb_refl. reflexivity.
    + rewrite IH. destruct (P k'), (P k); simpl; auto.
      destruct (String.eqb_spec k' k); [contradiction | reflexivity].
Qed.

Lemma keep_insert_out P o n k v :
  P k = false -> keep P (obj_insert_index o n k v) = keep P o.
Proof.
  intros HP. induction o as [|[k' v'] o IH]; simpl.
  - rewrite HP. reflexivity.
  - destruct (array_index k') as [m|]; [destruct (m <? n)%N|]; simpl;
      rewrite ?HP, ?IH; reflexivity.
Qed.

Lemma keep_cons P o k v :
  keep P ((k, v) :: o) = if P k then (k, v) :: keep P o else keep P o.
Proof. reflexivity. Qed.

Lemma keep_insert_front P o n k v :
  Forall (fun x => match array_index x with
                   | Some m => (n <= m)%N
                   | None => True
                   end) (obj_keys o) ->
  obj_insert_index (keep P o) n k v = (k, v) :: keep P o.
Proof.
  intros Hall. apply obj_insert_index_front.
  destruct (keep P o) as [|[x vx] r] eqn:Ekeep; auto.
  assert (Hin : In x (obj_keys (keep P o))).
  { rewrite Ekeep. simpl. auto. }
  rewrite obj_keys_keep in Hin. apply filter_In in Hin.
  rewrite Forall_forall in Hall. apply (Hall x). tauto.
Qed.

Lemma keep_insert_in P o n k v :
  P k = true -> keys_ordered (obj_keys o) ->
  keep P (obj_insert_index o n k v) = obj_insert_index (keep P o) n k v.
Proof.
  intros HP. induction o as [|[k' v'] o IH]; intros Hord.
  - simpl. rewrite HP. reflexivity.
  - simpl in Hord. inversion Hord as [|? ? Hall Hord']. subst.
    assert (Hfront :
      match array_index k' with Some m => (n <= m)%N | None => True end ->
      keep P ((k, v) :: (k', v') :: o) =
      obj_insert_index (keep P ((k', v') :: o)) n k v).
    { intros Hk'. rewrite keep_insert_front.
      - rewrite keep_cons, HP. reflexivity.
      - simpl. constructor; auto.
        apply Forall_forall. intros x Hx.
        rewrite Forall_forall in Hall. specialize (Hall x Hx).
        unfold key_before in Hall.
        destruct (array_index k') as [m|], (array_index x) as [p|];
          try tauto; lia. }
    simpl obj_insert_index.
    destruct (array_index k') as [m|] eqn:Hm.
    + destruct (N.ltb_spec m n).
      * rewrite !keep_cons. destruct (P k').
        -- simpl. rewrite Hm. destruct (N.ltb_spec m n); [|lia].
           rewrite IH; auto.
        -- apply IH; auto.
      * apply Hfront. assumption.
    + apply Hfront. exact I.
Qed.

Lemma keep_app P o1 o2 : keep P (o1 ++ o2) = keep P o1 ++ keep P o2.
Proof. apply filter_app. Qed.

Lemma obj_has_keep P o k :
  P k = true -> obj_has (keep P o) k = obj_has o k.
Proof. intros H. unfold obj_has. rewrite obj_get_keep; auto. Qed.

Lemma keep_set P o k v :
  keys_ordered (obj_keys o) ->
  keep P (obj_set o k v) =
  if P k then obj_set (keep P o) k v else keep P o.
Proof.
  intros Hord. unfold obj_set at 1. destruct (obj_has o k) eqn:E.
  - rewrite keep_update. destruct (P k) eqn:HP; auto.
    unfold obj_set. rewrite obj_has_keep, E; auto.
  - destruct (array_index k) as [n|] eqn:Hk.
    + destruct (P k) eqn:HP.
      * rewrite keep_insert_in; auto.
        unfold obj_set. rewrite obj_has_keep, E, Hk; auto.
      * apply keep_insert_out. exact HP.
    + rewrite keep_app. simpl. destruct (P k) eqn:HP.
      * unfold obj_set. rewrite obj_has_keep, E, Hk; auto.
      * apply app_nil_r.
Qed.

Lemma keep_assign P o l :
  keys_ordered (obj_keys o) ->
  keep P (obj_assign o l) = obj_assign (keep P o) (keep P l).
Proof.
  revert o. induction l as [|[k v] l IH]; simpl; intros o Hord; auto.
  rewrite IH.
  - rewrite keep_set; auto. destruct (P k); reflexivity.
  - destruct (obj_has o k) eqn:E; unfold obj_set; rewrite E.
    + rewrite obj_keys_update. exact Hord.
    + apply obj_has_false_iff in E. destruct (array_index k) as [n|] eqn:Hk.
      * apply keys_ordered_insert; auto.
      * rewrite obj_keys_app. apply keys_ordered_app. repeat split; auto.
        -- constructor; constructor.
        -- intros a b _ [<-|[]]. apply key_before_plain. assumption.
Qed.

Lemma obj_get_assign_other o l k :
  ~ In k (obj_keys l) -> obj_get (obj_assign o l) k = obj_get o k.
Proof.
  revert o. induction l as [|[k' v'] l IH]; simpl; intros o H; auto.
  rewrite IH; [|tauto]. apply obj_get_set_other. intros ->. tauto.
Qed.

Lemma obj_get_assign_in o l k v :
  NoDup (obj_keys l) -> In (k, v) l -> obj_get (obj_assign o l) k = Some v.
Proof.
  revert o. induction l as [|[k' v'] l IH]; simpl; intros o Hnd Hin; [tauto|].
  inversion Hnd as [|? ? Hnot Hnd']. subst. destruct Hin as [Heq|Hin].
  - inversion Heq. subst. rewrite obj_get_assign_other; auto.
    apply obj_get_set_same.
  - apply IH; auto.
Qed.

Lemma obj_assign_wf o l : obj_wf o -> obj_wf (obj_assign o l).
Proof.
  revert o. induction l as [|[k v] l IH]; simpl; intros o H; auto.
  apply IH. apply obj_set_wf. exact H.
Qed.

(** The entries of an object after an assignment are the one assigned and
    entries that were there. *)
Lemma obj_update_in o k v kv :
  In kv (obj_update o k v) -> kv = (k, v) \/ In kv o.
Proof.
  induction o as [|[k' v'] o IH]; simpl; [tauto|].
  destruct (String.eqb_spec k' k); simpl.
  - subst. intuition.
  - intros [H|H]; auto. destruct (IH H); auto.
Qed.

Lemma obj_insert_index_in o n k v kv :
  In kv (obj_insert_index o n k v) -> kv = (k, v) \/ In kv o.
Proof.
  induction o as [|[k' v'] o IH]; simpl.
  - intuition.
  - destruct (array_index k') as [m|]; [destruct (m <? n)%N|]; simpl;
      intuition.
Qed.

Lemma obj_set_in o k v kv :
  In kv (obj_set o k v) -> kv = (k, v) \/ In kv o.
Proof.
  unfold obj_set. destruct (obj_has o k).
  - apply obj_update_in.
  - destruct (array_index k).
    + apply obj_insert_index_in.
    + intros H. apply in_app_or in H. simpl in H. intuition.
Qed.

Lemma obj_assign_in o l kv :
  In kv (obj_assign o l) -> In kv o \/ In kv l.
Proof.
  revert o. induction l as [|[k v] l IH]; simpl; intros o H; auto.
  destruct (IH _ H) as [H1|H1]; auto.
  destruct (obj_set_in _ _ _ _ H1); auto.
Qed.

(** *** Assignment on an object that inherits from [Object.prototype] *)

Lemma inherited_proto : inherited "__proto__" = true.
Proof. reflexivity. Qed.

Lemma not_inherited_not_proto k : inherited k = false -> k <> "__proto__".
Proof. intros H ->. discriminate. Qed.

Lemma obj_put_plain o k v : k <> "__proto__" -> obj_put o k v = obj_set o k v.
Proof.
  intros H. unfold obj_put.
  destruct (String.eqb_spec k "__proto__"); [contradiction|].
  rewrite andb_false_r. reflexivity.
Qed.

Lemma obj_put_proto o v :
  obj_has o "__proto__" = false -> obj_put o "__proto__" v = o.
Proof. intros H. unfold obj_put. rewrite H. reflexivity. Qed.

Lemma obj_has_set_other o k k' v :
  k' <> k -> obj_has (obj_set o k v) k' = obj_has o k'.
Proof. intros H. unfold obj_has. rewrite obj_get_set_other; auto. Qed.

Lemma keep_all (P : string -> bool) l :
  (forall k, In k (obj_keys l) -> P k = true) -> keep P l = l.
Proof.
  induction l as [|[k v] l IH]; simpl; intros H; auto.
  rewrite (H k) by auto. f_equal. apply IH. auto.
Qed.

Lemma obj_keys_storable l :
  obj_keys (storable l) =
  filter (fun k => negb (String.eqb k "__proto__")) (obj_keys l).
Proof. apply obj_keys_keep. Qed.

Lemma storable_app l1 l2 : storable (l1 ++ l2) = storable l1 ++ storable l2.
Proof. apply keep_app. Qed.

Lemma storable_in kv l :
  In kv (storable l) <-> In kv l /\ fst kv <> "__proto__".
Proof.
  unfold storable, keep. rewrite filter_In, negb_true_iff.
  destruct (String.eqb_spec (fst kv) "__proto__"); intuition congruence.
Qed.

(** On an object without an own [__proto__], the assignments store the
    entries of the other keys. *)
Lemma obj_put_all_storable l :
  forall o,
    obj_has o "__proto__" = false ->
    obj_put_all o l = obj_assign o (storable l).
Proof.
  induction l as [|[k v] l IH]; intros o Ho; [reflexivity|].
  unfold obj_put_all, storable, keep in *. simpl.
  destruct (String.eqb_spec k "__proto__") as [->|Hne]; simpl.
  - rewrite obj_put_proto by exact Ho. apply IH. exact Ho.
  - rewrite obj_put_plain by exact Hne. apply IH.
    rewrite obj_has_set_other; auto.
Qed.

Lemma obj_put_all_nil l : obj_put_all [] l = obj_assign [] (storable l).
Proof. apply obj_put_all_storable. reflexivity. Qed.

Lemma obj_has_assign o l k :
  obj_has (obj_assign o l) k = (obj_has o k || obj_has l k)%bool.
Proof.
  revert o. induction l as [|[k' v'] l IH]; intros o.
  - simpl. rewrite orb_false_r. reflexivity.
  - change (obj_assign o ((k', v') :: l)) with
      (obj_assign (obj_set o k' v') l).
    rewrite IH. destruct (String.eqb_spec k' k) as [->|Hne].
    + unfold obj_has. simpl. rewrite obj_get_set_same, String.eqb_refl.
      destruct (obj_get o k); reflexivity.
    + rewrite obj_has_set_other by congruence.
      unfold obj_has. simpl.
      destruct (String.eqb_spec k' k); [contradiction | reflexivity].
Qed.

End ObjFacts.
End JsFacts.

(* ================================================================== *)
(** ** Facts about sync-structure.mjs *)
(* ================================================================== *)

Module SyncFacts.
Import Js Yaml SyncStructure JsFacts.

(** *** Well-formed documents *)

Lemma wf_arr (l : list value) : wf (JArr l) <-> Forall wf l.
Proof.
  simpl. induction l as [|x l IH].
  - split; auto.
  - rewrite IH. split.
    + intros [H1 H2]. constructor; auto.
    + intros H. inversion H. auto.
Qed.

Lemma wf_obj (o : obj value) :
  wf (JObj o) <-> obj_wf o /\ Forall (fun kv => wf (snd kv)) o.
Proof.
  simpl. apply and_iff_compat_l. induction o as [|x o IH].
  - split; auto.
  - rewrite IH. split.
    + intros [H1 H2]. constructor; auto.
    + intros H. inversion H. auto.
Qed.

Lemma wfb_sound (v : value) : wfb v = true -> wf v.
Proof.
  induction v as [| | | | |l IH|o IH] using value_tree_ind;
    try (intros; exact I).
  - intros H. apply wf_arr. simpl in H. rewrite forallb_forall in H.
    rewrite Forall_forall in *. auto.
  - intros H. apply wf_obj. simpl in H. apply andb_prop in H.
    destruct H as [H1 H2]. split.
    + apply obj_wfb_sound. exact H1.
    + rewrite forallb_forall in H2. rewrite Forall_forall in *. auto.
Qed.

Lemma wf_obj_get (o : obj value) (k : string) (c : value) :
  wf (JObj o) -> obj_get o k = Some c -> wf c.
Proof.
  intros H Hg. apply wf_obj in H. destruct H as [_ H].
  rewrite Forall_forall in H. apply obj_get_some_in in Hg.
  apply (H (k, c)). exact Hg.
Qed.

Lemma wf_opt_obj_get (o : obj value) (k : string) :
  wf (JObj o) -> wf_opt (obj_get o k).
Proof.
  intros H. destruct (obj_get o k) eqn:E; simpl; auto.
  eapply wf_obj_get; eauto.
Qed.

Lemma wf_target_object (t : option value) :
  wf_opt t -> wf (JObj (target_object t)).
Proof.
  destruct t as [[| | | | |l|o]|]; simpl; intros H;
    try (split; [apply obj_wf_nil | exact I]).
  exact H.
Qed.

Lemma wf_target_array (t : option value) :
  wf_opt t -> Forall wf (target_array t).
Proof.
  destruct t as [[| | | | |l|o]|]; simpl; intros H; try constructor.
  apply wf_arr. exact H.
Qed.

(** *** Reports *)

Lemma stats_app_nil_l (s : stats) : stats_app no_stats s = s.
Proof. destruct s. reflexivity. Qed.

Lemma stats_app_nil_r (s : stats) : stats_app s no_stats = s.
Proof. destruct s. unfold stats_app. simpl. rewrite !app_nil_r. reflexivity. Qed.

Lemma stats_app_assoc (s1 s2 s3 : stats) :
  stats_app s1 (stats_app s2 s3) = stats_app (stats_app s1 s2) s3.
Proof. unfold stats_app. simpl. rewrite !app_assoc. reflexivity. Qed.

Lemma push_missing_app (s : stats) (p : string) :
  push_missing s p = stats_app s (Stats [p] []).
Proof. unfold push_missing, stats_app. simpl. rewrite app_nil_r. reflexivity. Qed.

Lemma push_extra_app (s : stats) (p : string) :
  push_extra s p = stats_app s (Stats [] [p]).
Proof. unfold push_extra, stats_app. simpl. rewrite app_nil_r. reflexivity. Qed.

Section Merge.
Variable mode : string.

Lemma merged_leaf (r : value) (t : option value) :
  isContainer r = false ->
  merged mode r t = match t with Some v => v | None => missingLeaf mode r end.
Proof.
  unfold SyncStructure.merged.
  destruct r; try discriminate; destruct t; reflexivity.
Qed.

Lemma fill_missing_acc (r : value) (p : string) (st : stats) :
  accumulates mode r ->
  fill_missing mode (reorderLike mode) r p st =
  (merged mode r None, stats_app st (fill_report mode r p)).
Proof.
  intros Hr. unfold fill_report, fill_missing.
  destruct (isContainer r) eqn:E.
  - rewrite (Hr None p st), (Hr None p no_stats). simpl.
    rewrite !push_missing_app, stats_app_nil_l, stats_app_assoc. reflexivity.
  - simpl. rewrite merged_leaf by assumption.
    rewrite !push_missing_app, stats_app_nil_l. reflexivity.
Qed.

Lemma merge_present_acc (r t : value) (p : string) (st : stats) :
  accumulates mode r ->
  merge_present (reorderLike mode) r t p st =
  (merged mode r (Some t), stats_app st (present_report mode r t p)).
Proof.
  intros Hr. unfold present_report, merge_present.
  destruct (isContainer r) eqn:E.
  - rewrite (Hr (Some t) p st), (Hr (Some t) p no_stats). simpl.
    rewrite stats_app_nil_l. reflexivity.
  - simpl. rewrite merged_leaf by assumption.
    rewrite stats_app_nil_r. reflexivity.
Qed.

Lemma array_extra_acc (kp : string) (tgts : list value) (i : nat)
  (st : stats) :
  array_extra kp tgts i st =
  (tgts, stats_app st (snd (array_extra kp tgts i no_stats))).
Proof.
  revert i st. induction tgts as [|t tgts IH]; intros i st; simpl.
  - rewrite stats_app_nil_r. reflexivity.
  - rewrite (IH (S i) (push_extra st _)), (IH (S i) (push_extra no_stats _)).
    simpl. rewrite !push_extra_app, stats_app_nil_l, stats_app_assoc.
    reflexivity.
Qed.

Lemma array_loop_acc (kp : string) (refs : list value) :
  Forall (accumulates mode) refs ->
  forall tgts i st,
    array_loop mode (reorderLike mode) kp refs tgts i st =
    (zip_elements (merged mode) refs tgts,
     stats_app st (array_report mode kp refs tgts i)).
Proof.
  unfold array_report.
  induction 1 as [|r refs Hr Hrefs IH]; intros tgts i st.
  - simpl. apply array_extra_acc.
  - destruct tgts as [|t tgts]; simpl.
    + rewrite (fill_missing_acc _ st Hr), (fill_missing_acc _ no_stats Hr).
      rewrite (IH [] (S i) (stats_app st _)), (IH [] (S i) (stats_app no_stats _)).
      simpl. rewrite stats_app_nil_l, stats_app_assoc. reflexivity.
    + rewrite (merge_present_acc _ _ st Hr), (merge_present_acc _ _ no_stats Hr).
      rewrite (IH tgts (S i) (stats_app st _)),
        (IH tgts (S i) (stats_app no_stats _)).
      simpl. rewrite stats_app_nil_l, stats_app_assoc. reflexivity.
Qed.

Lemma entry_acc (kp : string) (tgtObj : obj value) (k : string) (r : value)
  (st : stats) :
  accumulates mode r ->
  match target_value tgtObj k with
  | None => fill_missing mode (reorderLike mode) r (key_path kp k) st
  | Some tgtVal => merge_present (reorderLike mode) r tgtVal (key_path kp k) st
  end =
  (merged mode r (target_value tgtObj k),
   stats_app st (entry_report mode kp tgtObj k r)).
Proof.
  intros Hr. unfold entry_report. destruct (target_value tgtObj k).
  - apply merge_present_acc. exact Hr.
  - apply fill_missing_acc. exact Hr.
Qed.

Lemma ref_keys_loop_acc (kp : string) (tgtObj refs : obj value) :
  Forall (fun kv => accumulates mode (snd kv)) refs ->
  forall out st,
    ref_keys_loop mode (reorderLike mode) kp tgtObj refs out st =
    (obj_put_all out (ref_entries mode tgtObj refs),
     stats_app st (ref_keys_report mode kp tgtObj refs)).
Proof.
  unfold ref_keys_report.
  induction 1 as [|[k r] refs Hr Hrefs IH]; intros out st.
  - simpl. rewrite stats_app_nil_r. reflexivity.
  - simpl in Hr. simpl.
    rewrite (entry_acc kp tgtObj k st Hr), (entry_acc kp tgtObj k no_stats Hr).
    rewrite (IH _ (stats_app st _)), (IH _ (stats_app no_stats _)).
    simpl. rewrite stats_app_nil_l, stats_app_assoc. reflexivity.
Qed.

Lemma target_only_loop_acc (kp : string) (refObj tgts : obj value) :
  forall out st,
    target_only_loop kp refObj tgts out st =
    (obj_put_all out (target_only refObj tgts),
     stats_app st
       (Stats [] (map (key_path kp) (obj_keys (target_only refObj tgts))))).
Proof.
  induction tgts as [|[k t] tgts IH]; intros out st; simpl.
  - rewrite stats_app_nil_r. reflexivity.
  - unfold target_only. simpl. destruct (obj_in refObj k); simpl.
    + apply IH.
    + unfold target_only in IH. rewrite IH, push_extra_app, <- stats_app_assoc.
      reflexivity.
Qed.

Lemma reorderLike_acc (r : value) : accumulates mode r.
Proof.
  induction r as [| | | | |l IH|o IH] using value_tree_ind;
    try (intros [t|] p st; unfold SyncStructure.merged, SyncStructure.report;
         simpl; rewrite ?stats_app_nil_r, ?push_missing_app, ?stats_app_nil_l;
         reflexivity).
  - intros t p st. unfold SyncStructure.merged, SyncStructure.report. simpl.
    rewrite !(array_loop_acc _ IH). simpl.
    rewrite stats_app_nil_l. reflexivity.
  - intros t p st. unfold SyncStructure.merged, SyncStructure.report. simpl.
    rewrite !(ref_keys_loop_acc _ _ IH). rewrite !target_only_loop_acc.
    simpl. rewrite !stats_app_nil_l, stats_app_assoc. reflexivity.
Qed.

Lemma fst_reorderLike (r : value) (t : option value) (p : string)
  (st : stats) :
  fst (reorderLike mode r t p st) = merged mode r t.
Proof. rewrite reorderLike_acc. reflexivity. Qed.

Lemma snd_reorderLike (r : value) (t : option value) (p : string)
  (st : stats) :
  snd (reorderLike mode r t p st) = stats_app st (report mode r t p).
Proof. rewrite reorderLike_acc. reflexivity. Qed.

Lemma Forall_accumulates (l : list value) : Forall (accumulates mode) l.
Proof. apply Forall_forall. intros x _. apply reorderLike_acc. Qed.

Lemma Forall_accumulates_snd (o : obj value) :
  Forall (fun kv => accumulates mode (snd kv)) o.
Proof. apply Forall_forall. intros x _. apply reorderLike_acc. Qed.

(** *** The tree that is returned *)

Lemma merged_arr (l : list value) (t : option value) :
  merged mode (JArr l) t =
  JArr (zip_elements (merged mode) l (target_array t)).
Proof.
  unfold merged at 1. simpl.
  rewrite (array_loop_acc _ (Forall_accumulates l)). reflexivity.
Qed.

Lemma target_only_keep (refObj tgtObj : obj value) :
  target_only refObj tgtObj =
  keep (fun k => negb (obj_in refObj k)) tgtObj.
Proof. reflexivity. Qed.

Lemma target_only_key (refObj tgtObj : obj value) (k : string) :
  In k (obj_keys (target_only refObj tgtObj)) <->
  In k (obj_keys tgtObj) /\ obj_has refObj k = false /\ inherited k = false.
Proof.
  rewrite target_only_keep, obj_keys_keep, filter_In, negb_true_iff.
  unfold obj_in. rewrite orb_false_iff. tauto.
Qed.

Lemma storable_target_only (refObj tgtObj : obj value) :
  storable (target_only refObj tgtObj) = target_only refObj tgtObj.
Proof.
  apply keep_all. intros k Hk. apply target_only_key in Hk.
  destruct Hk as (_ & _ & Hk). apply negb_true_iff.
  destruct (String.eqb_spec k "__proto__") as [->|]; [discriminate|].
  reflexivity.
Qed.

(** The object that is returned has the entries of the two loops, but
    for [__proto__], which no assignment stores. *)
Lemma merged_obj (o : obj value) (t : option value) :
  merged mode (JObj o) t =
  JObj (obj_assign []
          (storable (ref_entries mode (target_object t) o) ++
           target_only o (target_object t))).
Proof.
  unfold merged at 1. simpl.
  rewrite (ref_keys_loop_acc _ _ (Forall_accumulates_snd o)).
  rewrite target_only_loop_acc. simpl.
  unfold obj_put_all. rewrite <- fold_left_app.
  change (fold_left (fun acc kv => obj_put acc (fst kv) (snd kv))
            (ref_entries mode (target_object t) o ++
             target_only o (target_object t)) [])
    with (obj_put_all []
            (ref_entries mode (target_object t) o ++
             target_only o (target_object t))).
  rewrite obj_put_all_nil, storable_app, storable_target_only.
  reflexivity.
Qed.

(** *** The report *)

Lemma report_arr (l : list value) (t : option value) (p : string) :
  report mode (JArr l) t p = array_report mode p l (target_array t) 0.
Proof.
  unfold report. simpl.
  rewrite (array_loop_acc _ (Forall_accumulates l)). simpl.
  apply stats_app_nil_l.
Qed.

Lemma report_obj (o : obj value) (t : option value) (p : string) :
  report mode (JObj o) t p =
  stats_app (ref_keys_report mode p (target_object t) o)
    (Stats [] (map (key_path p)
                 (obj_keys (target_only o (target_object t))))).
Proof.
  unfold report. simpl.
  rewrite (ref_keys_loop_acc _ _ (Forall_accumulates_snd o)).
  rewrite target_only_loop_acc. simpl.
  rewrite stats_app_nil_l. reflexivity.
Qed.

Lemma fill_report_eq (r : value) (p : string) :
  fill_report mode r p =
  stats_app (if isContainer r then report mode r None p else no_stats)
    (Stats [p] []).
Proof.
  unfold fill_report, fill_missing. destruct (isContainer r).
  - rewrite reorderLike_acc. simpl.
    rewrite push_missing_app, stats_app_nil_l. reflexivity.
  - reflexivity.
Qed.

Lemma present_report_eq (r t : value) (p : string) :
  present_report mode r t p =
  if isContainer r then report mode r (Some t) p else no_stats.
Proof.
  unfold present_report, merge_present. destruct (isContainer r).
  - rewrite reorderLike_acc. simpl. apply stats_app_nil_l.
  - reflexivity.
Qed.

Lemma array_report_nil (kp : string) (tgts : list value) (i : nat) :
  array_report mode kp [] tgts i = snd (array_extra kp tgts i no_stats).
Proof. reflexivity. Qed.

Lemma array_report_missing (kp : string) (r : value) (refs : list value)
  (i : nat) :
  array_report mode kp (r :: refs) [] i =
  stats_app (fill_report mode r (index_path kp i))
    (array_report mode kp refs [] (S i)).
Proof.
  unfold array_report at 1. simpl.
  rewrite (fill_missing_acc _ _ (reorderLike_acc r)).
  rewrite (array_loop_acc _ (Forall_accumulates refs)). simpl.
  rewrite stats_app_nil_l. reflexivity.
Qed.

Lemma array_report_present (kp : string) (r t : value)
  (refs tgts : list value) (i : nat) :
  array_report mode kp (r :: refs) (t :: tgts) i =
  stats_app (present_report mode r t (index_path kp i))
    (array_report mode kp refs tgts (S i)).
Proof.
  unfold array_report at 1. simpl.
  rewrite (merge_present_acc _ _ _ (reorderLike_acc r)).
  rewrite (array_loop_acc _ (Forall_accumulates refs)). simpl.
  rewrite stats_app_nil_l. reflexivity.
Qed.

Lemma ref_keys_report_cons (kp : string) (tgtObj : obj value) (k : string)
  (r : value) (refs : obj value) :
  ref_keys_report mode kp tgtObj ((k, r) :: refs) =
  stats_app (entry_report mode kp tgtObj k r)
    (ref_keys_report mode kp tgtObj refs).
Proof.
  unfold ref_keys_report at 1. simpl.
  rewrite (entry_acc kp tgtObj k no_stats (reorderLike_acc r)).
  rewrite (ref_keys_loop_acc _ _ (Forall_accumulates_snd refs)). simpl.
  rewrite stats_app_nil_l. reflexivity.
Qed.

Lemma array_extra_missing (kp : string) (tgts : list value) (i : nat)
  (st : stats) :
  missing (snd (array_extra kp tgts i st)) = missing st.
Proof.
  revert i st. induction tgts as [|t tgts IH]; intros i st; simpl; auto.
  destruct (array_extra kp tgts (S i) (push_extra st (index_path kp i)))
    as [out st'] eqn:E.
  simpl. change st' with (snd (out, st')). rewrite <- E, IH. reflexivity.
Qed.

(** *** Positions of the merged tree *)

Lemma obj_keys_ref_entries (tgtObj refs : obj value) :
  obj_keys (ref_entries mode tgtObj refs) = obj_keys refs.
Proof.
  unfold ref_entries, obj_keys. rewrite map_map. reflexivity.
Qed.

Lemma obj_keys_target_only_out (refObj tgtObj : obj value) (k : string) :
  In k (obj_keys refObj) -> ~ In k (obj_keys (target_only refObj tgtObj)).
Proof.
  intros Hin Hk. apply target_only_key in Hk. destruct Hk as (_ & Hk & _).
  apply obj_has_true_iff in Hin. congruence.
Qed.

Lemma NoDup_storable_entries (tgtObj refs : obj value) :
  NoDup (obj_keys refs) ->
  NoDup (obj_keys (storable (ref_entries mode tgtObj refs))).
Proof.
  intros H. rewrite obj_keys_storable, obj_keys_ref_entries.
  apply NoDup_filter. exact H.
Qed.

Lemma obj_wf_storable_entries (tgtObj refs : obj value) :
  obj_wf refs -> obj_wf (storable (ref_entries mode tgtObj refs)).
Proof.
  intros [H1 H2]. split.
  - apply NoDup_storable_entries. exact H1.
  - rewrite obj_keys_storable, obj_keys_ref_entries.
    apply keys_ordered_filter. exact H2.
Qed.

(** What [tgtObj[k]] is for an own key, and for a name that is no member
    of [Object.prototype]. *)
Lemma target_value_own (to : obj value) (k : string) (v : value) :
  obj_get to k = Some v -> target_value to k = Some v.
Proof. intros H. unfold target_value. rewrite H. reflexivity. Qed.

Lemma target_value_plain (to : obj value) (k : string) :
  inherited k = false -> target_value to k = obj_get to k.
Proof.
  intros H. unfold target_value. destruct (obj_get to k); [reflexivity|].
  rewrite H. destruct (String.eqb_spec k "__proto__") as [->|]; [|reflexivity].
  discriminate.
Qed.

Lemma target_value_blank (to : obj value) (k : string) (v : value) :
  obj_get to k = None -> target_value to k = Some v ->
  target_object (Some v) = [] /\ target_array (Some v) = [] /\
  isContainer v = negb (inherited k && negb (String.eqb k "__proto__")) /\
  inherited k = true.
Proof.
  unfold target_value. intros ->.
  destruct (String.eqb k "__proto__") eqn:Hp.
  - apply String.eqb_eq in Hp. subst. intros H. inversion H. subst.
    repeat split.
  - destruct (inherited k); [|discriminate]. intros H. inversion H. subst.
    repeat split.
Qed.

Lemma wf_opt_target_value (to : obj value) (k : string) :
  wf (JObj to) -> wf_opt (target_value to k).
Proof.
  intros Hwf. unfold target_value.
  destruct (obj_get to k) as [v|] eqn:Hv.
  - simpl. eapply wf_obj_get; eassumption.
  - destruct (String.eqb k "__proto__").
    + apply wfb_sound. reflexivity.
    + destruct (inherited k); exact I.
Qed.

Lemma obj_get_merged (o to : obj value) (k : string) (c : value) :
  NoDup (obj_keys o) -> obj_get o k = Some c -> k <> "__proto__" ->
  obj_get
    (obj_assign [] (storable (ref_entries mode to o) ++ target_only o to)) k =
  Some (merged mode c (target_value to k)).
Proof.
  intros Hnd Hget Hk.
  rewrite obj_assign_app, obj_get_assign_other.
  - apply obj_get_assign_in.
    + apply NoDup_storable_entries. exact Hnd.
    + apply storable_in. split; [|exact Hk].
      apply obj_get_some_in in Hget. unfold ref_entries.
      apply (in_map (fun kv => (fst kv, merged mode (snd kv)
                                  (target_value to (fst kv))))) in Hget.
      exact Hget.
  - apply obj_keys_target_only_out. eapply obj_get_in_keys. eassumption.
Qed.

Lemma merged_obj_get (o : obj value) (t : option value) (k : string)
  (c : value) :
  NoDup (obj_keys o) -> obj_get o k = Some c -> k <> "__proto__" ->
  exists out,
    merged mode (JObj o) t = JObj out /\
    obj_get out k = Some (merged mode c (target_value (target_object t) k)).
Proof.
  intros Hnd Hget Hk. rewrite merged_obj. eexists. split; [reflexivity|].
  apply obj_get_merged; assumption.
Qed.

Lemma nth_error_zip_elements (f : value -> option value -> value)
  (refs tgts : list value) (i : nat) :
  nth_error (zip_elements f refs tgts) i =
  match nth_error refs i with
  | Some r => Some (f r (nth_error tgts i))
  | None => nth_error tgts i
  end.
Proof.
  revert tgts i. induction refs as [|r refs IH]; intros tgts i.
  - simpl. destruct i; reflexivity.
  - destruct tgts as [|t tgts]; destruct i as [|i]; simpl; auto.
    rewrite IH. destruct (nth_error refs i); destruct i; reflexivity.
Qed.

Lemma lookup_merged_present (p : list step) :
  forall ref tgt r t,
    wf ref -> no_proto_path p = true ->
    lookup ref p = Some r -> isLeaf r = true ->
    lookup tgt p = Some t ->
    lookup (merged mode ref (Some tgt)) p = Some t.
Proof.
  induction p as [|[k|i] p IH]; intros ref tgt r t Hwf Hp Hr Hleaf Ht.
  - simpl in *. inversion Hr. inversion Ht. subst.
    rewrite merged_leaf; auto.
    unfold isLeaf in Hleaf. apply negb_true_iff in Hleaf. exact Hleaf.
  - simpl in Hr, Ht, Hp. apply andb_true_iff in Hp. destruct Hp as [Hk Hp].
    apply negb_true_iff, String.eqb_neq in Hk.
    destruct ref as [| | | | |l|o]; try discriminate.
    destruct tgt as [| | | | |tl|to]; try discriminate.
    destruct (obj_get o k) as [c|] eqn:Hc; [|discriminate].
    destruct (obj_get to k) as [tc|] eqn:Htc; [|discriminate].
    assert (Hnd : NoDup (obj_keys o)).
    { apply wf_obj in Hwf. destruct Hwf as [[H _] _]. exact H. }
    destruct (@merged_obj_get o (Some (JObj to)) k c Hnd Hc Hk)
      as (out & -> & Hout).
    simpl. rewrite Hout. simpl. rewrite (target_value_own _ _ Htc).
    apply (IH c tc r t); auto. eapply wf_obj_get; eauto.
  - simpl in Hr, Ht, Hp.
    destruct ref as [| | | | |l|o]; try discriminate.
    destruct tgt as [| | | | |tl|to]; try discriminate.
    destruct (nth_error l i) as [c|] eqn:Hc; [|discriminate].
    destruct (nth_error tl i) as [tc|] eqn:Htc; [|discriminate].
    rewrite merged_arr. simpl. rewrite nth_error_zip_elements, Hc, Htc.
    apply (IH c tc r t); auto.
    apply wf_arr in Hwf. rewrite Forall_forall in Hwf. apply Hwf.
    eapply nth_error_In. eassumption.
Qed.

(** A missing subtree is a copy of the reference with its leaves replaced. *)
Lemma obj_wf_same_keys (A B : Type) (o1 : obj A) (o2 : obj B) :
  obj_keys o1 = obj_keys o2 -> obj_wf o1 -> obj_wf o2.
Proof. unfold obj_wf. intros ->. auto. Qed.

Lemma zip_elements_nil (f : value -> option value -> value)
  (refs : list value) :
  zip_elements f refs [] = map (fun r => f r None) refs.
Proof. induction refs as [|r refs IH]; simpl; congruence. Qed.

Lemma keys_all_arr (P : string -> bool) (l : list value) :
  keys_all P (JArr l) = true <-> Forall (fun v => keys_all P v = true) l.
Proof. simpl. rewrite forallb_forall, Forall_forall. tauto. Qed.

Lemma keys_all_obj (P : string -> bool) (o : obj value) :
  keys_all P (JObj o) = true <->
  Forall (fun kv => P (fst kv) = true /\ keys_all P (snd kv) = true) o.
Proof.
  simpl. rewrite forallb_forall, Forall_forall.
  split; intros H kv Hin; specialize (H kv Hin).
  - apply andb_true_iff. exact H.
  - apply andb_true_iff. exact H.
Qed.

Lemma keys_all_impl (P Q : string -> bool) (v : value) :
  (forall k, P k = true -> Q k = true) ->
  keys_all P v = true -> keys_all Q v = true.
Proof.
  intros HPQ. induction v as [| | | | |l IH|o IH] using value_tree_ind;
    try reflexivity.
  - rewrite !keys_all_arr, !Forall_forall in *. auto.
  - rewrite !keys_all_obj, !Forall_forall in *.
    intros H kv Hin. destruct (H kv Hin). auto.
Qed.

Lemma plain_keys_no_proto (v : value) :
  plain_keys v = true -> no_proto_key v = true.
Proof.
  apply keys_all_impl. intros k Hk. apply negb_true_iff in Hk.
  apply negb_true_iff, String.eqb_neq. apply not_inherited_not_proto.
  exact Hk.
Qed.

Lemma keys_all_obj_get (P : string -> bool) (o : obj value) (k : string)
  (c : value) :
  keys_all P (JObj o) = true -> obj_get o k = Some c ->
  P k = true /\ keys_all P c = true.
Proof.
  intros H Hc. apply keys_all_obj in H. rewrite Forall_forall in H.
  apply (H (k, c)). apply obj_get_some_in. exact Hc.
Qed.

Lemma keys_all_lookup (P : string -> bool) (p : list step) :
  forall v r, keys_all P v = true -> lookup v p = Some r ->
              keys_all P r = true.
Proof.
  induction p as [|[k|i] p IH]; intros v r Hv Hr; simpl in Hr.
  - inversion Hr. subst. exact Hv.
  - destruct v as [| | | | |l|o]; try discriminate.
    destruct (obj_get o k) as [c|] eqn:Hc; [|discriminate].
    apply (IH c); auto. eapply keys_all_obj_get; eassumption.
  - destruct v as [| | | | |l|o]; try discriminate.
    destruct (nth_error l i) as [c|] eqn:Hc; [|discriminate].
    apply (IH c); auto.
    apply keys_all_arr in Hv. rewrite Forall_forall in Hv. apply Hv.
    eapply nth_error_In. eassumption.
Qed.

(** The entries of a reference without [__proto__] are all stored. *)
Lemma storable_ref_entries (to o : obj value) :
  no_proto_key (JObj o) = true ->
  storable (ref_entries mode to o) = ref_entries mode to o.
Proof.
  intros H. apply keep_all. intros k Hk. rewrite obj_keys_ref_entries in Hk.
  apply keys_all_obj in H. rewrite Forall_forall in H.
  apply in_map_iff in Hk. destruct Hk as (kv & <- & Hin).
  apply (H kv Hin).
Qed.

(** A target that is neither a mapping nor a sequence counts as none. *)
Lemma reorderLike_blank_target (r : value) (t : option value) (p : string)
  (st : stats) :
  isContainer r = true -> target_object t = [] -> target_array t = [] ->
  reorderLike mode r t p st = reorderLike mode r None p st.
Proof.
  destruct r; try discriminate; intros _ Ho Ha; simpl;
    rewrite ?Ho, ?Ha; reflexivity.
Qed.

Lemma merged_none (r : value) :
  wf r -> plain_keys r = true ->
  merged mode r None = map_leaves (missingLeaf mode) r.
Proof.
  induction r as [| | | | |l IH|o IH] using value_tree_ind;
    try (intros; reflexivity).
  - intros Hwf Hpl. apply wf_arr in Hwf. apply keys_all_arr in Hpl.
    rewrite merged_arr. simpl. rewrite zip_elements_nil. f_equal.
    apply map_ext_in. intros x Hx.
    rewrite Forall_forall in IH, Hwf, Hpl. auto.
  - intros Hwf Hpl. apply wf_obj in Hwf. destruct Hwf as [Ho Hall].
    rewrite merged_obj.
    rewrite storable_ref_entries by (apply plain_keys_no_proto; exact Hpl).
    apply keys_all_obj in Hpl.
    simpl. unfold target_only. simpl.
    rewrite app_nil_r. rewrite obj_assign_nil_wf.
    + f_equal. unfold ref_entries. apply map_ext_in. intros [k v] Hx. simpl.
      rewrite Forall_forall in IH, Hall, Hpl.
      destruct (Hpl (k, v) Hx) as [Hk Hv]. simpl in Hk, Hv.
      apply negb_true_iff in Hk. rewrite target_value_plain by exact Hk.
      simpl. f_equal.
      apply (IH (k, v)); [exact Hx | apply (Hall (k, v)); exact Hx | exact Hv].
    + eapply obj_wf_same_keys; [|exact Ho].
      symmetry. apply obj_keys_ref_entries.
Qed.

Lemma lookup_merged_missing (p : list step) :
  forall ref tgt r,
    wf ref -> plain_path p = true -> plain_keys r = true ->
    lookup ref p = Some r -> lookup_opt tgt p = None ->
    lookup (merged mode ref tgt) p = Some (map_leaves (missingLeaf mode) r).
Proof.
  induction p as [|[k|i] p IH]; intros ref tgt r Hwf Hp Hpl Hr Ht.
  - destruct tgt; [discriminate|]. simpl in *. inversion Hr. subst.
    rewrite merged_none; auto.
  - simpl in Hr, Hp. apply andb_true_iff in Hp. destruct Hp as [Hk Hp].
    apply negb_true_iff in Hk.
    destruct ref as [| | | | |l|o]; try discriminate.
    destruct (obj_get o k) as [c|] eqn:Hc; [|discriminate].
    assert (Hnd : NoDup (obj_keys o)).
    { apply wf_obj in Hwf. destruct Hwf as [[H _] _]. exact H. }
    destruct (@merged_obj_get o tgt k c Hnd Hc
                (not_inherited_not_proto Hk)) as (out & -> & Hout).
    simpl. rewrite Hout, target_value_plain by exact Hk. apply IH; auto.
    + eapply wf_obj_get; eauto.
    + destruct tgt as [[| | | | |tl|to]|]; simpl in *; auto.
  - simpl in Hr, Hp. destruct ref as [| | | | |l|o]; try discriminate.
    destruct (nth_error l i) as [c|] eqn:Hc; [|discriminate].
    rewrite merged_arr. simpl. rewrite nth_error_zip_elements, Hc.
    apply IH; auto.
    + apply wf_arr in Hwf. rewrite Forall_forall in Hwf. apply Hwf.
      eapply nth_error_In. eassumption.
    + destruct tgt as [[| | | | |tl|to]|]; simpl in *; auto;
        try (destruct i; reflexivity).
Qed.

(** *** The merged tree is a document *)

Lemma zip_elements_forall (P : value -> Prop)
  (f : value -> option value -> value) (refs : list value) :
  Forall (fun r => forall t, wf_opt t -> P (f r t)) refs ->
  forall tgts,
    (forall t, In t tgts -> wf t) -> (forall t, wf t -> P t) ->
    Forall P (zip_elements f refs tgts).
Proof.
  induction 1 as [|r refs Hr Hrefs IH]; intros tgts Htgts HP; simpl.
  - apply Forall_forall. auto.
  - destruct tgts as [|t tgts]; constructor.
    + apply Hr. exact I.
    + apply IH; auto.
    + apply Hr. simpl. apply Htgts. simpl. auto.
    + apply IH; auto. intros x Hx. apply Htgts. simpl. auto.
Qed.

Lemma merged_wf (r : value) :
  wf r -> forall t, wf_opt t -> wf (merged mode r t).
Proof.
  induction r as [| | | | |l IH|o IH] using value_tree_ind;
    try (intros _ [t|] Ht; rewrite merged_leaf by reflexivity; auto;
         unfold missingLeaf;
         destruct (String.eqb mode "null"); [exact I|];
         destruct (String.eqb mode "ref"); exact I).
  - intros Hwf t Ht. apply wf_arr in Hwf. rewrite merged_arr.
    apply wf_arr. apply zip_elements_forall.
    + rewrite Forall_forall in *. auto.
    + pose proof (wf_target_array t Ht) as Hall.
      rewrite Forall_forall in Hall. exact Hall.
    + auto.
  - intros Hwf t Ht. apply wf_obj in Hwf. destruct Hwf as [Ho Hall].
    pose proof (wf_target_object t Ht) as Hto. apply wf_obj in Hto.
    destruct Hto as [Hto Htall].
    rewrite merged_obj. apply wf_obj. split.
    + apply obj_assign_wf. apply obj_wf_nil.
    + apply Forall_forall. intros kv Hin.
      apply obj_assign_in in Hin. destruct Hin as [[]|Hin].
      apply in_app_or in Hin. destruct Hin as [Hin|Hin].
      * apply storable_in in Hin. destruct Hin as [Hin _].
        unfold ref_entries in Hin. apply in_map_iff in Hin.
        destruct Hin as ([k c] & <- & Hin). simpl.
        rewrite Forall_forall in IH, Hall.
        apply (IH (k, c) Hin (Hall (k, c) Hin)).
        apply wf_opt_target_value. apply wf_obj. split; assumption.
      * apply filter_In in Hin. destruct Hin as [Hin _].
        rewrite Forall_forall in Htall. auto.
Qed.

(** *** What a missing subtree adds to the report *)

Lemma extra_stats_app (s1 s2 : stats) :
  extra (stats_app s1 s2) = extra s1 ++ extra s2.
Proof. reflexivity. Qed.

Lemma missing_stats_app (s1 s2 : stats) :
  missing (stats_app s1 s2) = missing s1 ++ missing s2.
Proof. reflexivity. Qed.

Lemma report_blank_target (r : value) (t : option value) (p : string) :
  isContainer r = true -> target_object t = [] -> target_array t = [] ->
  report mode r t p = report mode r None p.
Proof.
  intros Hc Ho Ha. unfold report.
  rewrite (reorderLike_blank_target r t p no_stats Hc Ho Ha). reflexivity.
Qed.

Lemma merged_blank_target (r : value) (t : option value) :
  isContainer r = true -> target_object t = [] -> target_array t = [] ->
  merged mode r t = merged mode r None.
Proof.
  intros Hc Ho Ha. unfold merged.
  rewrite (reorderLike_blank_target r t "" no_stats Hc Ho Ha). reflexivity.
Qed.

Lemma report_none_extra (r : value) (p : string) :
  extra (report mode r None p) = [].
Proof.
  revert p. induction r as [| | | | |l IH|o IH] using value_tree_ind;
    try (intros; reflexivity).
  - intros p. rewrite report_arr. simpl. generalize 0.
    induction IH as [|r l Hr Hl IHl]; intros i; [reflexivity|].
    rewrite array_report_missing, extra_stats_app, IHl, fill_report_eq.
    rewrite extra_stats_app. destruct (isContainer r); [rewrite Hr|];
      reflexivity.
  - intros p. rewrite report_obj, extra_stats_app. simpl.
    rewrite app_nil_r.
    induction IH as [|[k r] o Hr Ho IHo]; [reflexivity|].
    rewrite ref_keys_report_cons, extra_stats_app, IHo.
    unfold entry_report. simpl in Hr.
    destruct (target_value [] k) as [tv|] eqn:Htv.
    + rewrite present_report_eq.
      destruct (isContainer r) eqn:Hc; [|reflexivity].
      destruct (@target_value_blank [] k tv eq_refl Htv) as (Ho' & Ha' & _).
      rewrite (report_blank_target r (Some tv) _ Hc Ho' Ha'), Hr.
      reflexivity.
    + rewrite fill_report_eq, extra_stats_app.
      destruct (isContainer r); [rewrite Hr|]; reflexivity.
Qed.

Lemma ref_keys_report_missing_in (kp : string) (o : obj value) (k : string) :
  In k (obj_keys o) -> inherited k = false ->
  In (key_path kp k) (missing (ref_keys_report mode kp [] o)).
Proof.
  induction o as [|[k' r] o IH]; simpl; [tauto|].
  intros H Hk. rewrite ref_keys_report_cons, missing_stats_app.
  apply in_or_app. destruct H as [->|H].
  - left. unfold entry_report. rewrite target_value_plain by exact Hk.
    simpl.
    rewrite fill_report_eq, missing_stats_app. apply in_or_app. right.
    simpl. auto.
  - right. auto.
Qed.

(** *** A second merge *)

Lemma second_present (r : value) (t : option value) (p : string) :
  idempotent_at mode r -> wf_opt t ->
  missing (present_report mode r (merged mode r t) p) = [] /\
  extra (present_report mode r (merged mode r t) p) =
  extra (match t with
         | Some tv => present_report mode r tv p
         | None => fill_report mode r p
         end).
Proof.
  intros Hr Ht. destruct (Hr t p Ht) as (_ & Hm & He).
  rewrite present_report_eq.
  destruct t as [tv|]; rewrite ?present_report_eq, ?fill_report_eq,
    ?extra_stats_app; destruct (isContainer r); simpl; rewrite ?app_nil_r;
    auto.
Qed.

Lemma second_array (kp : string) (l : list value) :
  Forall (idempotent_at mode) l ->
  forall tl i, Forall wf tl ->
    let out := zip_elements (merged mode) l tl in
    zip_elements (merged mode) l out = out /\
    missing (array_report mode kp l out i) = [] /\
    extra (array_report mode kp l out i) =
    extra (array_report mode kp l tl i).
Proof.
  induction 1 as [|r l Hr Hl IH]; intros tl i Htl.
  - simpl. repeat split; auto.
    rewrite array_report_nil. apply array_extra_missing.
  - destruct tl as [|t tl].
    + destruct (IH [] (S i) Htl) as (H1 & H2 & H3).
      destruct (Hr None (index_path kp i) I) as (H4 & _).
      destruct (@second_present r None (index_path kp i) Hr I) as (H5 & H6).
      simpl. rewrite array_report_present, array_report_missing.
      rewrite missing_stats_app, !extra_stats_app.
      rewrite H1, H2, H3, H4, H5, H6. auto.
    + inversion Htl as [|? ? Ht Htl']. subst.
      destruct (IH tl (S i) Htl') as (H1 & H2 & H3).
      destruct (Hr (Some t) (index_path kp i) Ht) as (H4 & _).
      destruct (@second_present r (Some t) (index_path kp i) Hr Ht)
        as (H5 & H6).
      simpl. rewrite !array_report_present.
      rewrite missing_stats_app, !extra_stats_app.
      rewrite H1, H2, H3, H4, H5, H6. auto.
Qed.

Lemma keep_none (A : Type) (P : string -> bool) (l : obj A) :
  (forall k, In k (obj_keys l) -> P k = false) -> keep P l = [].
Proof.
  induction l as [|[k v] l IH]; simpl; intros H; auto.
  rewrite (H k) by auto. apply IH. auto.
Qed.

Lemma keep_keep (A : Type) (P : string -> bool) (l : obj A) :
  keep P (keep P l) = keep P l.
Proof.
  induction l as [|[k v] l IH]; simpl; auto.
  destruct (P k) eqn:E; simpl; rewrite ?E, IH; reflexivity.
Qed.

Lemma obj_wf_keep (A : Type) (P : string -> bool) (l : obj A) :
  obj_wf l -> obj_wf (keep P l).
Proof.
  unfold obj_wf. rewrite obj_keys_keep. intros [H1 H2]. split.
  - apply NoDup_filter. exact H1.
  - apply keys_ordered_filter. exact H2.
Qed.

(** The keys that only the target has are, after the merge, the keys that
    only the merged object has, in the same order. *)
Lemma target_only_merged (o to : obj value) :
  obj_wf to ->
  target_only o
    (obj_assign []
       (storable (ref_entries mode to o) ++ target_only o to)) =
  target_only o to.
Proof.
  intros Hto. rewrite !target_only_keep.
  rewrite keep_assign by constructor.
  rewrite keep_app, keep_keep.
  rewrite (@keep_none _ _ (storable (ref_entries mode to o))).
  - simpl. apply obj_assign_nil_wf. apply obj_wf_keep. exact Hto.
  - intros k Hk. rewrite obj_keys_storable in Hk. apply filter_In in Hk.
    destruct Hk as [Hk _]. rewrite obj_keys_ref_entries in Hk.
    apply obj_has_true_iff in Hk. unfold obj_in. rewrite Hk. reflexivity.
Qed.

Lemma second_ref_keys (kp : string) (to out : obj value)
  (refs : obj value) :
  wf (JObj to) ->
  Forall (fun kv =>
            idempotent_at mode (snd kv) /\
            target_value out (fst kv) =
            Some (merged mode (snd kv) (target_value to (fst kv)))) refs ->
  ref_entries mode out refs = ref_entries mode to refs /\
  missing (ref_keys_report mode kp out refs) = [] /\
  extra (ref_keys_report mode kp out refs) =
  extra (ref_keys_report mode kp to refs).
Proof.
  intros Hto. induction 1 as [|[k r] refs [Hr Hk] Hrefs IH].
  - repeat split; reflexivity.
  - simpl in Hr, Hk. destruct IH as (H1 & H2 & H3).
    pose proof (wf_opt_target_value k Hto) as Hwf.
    destruct (Hr (target_value to k) (key_path kp k) Hwf) as (H4 & _).
    destruct (@second_present r (target_value to k) (key_path kp k) Hr Hwf)
      as (H5 & H6).
    rewrite !ref_keys_report_cons, missing_stats_app, !extra_stats_app.
    unfold entry_report. rewrite Hk. simpl. rewrite Hk, H1, H2, H3, H4, H5, H6.
    repeat split; auto.
Qed.

Lemma reorderLike_idempotent_at (r : value) :
  wf r -> no_proto_key r = true -> idempotent_at mode r.
Proof.
  induction r as [| | | | |l IH|o IH] using value_tree_ind;
    try (intros _ _ [t|] p _; repeat split; reflexivity).
  - intros Hwf Hnp t p Ht. apply wf_arr in Hwf. apply keys_all_arr in Hnp.
    assert (Hl : Forall (idempotent_at mode) l).
    { rewrite Forall_forall in *. auto. }
    destruct (second_array p Hl 0 (wf_target_array t Ht)) as (H1 & H2 & H3).
    rewrite !report_arr, !merged_arr. simpl.
    rewrite H1, H2, H3. auto.
  - intros Hwf Hnp t p Ht.
    apply wf_obj in Hwf. destruct Hwf as [[Hnd Hord] Hall].
    pose proof (wf_target_object t Ht) as Hto.
    assert (Hto' : obj_wf (target_object t)).
    { apply wf_obj in Hto. tauto. }
    set (to := target_object t) in *.
    set (out := obj_assign []
                  (storable (ref_entries mode to o) ++ target_only o to)).
    pose proof Hnp as Hkeys. apply keys_all_obj in Hkeys.
    assert (Hrefs : Forall (fun kv =>
              idempotent_at mode (snd kv) /\
              target_value out (fst kv) =
              Some (merged mode (snd kv) (target_value to (fst kv)))) o).
    { rewrite Forall_forall in *. intros [k c] Hin.
      destruct (Hkeys (k, c) Hin) as [Hk Hc]. simpl in Hk, Hc |- *.
      apply negb_true_iff, String.eqb_neq in Hk. split.
      - apply (IH (k, c)); [exact Hin | apply (Hall (k, c)); exact Hin|].
        exact Hc.
      - apply target_value_own. apply obj_get_merged; auto.
        apply obj_get_of_in; auto. }
    destruct (second_ref_keys p out Hto Hrefs) as (H1 & H2 & H3).
    rewrite !report_obj, !merged_obj, missing_stats_app, !extra_stats_app.
    simpl. fold to. rewrite (target_only_merged o Hto'). fold out.
    rewrite H1, H2, H3. auto.
Qed.

Lemma wf_lookup (p : list step) :
  forall v r, wf v -> lookup v p = Some r -> wf r.
Proof.
  induction p as [|[k|i] p IH]; intros v r Hwf Hr; simpl in Hr.
  - inversion Hr. subst. exact Hwf.
  - destruct v as [| | | | |l|o]; try discriminate.
    destruct (obj_get o k) as [c|] eqn:Hc; [|discriminate].
    apply (IH c); auto. eapply wf_obj_get; eauto.
  - destruct v as [| | | | |l|o]; try discriminate.
    destruct (nth_error l i) as [c|] eqn:Hc; [|discriminate].
    apply (IH c); auto.
    apply wf_arr in Hwf. rewrite Forall_forall in Hwf. apply Hwf.
    eapply nth_error_In. eassumption.
Qed.

Lemma map_leaves_ext (f g : value -> value) (v : value) :
  (forall x, f x = g x) -> map_leaves f v = map_leaves g v.
Proof.
  intros Hfg. induction v as [| | | | |l IH|o IH] using value_tree_ind;
    simpl; auto.
  - f_equal. apply map_ext_in. rewrite Forall_forall in IH. auto.
  - f_equal. apply map_ext_in. rewrite Forall_forall in IH.
    intros kv Hkv. f_equal. auto.
Qed.

Lemma map_leaves_id (v : value) : map_leaves (fun x => x) v = v.
Proof.
  induction v as [| | | | |l IH|o IH] using value_tree_ind; simpl; auto.
  - f_equal. rewrite <- (map_id l) at 2. apply map_ext_in.
    rewrite Forall_forall in IH. auto.
  - f_equal. rewrite <- (map_id o) at 2. apply map_ext_in.
    rewrite Forall_forall in IH. intros [k v] Hkv. simpl. f_equal.
    apply (IH (k, v)). exact Hkv.
Qed.

Lemma missingLeaf_ref (leaf : value) : missingLeaf "ref" leaf = leaf.
Proof. reflexivity. Qed.

Lemma missingLeaf_null (leaf : value) : missingLeaf "null" leaf = JNull.
Proof. reflexivity. Qed.

Lemma missingLeaf_other (leaf : value) :
  mode <> "null" -> mode <> "ref" -> missingLeaf mode leaf = JStr "".
Proof.
  intros H1 H2. unfold missingLeaf.
  destruct (String.eqb_spec mode "null"); [contradiction|].
  destruct (String.eqb_spec mode "ref"); [contradiction|].
  destruct leaf; reflexivity.
Qed.

End Merge.

(** *** [createFromRef] of generate-locale.mjs *)

Lemma createFromRef_clone (mode : string) (r : value) :
  wf r ->
  GenerateLocale.createFromRef r mode =
  map_leaves (fun leaf => if String.eqb mode "ref" then leaf else JStr "") r.
Proof.
  induction r as [| | | | |l IH|o IH] using value_tree_ind;
    try (intros; reflexivity).
  - intros Hwf. apply wf_arr in Hwf. simpl. f_equal.
    apply map_ext_in. rewrite Forall_forall in IH, Hwf. auto.
  - intros Hwf. apply wf_obj in Hwf. destruct Hwf as [Ho Hall]. simpl.
    f_equal.
    set (g := fun kv : string * value =>
                (fst kv, GenerateLocale.createFromRef (snd kv) mode)).
    assert (Hloop : forall (o' out : obj value),
      (fix keys_loop (o0 out0 : obj value) {struct o0} : obj value :=
         match o0 with
         | [] => out0
         | (k, v) :: o'0 =>
             keys_loop o'0
               (obj_set out0 k (GenerateLocale.createFromRef v mode))
         end) o' out = obj_assign out (map g o')).
    { induction o' as [|[k v] o' IHo]; intros out; simpl; auto. }
    rewrite Hloop. rewrite obj_assign_nil_wf.
    + apply map_ext_in. intros [k v] Hkv. unfold g. simpl. f_equal.
      rewrite Forall_forall in IH, Hall.
      apply (IH (k, v)); [exact Hkv | apply (Hall (k, v)); exact Hkv].
    + eapply obj_wf_same_keys; [|exact Ho].
      unfold obj_keys, g. rewrite map_map. reflexivity.
Qed.

(** *** The scenarios of the design document *)

Example merge_blank_scenario :
  reorderLike "blank"
    (JObj [("greeting", JStr "Hi"); ("farewell", JStr "Bye")])
    (Some (JObj [("greeting", JStr "Salut")])) "" no_stats =
  (JObj [("greeting", JStr "Salut"); ("farewell", JStr "")],
   Stats ["farewell"] []).
Proof. reflexivity. Qed.

Example merge_extra_scenario :
  reorderLike "empty" (JObj [("a", JNum 1)])
    (Some (JObj [("a", JNum 1); ("b", JNum 2)])) "" no_stats =
  (JObj [("a", JNum 1); ("b", JNum 2)], Stats [] ["b"]).
Proof. reflexivity. Qed.

Example merge_nested_paths :
  reorderLike "ref"
    (JObj [("a", JArr [JObj [("x", JNum 1)]; JNum 2])])
    (Some (JObj [("a", JArr [])])) "" no_stats =
  (JObj [("a", JArr [JObj [("x", JNum 1)]; JNum 2])],
   Stats ["a[0].x"; "a[0]"; "a[1]"] []).
Proof. reflexivity. Qed.

(** *** The properties of the merge *)

(** Where the reference has a leaf and the target has a value at the same
    position, and no key on the way is [__proto__], the tree that
    [reorderLike] returns has the value of the target at that position,
    whatever the policy and whatever the kinds of the two values. *)
Lemma reorderLike_keeps_target_value
  (mode : string) (ref tgt : value) (keyPath : string) (st : stats)
  (p : list step) (r t : value) :
  wf ref -> no_proto_path p = true ->
  lookup ref p = Some r -> isLeaf r = true ->
  lookup tgt p = Some t ->
  lookup (fst (reorderLike mode ref (Some tgt) keyPath st)) p = Some t.
Proof.
  intros Hwf Hp Hr Hleaf Ht. rewrite fst_reorderLike.
  eapply lookup_merged_present; eauto.
Qed.

Example reorderLike_keeps_target_value_at_inherited_name :
  let ref := JObj [("a", JArr [JNum 1; JObj [("toString", JStr "x")]])] in
  let tgt := JObj [("a", JArr [JBool true; JObj [("toString", JNull)]])] in
  lookup (fst (reorderLike "ref" ref (Some tgt) "" no_stats))
    [Key "a"; Idx 1; Key "toString"] = Some JNull.
Proof.
  intros ref tgt.
  assert (Hwf : wf ref) by (apply wfb_sound; reflexivity).
  exact (@reorderLike_keeps_target_value "ref" ref tgt "" no_stats
           [Key "a"; Idx 1; Key "toString"] (JStr "x") JNull
           Hwf eq_refl eq_refl eq_refl eq_refl).
Qed.

(** C1: at the key [__proto__] the value of the target is lost.  The
    reference has a leaf there and the target a value, in mappings as
    [YAML.parse] returns them; the assignment [out[k] = tgtVal] of the first
    loop reaches the setter that [out] inherits and defines no property, so
    the tree that [reorderLike] returns has nothing at the position, and
    nothing is reported. *)
Theorem reorderLike_loses_proto_value :
  let ref := JObj [("__proto__", JStr "x")] in
  let tgt := JObj [("__proto__", JStr "y")] in
  wfb ref = true /\ wfb tgt = true /\
  lookup ref [Key "__proto__"] = Some (JStr "x") /\
  isLeaf (JStr "x") = true /\
  lookup tgt [Key "__proto__"] = Some (JStr "y") /\
  reorderLike "empty" ref (Some tgt) "" no_stats = (JObj [], no_stats) /\
  lookup (fst (reorderLike "empty" ref (Some tgt) "" no_stats))
    [Key "__proto__"] = None.
Proof. repeat split. Qed.

(** X30: merging twice with a reference that has no key [__proto__] gives
    the tree of the first merge; the second merge reports nothing missing and
    reports the extra paths of the first.  No assignment of such a merge
    reaches the setter of [__proto__], so the object that the first merge
    returns is the tree that the second is given. *)
Theorem reorderLike_idempotent_without_proto
  (mode : string) (ref tgt : value) (keyPath : string) :
  wf ref -> wf tgt -> no_proto_key ref = true ->
  let first := reorderLike mode ref (Some tgt) keyPath no_stats in
  let second := reorderLike mode ref (Some (fst first)) keyPath no_stats in
  fst second = fst first /\
  missing (snd second) = [] /\
  extra (snd second) = extra (snd first).
Proof.
  intros Href Htgt Hnp. cbv zeta.
  rewrite !fst_reorderLike, !snd_reorderLike, !stats_app_nil_l.
  apply (@reorderLike_idempotent_at mode ref Href Hnp (Some tgt) keyPath
           Htgt).
Qed.

Lemma reorderLike_idempotent_without_proto_witness :
  let ref := JObj [("7", JNum 0); ("a", JArr [JObj [("x", JNum 1)]; JNum 2]);
                   ("toString", JStr "B")] in
  let tgt := JObj [("3", JNull); ("9", JNull); ("z", JBool true);
                   ("__proto__", JObj [("valueOf", JNull)]);
                   ("a", JArr [JStr "s"; JNum 5; JNum 6])] in
  wf ref /\ wf tgt /\ no_proto_key ref = true /\
  let first := reorderLike "ref" ref (Some tgt) "" no_stats in
  let second := reorderLike "ref" ref (Some (fst first)) "" no_stats in
  fst second = fst first /\
  missing (snd second) = [] /\
  extra (snd second) = extra (snd first).
Proof.
  intros ref tgt.
  assert (Href : wf ref) by (apply wfb_sound; reflexivity).
  assert (Htgt : wf tgt) by (apply wfb_sound; reflexivity).
  split; [exact Href | split; [exact Htgt | split; [reflexivity|]]].
  exact (@reorderLike_idempotent_without_proto "ref" ref tgt "" Href Htgt
           eq_refl).
Defined.

(** C2: with the key [__proto__] in the reference the second merge reports
    a path as missing.  The first merge stores nothing for the two keys
    [__proto__]: under [a] the assignment of [null] leaves an object
    without prototype, under [b] the merged subtree becomes the prototype.
    The second merge is given the tree of own properties of the first,
    that is the document as it is written and read again, and misses
    [b.__proto__.c]; given the object in memory, it finds the key
    [__proto__] no longer in [a], and misses [a.__proto__]. *)
Theorem reorderLike_second_merge_misses_proto :
  let ref := JObj [("a", JObj [("__proto__", JStr "x")]);
                   ("b", JObj [("__proto__", JObj [("c", JNum 1)])])] in
  let tgt := JObj [("a", JObj [("__proto__", JNull)])] in
  let first := reorderLike "empty" ref (Some tgt) "" no_stats in
  let second := reorderLike "empty" ref (Some (fst first)) "" no_stats in
  wfb ref = true /\ wfb tgt = true /\
  first = (JObj [("a", JObj []); ("b", JObj [])],
           Stats ["b.__proto__.c"; "b"] []) /\
  fst second = fst first /\
  exists p, In p (missing (snd second)).
Proof.
  repeat split. exists "b.__proto__.c". left. reflexivity.
Qed.

(** C3: a key of the target that the reference lacks and that is an array
    index is enumerated before the keys of the reference in the object
    that [reorderLike] returns, not after them. *)
Theorem reorderLike_index_key_not_appended :
  let ref := JObj [("a", JNum 1)] in
  let tgt := JObj [("1", JStr "x"); ("a", JNum 2)] in
  wfb ref = true /\ wfb tgt = true /\
  reorderLike "empty" ref (Some tgt) "" no_stats =
  (JObj [("1", JStr "x"); ("a", JNum 2)], Stats [] ["1"]).
Proof. repeat split. Qed.

(** What does hold of the keys and elements that only the target has: they
    are all in the result with their values, and their paths are reported
    as extra; the keys that are not array indices come after the keys of
    the reference, in the order of the target; the elements come at their
    index. *)
Lemma obj_assign_plain_keys (A : Type) (l : obj A) :
  forall o,
    NoDup (obj_keys o ++ obj_keys l) ->
    (forall k, In k (obj_keys l) -> array_index k = None) ->
    obj_assign o l = o ++ l.
Proof.
  induction l as [|[k v] l IH]; intros o Hnd Hplain; simpl.
  - symmetry. apply app_nil_r.
  - simpl in Hnd.
    assert (Hk : obj_has o k = false).
    { apply obj_has_false_iff. intros Hin.
      apply NoDup_remove_2 in Hnd. apply Hnd. apply in_or_app. auto. }
    unfold obj_set. rewrite Hk, (Hplain k) by (simpl; auto).
    rewrite IH.
    + rewrite <- app_assoc. reflexivity.
    + rewrite obj_keys_app, <- app_assoc. exact Hnd.
    + intros k' Hk'. apply Hplain. simpl. auto.
Qed.

(** X7: a key of the target object that is neither a key of the reference
    nor the name of a member of [Object.prototype] keeps its value in the
    object that [reorderLike] returns and is reported as extra; when none of
    the keys that the second loop copies is an array index, they come after
    the keys of the reference that are stored, in the order of the
    target. *)
Lemma reorderLike_keeps_target_only_keys
  (mode : string) (refObj tgtObj : obj value) (keyPath : string) :
  wf (JObj refObj) -> wf (JObj tgtObj) ->
  let result :=
    reorderLike mode (JObj refObj) (Some (JObj tgtObj)) keyPath no_stats in
  (forall k v, obj_get tgtObj k = Some v -> obj_has refObj k = false ->
     inherited k = false ->
     lookup (fst result) [Key k] = Some v /\
     In (key_path keyPath k) (extra (snd result))) /\
  ((forall k, In k (obj_keys (target_only refObj tgtObj)) ->
      array_index k = None) ->
   fst result =
   JObj (storable (ref_entries mode tgtObj refObj) ++
         target_only refObj tgtObj)).
Proof.
  intros Href Htgt result.
  apply wf_obj in Href. destruct Href as [Href _].
  apply wf_obj in Htgt. destruct Htgt as [Htgt _].
  unfold result. rewrite fst_reorderLike, snd_reorderLike, stats_app_nil_l.
  rewrite merged_obj, report_obj. simpl target_object.
  assert (Hnd : NoDup (obj_keys (target_only refObj tgtObj))).
  { rewrite target_only_keep. apply obj_wf_keep. exact Htgt. }
  split.
  - intros k v Hget Hhas Hinh.
    assert (Hin : In (k, v) (target_only refObj tgtObj)).
    { apply filter_In. split; [apply obj_get_some_in; exact Hget|].
      simpl. unfold obj_in. rewrite Hhas, Hinh. reflexivity. }
    split.
    + simpl. rewrite obj_assign_app.
      rewrite (@obj_get_assign_in _ _ _ k v Hnd Hin). reflexivity.
    + rewrite extra_stats_app. apply in_or_app. right. simpl.
      apply in_map. apply (in_map fst) in Hin. exact Hin.
  - intros Hplain. f_equal. rewrite obj_assign_app.
    rewrite obj_assign_nil_wf.
    + apply obj_assign_plain_keys; [|exact Hplain].
      apply NoDup_app.
      * apply NoDup_storable_entries. apply Href.
      * exact Hnd.
      * intros k Hk Hk'. rewrite obj_keys_storable in Hk.
        apply filter_In in Hk. destruct Hk as [Hk _].
        rewrite obj_keys_ref_entries in Hk.
        exact (@obj_keys_target_only_out refObj tgtObj k Hk Hk').
    + apply obj_wf_storable_entries. exact Href.
Qed.

Lemma array_extra_report (kp : string) (tgts : list value) :
  forall i j st,
    j < List.length tgts ->
    In (index_path kp (i + j)) (extra (snd (array_extra kp tgts i st))).
Proof.
  induction tgts as [|t tgts IH]; intros i j st Hj; simpl in Hj; [lia|].
  simpl.
  destruct (array_extra kp tgts (S i) (push_extra st (index_path kp i)))
    as [out st'] eqn:E.
  simpl. change st' with (snd (out, st')). rewrite <- E.
  destruct j as [|j].
  - rewrite array_extra_acc. simpl. apply in_or_app. left.
    apply in_or_app. right. rewrite Nat.add_0_r. simpl. auto.
  - replace (i + S j) with (S i + j) by lia. apply IH. lia.
Qed.

Lemma array_report_extra (mode : string) (kp : string) (refs : list value) :
  forall tgts i j,
    List.length refs <= j -> j < List.length tgts ->
    In (index_path kp (i + j)) (extra (array_report mode kp refs tgts i)).
Proof.
  induction refs as [|r refs IH]; intros tgts i j Hr Ht.
  - rewrite array_report_nil. apply array_extra_report. exact Ht.
  - simpl in Hr. destruct tgts as [|t tgts]; simpl in Ht; [lia|].
    destruct j as [|j]; [lia|].
    rewrite array_report_present, extra_stats_app. apply in_or_app. right.
    replace (i + S j) with (S i + j) by lia. apply IH; lia.
Qed.

(** X8: an element of the target array beyond the length of the reference
    array is in the array that [reorderLike] returns, at its index, and is
    reported as extra. *)
Lemma reorderLike_keeps_target_only_elements
  (mode : string) (refArr tgtArr : list value) (keyPath : string) (i : nat)
  (v : value) :
  List.length refArr <= i -> nth_error tgtArr i = Some v ->
  let result :=
    reorderLike mode (JArr refArr) (Some (JArr tgtArr)) keyPath no_stats in
  lookup (fst result) [Idx i] = Some v /\
  In (index_path keyPath i) (extra (snd result)).
Proof.
  intros Hlen Hnth result. unfold result.
  rewrite fst_reorderLike, snd_reorderLike, stats_app_nil_l.
  rewrite merged_arr, report_arr. simpl target_array. split.
  - simpl. rewrite nth_error_zip_elements.
    apply nth_error_None in Hlen. rewrite Hlen, Hnth. reflexivity.
  - apply (@array_report_extra mode keyPath refArr tgtArr 0 i Hlen).
    apply nth_error_Some. congruence.
Qed.

(** C4, as the code has it: a position that the reference has and the
    target lacks, where no key on the way to it or below it in the
    reference is the name of a member of [Object.prototype], holds a copy of
    the reference subtree with every leaf replaced by [missingLeaf]: the
    leaf itself under [ref], [null] under [null], and the empty string under
    every other mode.  [createFromRef] copies the leaves under [ref] and
    gives the empty string under every other mode. *)
Theorem reorderLike_fills_missing
  (mode : string) (ref tgt : value) (keyPath : string) (st : stats)
  (p : list step) (r : value) :
  wf ref -> plain_path p = true -> plain_keys r = true ->
  lookup ref p = Some r -> lookup tgt p = None ->
  lookup (fst (reorderLike mode ref (Some tgt) keyPath st)) p =
    Some (map_leaves (missingLeaf mode) r) /\
  (mode = "ref" -> map_leaves (missingLeaf mode) r = r) /\
  (mode = "null" -> forall leaf, missingLeaf mode leaf = JNull) /\
  (mode <> "ref" -> mode <> "null" ->
   forall leaf, missingLeaf mode leaf = JStr "") /\
  GenerateLocale.createFromRef r mode =
    map_leaves (fun leaf => if String.eqb mode "ref" then leaf else JStr "")
      r.
Proof.
  intros Hwf Hp Hpl Hr Ht. repeat split.
  - rewrite fst_reorderLike. apply lookup_merged_missing; auto.
  - intros ->. rewrite (map_leaves_ext _ (fun x => x)).
    + apply map_leaves_id.
    + apply missingLeaf_ref.
  - intros ->. apply missingLeaf_null.
  - intros H1 H2 leaf. apply missingLeaf_other; auto.
  - apply createFromRef_clone. eapply wf_lookup; eauto.
Qed.

Lemma reorderLike_fills_missing_witness :
  let ref := JObj [("a", JObj [("b", JNum 1); ("c", JArr [JBool true])])] in
  let tgt := JObj [("a", JStr "leaf")] in
  let r := JArr [JBool true] in
  wf ref /\
  plain_path [Key "a"; Key "c"] = true /\ plain_keys r = true /\
  lookup ref [Key "a"; Key "c"] = Some r /\
  lookup tgt [Key "a"; Key "c"] = None /\
  lookup (fst (reorderLike "blank" ref (Some tgt) "" no_stats))
    [Key "a"; Key "c"] = Some (map_leaves (missingLeaf "blank") r).
Proof.
  intros ref tgt r.
  assert (Hwf : wf ref) by (apply wfb_sound; reflexivity).
  split; [exact Hwf|]. split; [reflexivity|]. split; [reflexivity|].
  split; [reflexivity|]. split; [reflexivity|].
  exact (proj1 (@reorderLike_fills_missing "blank" ref tgt "" no_stats
                  [Key "a"; Key "c"] r Hwf eq_refl eq_refl eq_refl
                  eq_refl)).
Defined.

(** C4 as stated fails: under the mode [none] a missing leaf is filled with
    the empty string, not with [null]; and [createFromRef] gives the empty
    string under [null]. *)
Lemma none_policy_fills_empty_string :
  missingLeaf "none" (JNum 1) = JStr "" /\
  missingLeaf "none" (JNum 1) <> JNull /\
  reorderLike "none" (JObj [("a", JNum 1)]) (Some (JObj [])) "" no_stats =
    (JObj [("a", JStr "")], Stats ["a"] []) /\
  GenerateLocale.createFromRef (JNum 1) "null" = JStr "".
Proof. repeat split. discriminate. Qed.

(** Where the reference is an object none of whose keys is the name of a
    member of [Object.prototype], and the target is a leaf, the result is
    the one for an empty target object: a copy of the reference filled by
    the policy, every key of the reference reported missing, and nothing
    reported extra. *)
Lemma reorderLike_discards_target_leaf
  (mode : string) (refObj : obj value) (leaf : value) (keyPath : string)
  (st : stats) :
  wf (JObj refObj) -> plain_keys (JObj refObj) = true ->
  isLeaf leaf = true ->
  let result := reorderLike mode (JObj refObj) (Some leaf) keyPath st in
  result = reorderLike mode (JObj refObj) (Some (JObj [])) keyPath st /\
  fst result = map_leaves (missingLeaf mode) (JObj refObj) /\
  extra (snd result) = extra st /\
  (forall k, In k (obj_keys refObj) ->
             In (key_path keyPath k) (missing (snd result))).
Proof.
  intros Hwf Hpl Hleaf result.
  assert (Heq : result =
                reorderLike mode (JObj refObj) None keyPath st).
  { unfold result. destruct leaf; try discriminate; reflexivity. }
  split; [rewrite Heq; reflexivity|].
  rewrite Heq, fst_reorderLike, snd_reorderLike.
  split; [apply merged_none; assumption|].
  split.
  - rewrite extra_stats_app, report_none_extra. apply app_nil_r.
  - intros k Hk. rewrite missing_stats_app. apply in_or_app. right.
    rewrite report_obj, missing_stats_app. apply in_or_app. left.
    apply ref_keys_report_missing_in; [exact Hk|].
    apply keys_all_obj in Hpl. rewrite Forall_forall in Hpl.
    apply in_map_iff in Hk. destruct Hk as (kv & <- & Hin).
    apply negb_true_iff. apply (Hpl kv Hin).
Qed.

Example reorderLike_discards_target_leaf_at :
  let refObj := [("a", JNum 1); ("b", JObj [("c", JStr "x")])] in
  reorderLike "ref" (JObj refObj) (Some (JStr "old")) "k" no_stats =
  (JObj refObj, Stats ["k.a"; "k.b.c"; "k.b"] []).
Proof. reflexivity. Qed.

(** C10: with a leaf as target, a key of the reference that is the name of
    a member of [Object.prototype] is neither reported missing nor filled
    by the policy.  The target counts as the empty object, in which
    [k in tgtObj] finds the member that every object inherits, so the key
    takes the branch of the keys that the target has, and the result holds
    the inherited function for it. *)
Theorem reorderLike_target_leaf_inherited_key :
  let refObj := [("toString", JStr "x"); ("a", JNum 1)] in
  wfb (JObj refObj) = true /\ isLeaf (JStr "old") = true /\
  reorderLike "empty" (JObj refObj) (Some (JStr "old")) "" no_stats =
  (JObj [("toString", JFun "toString"); ("a", JStr "")], Stats ["a"] []) /\
  reorderLike "empty" (JObj refObj) (Some (JObj [])) "" no_stats =
  (JObj [("toString", JFun "toString"); ("a", JStr "")], Stats ["a"] []).
Proof. repeat split. Qed.

End SyncFacts.

(* ================================================================== *)
(** ** Facts about generate-locale.mjs *)
(* ================================================================== *)

Module GenFacts.
Import Js GenerateLocale JsFacts.
Unset Implicit Arguments.

(** *** Reading and writing properties *)

Lemma nth_array_store (es : list value) (i : nat) (x : value) :
  nth i (array_store es i x) VUndef = x.
Proof.
  revert es. induction i as [|i IH]; intros [|e es]; simpl; auto.
Qed.


Lemma array_store_present (es : list value) (i : nat) (x : value) :
  nth i es VUndef = x -> x <> VUndef -> array_store es i x = es.
Proof.
  revert es. induction i as [|i IH]; intros [|e es]; simpl; intros H Hx;
    try congruence.
  rewrite IH; auto.
Qed.

Lemma isArray_store (c : value) (k : string) (x : value) :
  isArray (store c k x) = isArray c.
Proof.
  destruct c; simpl; auto. destruct (array_index k); reflexivity.
Qed.

Lemma isObject_store (c : value) (k : string) (x : value) :
  isObject (store c k x) = isObject c.
Proof.
  destruct c; simpl; auto. destruct (array_index k); reflexivity.
Qed.

Lemma get_store_same (c : value) (k : string) (x : value) :
  isContainer c = true -> get_prop (store c k x) k = x.
Proof.
  destruct c as [| | | | | |es ps|o]; try discriminate; intros _; simpl.
  - destruct (array_index k) as [i|] eqn:E; simpl; rewrite E.
    + apply nth_array_store.
    + rewrite obj_get_set_same. reflexivity.
  - rewrite obj_get_set_same. reflexivity.
Qed.


Lemma or_undefined_some (o : option value) (x : value) :
  or_undefined o = x -> x <> VUndef -> o = Some x.
Proof. destruct o; simpl; congruence. Qed.

Lemma store_present (c : value) (k : string) (x : value) :
  get_prop c k = x -> x <> VUndef -> store c k x = c.
Proof.
  destruct c as [| | | | | |es ps|o]; simpl; auto; intros H Hx.
  - destruct (array_index k) as [i|].
    + rewrite array_store_present; auto.
    + rewrite obj_set_same_value; auto. apply or_undefined_some; auto.
  - rewrite obj_set_same_value; auto. apply or_undefined_some; auto.
Qed.

Lemma not_nullish_defined (x : value) : nullish x = false -> x <> VUndef.
Proof. destruct x; simpl; congruence. Qed.

Lemma container_not_nullish (c : value) :
  isContainer c = true -> nullish c = false.
Proof. destruct c; simpl; auto; discriminate. Qed.

Lemma set_prop_ok (c : value) (k : string) (x : value) (c' : value) :
  set_prop c k x = Ok c' -> isContainer c = true /\ c' = store c k x.
Proof.
  unfold set_prop.
  destruct (isContainer c); [|discriminate].
  intros H. inversion H. auto.
Qed.

Lemma set_prop_container (c : value) (k : string) (x : value) :
  isContainer c = true -> set_prop c k x = Ok (store c k x).
Proof. unfold set_prop. intros ->. reflexivity. Qed.

Lemma set_prop_throw (c : value) (k : string) (x : value) (e : error) :
  set_prop c k x = Throw e -> e = JsTypeError /\ isContainer c = false.
Proof.
  unfold set_prop.
  destruct (isContainer c); [discriminate|].
  intros H. inversion H. auto.
Qed.


(** *** One step of the walk *)

Lemma fresh_for_not_nullish (next : token) : nullish (fresh_for next) = false.
Proof. unfold fresh_for. destruct (is_number next); reflexivity. Qed.

Lemma isArray_fresh_for (next : token) :
  isArray (fresh_for next) = is_number next.
Proof. unfold fresh_for. destruct (is_number next); reflexivity. Qed.

(** [ensureContainer] on an object or an array. *)
Lemma ensureContainer_container (parent : value) (prop : string)
  (next : token) :
  isContainer parent = true ->
  ensureContainer parent prop next =
  let c0 := get_prop parent prop in
  if nullish c0
  then Ok (store parent prop (fresh_for next), fresh_for next)
  else if is_number next
       then if isArray c0 then Ok (parent, c0)
            else Ok (store parent prop (VArr [] []), VArr [] [])
       else if isArray c0 then Ok (store parent prop (VObj []), VObj [])
            else Ok (parent, c0).
Proof.
  intros Hc. unfold ensureContainer, fresh_for.
  rewrite (container_not_nullish _ Hc). cbv zeta.
  destruct (nullish (get_prop parent prop)) eqn:Hn.
  - rewrite set_prop_container by assumption. simpl.
    rewrite get_store_same by assumption.
    destruct (is_number next); simpl;
      rewrite ?get_store_same by assumption; simpl;
      rewrite ?get_store_same by assumption; reflexivity.
  - simpl. destruct (is_number next);
      destruct (isArray (get_prop parent prop)) eqn:Ha; simpl;
      rewrite ?Ha, ?set_prop_container by assumption; simpl;
      rewrite ?Ha, ?get_store_same by assumption; simpl;
      rewrite ?get_store_same by assumption; reflexivity.
Qed.

Lemma get_prop_primitive (c : value) (k : string) :
  isContainer c = false -> isContainer (get_prop c k) = false.
Proof.
  destruct c; simpl; auto; try discriminate.
  intros _. destruct (array_index k); auto.
  unfold char_at. destruct (String.get (N.to_nat n) s); reflexivity.
Qed.

(** [ensureContainer] on a primitive value. *)
Lemma ensureContainer_primitive (parent : value) (prop : string)
  (next : token) :
  isContainer parent = false ->
  match ensureContainer parent prop next with
  | Ok (parent', child) => parent' = parent /\ isContainer child = false
  | Throw e => e = JsTypeError
  end.
Proof.
  intros Hc. unfold ensureContainer.
  assert (Hset : forall x, set_prop parent prop x = Throw JsTypeError).
  { intros x. unfold set_prop. rewrite Hc. reflexivity. }
  destruct (nullish parent); auto.
  destruct (nullish (get_prop parent prop)).
  { rewrite Hset. reflexivity. }
  cbn [bind].
  destruct (is_number next && negb (isArray (get_prop parent prop)))%bool.
  { rewrite Hset. reflexivity. }
  cbn [bind].
  destruct (negb (is_number next) && isArray (get_prop parent prop))%bool.
  { rewrite Hset. reflexivity. }
  cbn [bind]. split; auto. apply get_prop_primitive. exact Hc.
Qed.

Lemma ensureContainer_throws (parent : value) (prop : string) (next : token)
  (e : error) :
  ensureContainer parent prop next = Throw e -> e = JsTypeError.
Proof.
  destruct (isContainer parent) eqn:Hc.
  - rewrite ensureContainer_container by assumption. cbv zeta.
    destruct (nullish (get_prop parent prop)), (is_number next),
      (isArray (get_prop parent prop)); discriminate.
  - pose proof (@ensureContainer_primitive parent prop next Hc) as H.
    intros E. rewrite E in H. exact H.
Qed.

Lemma enter_throws (cur : value) (t next : token) (e : error) :
  enter cur t next = Throw e ->
  (e = ExpectedArray <-> is_number t = true /\ isArray cur = false).
Proof.
  destruct t as [s|n]; simpl.
  - intros H. apply ensureContainer_throws in H. subst.
    split; [discriminate | intros [? _]; discriminate].
  - destruct (isArray cur); [discriminate|].
    intros H. inversion H. tauto.
Qed.

Lemma enter_primitive (cur : value) (t next : token) :
  isContainer cur = false ->
  match enter cur t next with
  | Ok (cur1, child) => cur1 = cur /\ isContainer child = false
  | Throw _ => True
  end.
Proof.
  intros Hc. destruct t as [s|n]; simpl.
  - pose proof (@ensureContainer_primitive cur s next Hc) as H.
    destruct (ensureContainer cur s next) as [[p c]|]; auto.
  - assert (Ha : isArray cur = false).
    { unfold isContainer in Hc. apply orb_false_iff in Hc. tauto. }
    rewrite Ha. exact I.
Qed.

(** What a step that does not throw leaves behind. *)
Lemma enter_ok (cur : value) (t next : token) (cur1 child : value) :
  isContainer cur = true ->
  enter cur t next = Ok (cur1, child) ->
  isArray cur1 = isArray cur /\ isObject cur1 = isObject cur /\
  get_prop cur1 (prop_key t) = child /\ nullish child = false /\
  (is_number t = false -> isArray child = is_number next) /\
  (is_number t = true -> isArray cur = true).
Proof.
  intros Hc. destruct t as [s|n]; simpl.
  - rewrite ensureContainer_container by assumption. cbv zeta.
    destruct (nullish (get_prop cur s)) eqn:Hn.
    + intros H. inversion H. subst.
      rewrite isArray_store, isObject_store, get_store_same by assumption.
      rewrite fresh_for_not_nullish, isArray_fresh_for.
      repeat split; auto. discriminate.
    + destruct (is_number next) eqn:Hnext;
        destruct (isArray (get_prop cur s)) eqn:Ha;
        intros H; inversion H; subst;
        rewrite ?isArray_store, ?isObject_store, ?get_store_same
          by assumption;
        repeat split; auto; discriminate.
  - destruct (isArray cur) eqn:Ha; [|discriminate].
    destruct (nullish (get_prop cur (string_of_N n))) eqn:Hn;
      intros H; inversion H; subst.
    + rewrite isArray_store, isObject_store, get_store_same by assumption.
      rewrite fresh_for_not_nullish. repeat split; auto. discriminate.
    + repeat split; auto. discriminate.
Qed.


(** *** The key-path parser *)

Lemma take_run_length (s : string) :
  String.length (snd (take_run s)) <= String.length s.
Proof.
  induction s as [|c s IH]; simpl; auto.
  destruct (is_dot c || is_lbracket c)%bool; simpl; auto.
  destruct (take_run s) as [run rest]. simpl in *. lia.
Qed.

Lemma take_digits_length (s : string) :
  String.length (snd (take_digits s)) <= String.length s.
Proof.
  induction s as [|c s IH]; simpl; auto.
  destruct (is_digit c); simpl; auto.
  destruct (take_digits s) as [ds rest]. simpl in *. lia.
Qed.

Lemma match_index_length (s : string) (n : N) (rest : string) :
  match_index s = Some (n, rest) -> String.length rest < String.length s.
Proof.
  unfold match_index. pose proof (take_digits_length s) as H.
  destruct (take_digits s) as [ds r]. simpl in H.
  destruct ds as [|d ds]; [discriminate|].
  destruct r as [|c r]; [discriminate|].
  destruct (is_rbracket c); [|discriminate].
  destruct (N_of_digits (String d ds)); [|discriminate].
  intros E. inversion E. subst. simpl in H. lia.
Qed.

(** The loop of [parseKey] ends before the fuel does: more fuel than the
    length of the string gives the same tokens. *)
Lemma parse_from_enough_fuel (fuel1 : nat) :
  forall fuel2 s,
    String.length s < fuel1 -> String.length s < fuel2 ->
    parse_from fuel1 s = parse_from fuel2 s.
Proof.
  induction fuel1 as [|fuel1 IH]; intros fuel2 s H1 H2; [lia|].
  destruct fuel2 as [|fuel2]; [lia|].
  destruct s as [|c s]; [reflexivity|].
  simpl in H1, H2. cbn [parse_from].
  destruct (is_dot c) eqn:Hdot.
  - apply IH; lia.
  - destruct (is_lbracket c) eqn:Hbr.
    + destruct (match_index s) as [[n rest]|] eqn:Hm.
      * apply match_index_length in Hm. f_equal. apply IH; lia.
      * apply IH; lia.
    + pose proof (take_run_length (String c s)) as Hlen.
      destruct (take_run (String c s)) as [run rest] eqn:Hrun.
      simpl in Hrun. rewrite Hdot, Hbr in Hrun. simpl in Hrun.
      pose proof (take_run_length s) as Hlen'.
      destruct (take_run s) as [run' rest']. inversion Hrun. subst.
      simpl in Hlen'. f_equal. apply IH; lia.
Qed.

Lemma match_index_separators (s : string) :
  only_separators s = true -> match_index s = None.
Proof.
  destruct s as [|c s]; [reflexivity|]. simpl. intros H.
  apply andb_prop in H. destruct H as [H _].
  unfold match_index. simpl.
  assert (Hd : is_digit c = false).
  { unfold is_dot, is_lbracket, is_digit in *.
    apply orb_prop in H. destruct H as [H|H]; apply Nat.eqb_eq in H;
      rewrite H; reflexivity. }
  rewrite Hd. reflexivity.
Qed.

Lemma parse_from_nil (fuel : nat) :
  forall s,
    String.length s < fuel ->
    (parse_from fuel s = [] <-> only_separators s = true).
Proof.
  induction fuel as [|fuel IH]; intros s H; [lia|].
  destruct s as [|c s]; [simpl; tauto|].
  simpl in H. cbn [parse_from only_separators].
  destruct (is_dot c) eqn:Hdot; cbn [orb andb].
  - apply IH. lia.
  - destruct (is_lbracket c) eqn:Hbr; cbn [orb andb].
    + destruct (match_index s) as [[n rest]|] eqn:Hm.
      * split; [discriminate|]. intros Hs.
        rewrite (match_index_separators s Hs) in Hm. discriminate.
      * apply IH. lia.
    + destruct (take_run (String c s)) as [run rest].
      split; discriminate.
Qed.

(** The keys without tokens are the strings of dots and opening brackets. *)
Lemma parseKey_nil (key : string) :
  parseKey key = [] <-> only_separators key = true.
Proof. unfold parseKey. apply parse_from_nil. lia. Qed.

(** *** The walk *)

Lemma enter_kind (cur : value) (t next : token) (cur1 child : value) :
  enter cur t next = Ok (cur1, child) ->
  isArray cur1 = isArray cur /\ isObject cur1 = isObject cur.
Proof.
  intros H. destruct (isContainer cur) eqn:Hc.
  - destruct (enter_ok _ _ _ _ _ Hc H) as (H1 & H2 & _). auto.
  - pose proof (@enter_primitive cur t next Hc) as Hp. rewrite H in Hp.
    destruct Hp as [-> _]. auto.
Qed.

Lemma setDeep_from_kind (tokens : list token) (v : value) :
  forall cur,
    isArray (fst (setDeep_from cur tokens v)) = isArray cur /\
    isObject (fst (setDeep_from cur tokens v)) = isObject cur.
Proof.
  induction tokens as [|t rest IH]; intros cur; [simpl; auto|].
  destruct rest as [|next rest].
  - simpl. unfold set_prop. destruct (isContainer cur); simpl; auto.
    rewrite isArray_store, isObject_store. auto.
  - change (setDeep_from cur (t :: next :: rest) v) with
      (match enter cur t next with
       | Throw e => (cur, Some e)
       | Ok (cur1, child) =>
           let (child', e) := setDeep_from child (next :: rest) v in
           (store cur1 (prop_key t) child', e)
       end).
    destruct (enter cur t next) as [[cur1 child]|e] eqn:He; [|simpl; auto].
    destruct (setDeep_from child (next :: rest) v) as [child' e]. simpl.
    rewrite isArray_store, isObject_store. eapply enter_kind. eassumption.
Qed.


Lemma setDeep_from_cons (cur : value) (t next : token) (rest : list token)
  (v : value) :
  setDeep_from cur (t :: next :: rest) v =
  match enter cur t next with
  | Throw e => (cur, Some e)
  | Ok (cur1, child) =>
      let (child', e) := setDeep_from child (next :: rest) v in
      (store cur1 (prop_key t) child', e)
  end.
Proof. reflexivity. Qed.

(** Below a primitive value every path fails. *)
Lemma setDeep_from_primitive (tokens : list token) (v : value) :
  forall cur,
    isContainer cur = false -> tokens <> [] ->
    snd (setDeep_from cur tokens v) <> None.
Proof.
  induction tokens as [|t rest IH]; intros cur Hc Hne; [congruence|].
  destruct rest as [|next rest].
  - simpl. unfold set_prop. rewrite Hc. simpl. discriminate.
  - rewrite setDeep_from_cons.
    pose proof (@enter_primitive cur t next Hc) as Hp.
    destruct (enter cur t next) as [[cur1 child]|e]; [|simpl; discriminate].
    destruct Hp as [_ Hchild].
    specialize (IH child Hchild).
    destruct (setDeep_from child (next :: rest) v) as [child' e]. simpl in *.
    apply IH. discriminate.
Qed.


(** [setDeep] throws its own error exactly at an index token that is not
    the last and meets a container that is not an array. *)
Lemma setDeep_from_expected_array (tokens : list token) (v : value) :
  forall cur,
    snd (setDeep_from cur tokens v) = Some ExpectedArray <->
    Exists inner_index_on_non_array (visits cur tokens).
Proof.
  induction tokens as [|t rest IH]; intros cur.
  - simpl. split; [discriminate | intros H; inversion H].
  - destruct rest as [|next rest].
    + simpl. split.
      * destruct (set_prop cur (prop_key t) v) as [c|e] eqn:Hs;
          [discriminate|].
        apply set_prop_throw in Hs. destruct Hs as [-> _]. discriminate.
      * intros H. inversion H as [? ? [_ Hl]|? ? Hl]; [discriminate|].
        inversion Hl.
    + rewrite setDeep_from_cons.
      change (visits cur (t :: next :: rest)) with
        ((cur, t, false) ::
         match enter cur t next with
         | Throw _ => []
         | Ok (_, child) => visits child (next :: rest)
         end).
      rewrite Exists_cons.
      destruct (enter cur t next) as [[cur1 child]|e] eqn:He.
      * destruct (setDeep_from child (next :: rest) v) as [child' e] eqn:Hd.
        simpl. specialize (IH child). rewrite Hd in IH. simpl in IH.
        rewrite IH. split; auto.
        intros [[[Hnum Harr] _]|H]; auto. exfalso. simpl in Hnum, Harr.
        destruct t as [s|n]; [discriminate|].
        simpl in He. rewrite Harr in He. discriminate.
      * simpl. pose proof (enter_throws _ _ _ _ He) as Hthrow. split.
        -- intros H. inversion H. subst. left.
           split; [|reflexivity]. apply Hthrow. reflexivity.
        -- intros [[H _]|H]; [|inversion H].
           f_equal. apply Hthrow. exact H.
Qed.

(** A child of the wrong kind under a property token is replaced. *)
Lemma ensureContainer_replaces (parent : value) (prop : string)
  (next : token) :
  isContainer parent = true ->
  nullish (get_prop parent prop) = false ->
  isArray (get_prop parent prop) <> is_number next ->
  ensureContainer parent prop next =
  Ok (store parent prop (fresh_for next), fresh_for next).
Proof.
  intros Hc Hn Hk. rewrite ensureContainer_container by assumption.
  cbv zeta. rewrite Hn. unfold fresh_for.
  destruct (is_number next), (isArray (get_prop parent prop));
    congruence.
Qed.

(** *** White space *)

Lemma append_nil_r (s : string) : (s ++ "")%string = s.
Proof. induction s as [|c s IH]; simpl; congruence. Qed.

Lemma append_assoc (s1 s2 s3 : string) :
  ((s1 ++ s2) ++ s3 = s1 ++ (s2 ++ s3))%string.
Proof. induction s1 as [|c s1 IH]; simpl; congruence. Qed.

Lemma length_append (s1 s2 : string) :
  String.length (s1 ++ s2) = String.length s1 + String.length s2.
Proof. induction s1 as [|c s1 IH]; simpl; auto. Qed.

Lemma string_all_app (P : ascii -> bool) (s1 s2 : string) :
  string_all P (s1 ++ s2) = (string_all P s1 && string_all P s2)%bool.
Proof.
  induction s1 as [|c s1 IH]; simpl; auto. rewrite IH, andb_assoc.
  reflexivity.
Qed.

Lemma trim_start_unfold (s : string) :
  trim_start s =
  match space_prefix s with
  | Some s' => trim_start s'
  | None => s
  end.
Proof.
  destruct s as [|c1 [|c2 [|c3 s3]]]; simpl; try reflexivity.
  - destruct (is_space c1); reflexivity.
  - destruct (is_space c1); [reflexivity|].
    destruct (is_space2 c1 c2); reflexivity.
  - destruct (is_space c1); [reflexivity|].
    destruct (is_space2 c1 c2); [reflexivity|].
    destruct (is_space3 c1 c2 c3); reflexivity.
Qed.

(** The white space character that a string begins with takes one, two or
    three bytes. *)
Lemma space_prefix_cases (s s' : string) :
  space_prefix s = Some s' ->
  (exists c1, s = String c1 s' /\ is_space c1 = true) \/
  (exists c1 c2,
     s = String c1 (String c2 s') /\ is_space c1 = false /\
     is_space2 c1 c2 = true) \/
  (exists c1 c2 c3,
     s = String c1 (String c2 (String c3 s')) /\ is_space c1 = false /\
     is_space2 c1 c2 = false /\ is_space3 c1 c2 c3 = true).
Proof.
  destruct s as [|c1 [|c2 [|c3 s3]]]; simpl; try discriminate.
  - destruct (is_space c1) eqn:E1; [|discriminate].
    intros H. inversion H. subst. left. eauto.
  - destruct (is_space c1) eqn:E1.
    + intros H. inversion H. subst. left. eauto.
    + destruct (is_space2 c1 c2) eqn:E2; [|discriminate].
      intros H. inversion H. subst. right. left. eauto.
  - destruct (is_space c1) eqn:E1.
    + intros H. inversion H. subst. left. eauto.
    + destruct (is_space2 c1 c2) eqn:E2.
      * intros H. inversion H. subst. right. left. eauto.
      * destruct (is_space3 c1 c2 c3) eqn:E3; [|discriminate].
        intros H. inversion H. subst. right. right. eauto 7.
Qed.

Lemma space_prefix_one (c1 : ascii) (s : string) :
  is_space c1 = true -> space_prefix (String c1 s) = Some s.
Proof.
  intros H. destruct s as [|c2 [|c3 s3]]; simpl; rewrite H; reflexivity.
Qed.

Lemma space_prefix_two (c1 c2 : ascii) (s : string) :
  is_space c1 = false -> is_space2 c1 c2 = true ->
  space_prefix (String c1 (String c2 s)) = Some s.
Proof.
  intros H1 H2. destruct s as [|c3 s3]; simpl; rewrite H1, H2; reflexivity.
Qed.

Lemma space_prefix_three (c1 c2 c3 : ascii) (s : string) :
  is_space c1 = false -> is_space2 c1 c2 = false ->
  is_space3 c1 c2 c3 = true ->
  space_prefix (String c1 (String c2 (String c3 s))) = Some s.
Proof. intros H1 H2 H3. simpl. rewrite H1, H2, H3. reflexivity. Qed.

Lemma space_prefix_app (s s' t : string) :
  space_prefix s = Some s' ->
  space_prefix (s ++ t) = Some (s' ++ t)%string.
Proof.
  intros H. apply space_prefix_cases in H.
  destruct H as [(c1 & -> & H1)|[(c1 & c2 & -> & H1 & H2)|
                 (c1 & c2 & c3 & -> & H1 & H2 & H3)]].
  - apply space_prefix_one. exact H1.
  - apply space_prefix_two; assumption.
  - apply space_prefix_three; assumption.
Qed.

Lemma space_prefix_suffix (s s' : string) :
  space_prefix s = Some s' -> exists w, s = (w ++ s')%string /\ w <> "".
Proof.
  intros H. apply space_prefix_cases in H.
  destruct H as [(c1 & -> & _)|[(c1 & c2 & -> & _)|(c1 & c2 & c3 & -> & _)]].
  - exists (String c1 ""). split; [reflexivity | discriminate].
  - exists (String c1 (String c2 "")). split; [reflexivity | discriminate].
  - exists (String c1 (String c2 (String c3 ""))).
    split; [reflexivity | discriminate].
Qed.

Lemma space_prefix_shorter (s s' : string) :
  space_prefix s = Some s' -> String.length s' < String.length s.
Proof.
  intros H. apply space_prefix_suffix in H. destruct H as (w & -> & Hw).
  rewrite length_append. destruct w; [contradiction | simpl; lia].
Qed.

(** Induction along the white space that a string begins with. *)
Lemma trim_start_ind (P : string -> Prop) :
  (forall s, space_prefix s = None -> P s) ->
  (forall s s', space_prefix s = Some s' -> P s' -> P s) ->
  forall s, P s.
Proof.
  intros Hnone Hsome s.
  remember (String.length s) as n eqn:Hn. revert s Hn.
  induction n as [n IH] using lt_wf_ind. intros s Hn.
  destruct (space_prefix s) as [s'|] eqn:E.
  - apply (Hsome s s' E). apply (IH (String.length s')); [|reflexivity].
    subst n. apply space_prefix_shorter. exact E.
  - apply Hnone. exact E.
Qed.

Lemma space_prefix_trim_start (s : string) :
  space_prefix (trim_start s) = None.
Proof.
  induction s as [s E|s s' E IH] using trim_start_ind;
    rewrite trim_start_unfold, E; assumption.
Qed.

Lemma trim_start_idempotent (s : string) :
  trim_start (trim_start s) = trim_start s.
Proof.
  rewrite (trim_start_unfold (trim_start s)), space_prefix_trim_start.
  reflexivity.
Qed.

Lemma trim_start_fixed (s : string) :
  trim_start s = s <-> space_prefix s = None.
Proof.
  split; intros H.
  - rewrite <- H. apply space_prefix_trim_start.
  - rewrite trim_start_unfold, H. reflexivity.
Qed.

Lemma all_space_prefix (s s' : string) :
  space_prefix s = Some s' -> all_space s = all_space s'.
Proof. intros H. unfold all_space. rewrite trim_start_unfold, H. reflexivity. Qed.

Lemma all_space_no_prefix (s : string) :
  space_prefix s = None -> all_space s = true -> s = "".
Proof.
  intros H. unfold all_space. rewrite trim_start_unfold, H.
  destruct s; [reflexivity | discriminate].
Qed.

Lemma all_space_trim_start (s : string) :
  all_space (trim_start s) = all_space s.
Proof.
  induction s as [s E|s s' E IH] using trim_start_ind.
  - rewrite (proj2 (trim_start_fixed s) E). reflexivity.
  - rewrite (all_space_prefix _ _ E), <- IH, (trim_start_unfold s), E.
    reflexivity.
Qed.

(** Induction on a string of white space. *)
Lemma all_space_ind (P : string -> Prop) :
  P "" ->
  (forall s s', space_prefix s = Some s' -> all_space s' = true ->
                P s' -> P s) ->
  forall s, all_space s = true -> P s.
Proof.
  intros Hnil Hsome s.
  induction s as [s E|s s' E IH] using trim_start_ind; intros H.
  - rewrite (all_space_no_prefix _ E H). exact Hnil.
  - rewrite (all_space_prefix _ _ E) in H. apply (Hsome s s' E H). auto.
Qed.

Lemma all_space_app (s t : string) :
  all_space s = true -> all_space t = true -> all_space (s ++ t) = true.
Proof.
  intros Hs Ht. revert s Hs.
  apply (all_space_ind (fun s => all_space (s ++ t) = true)).
  - exact Ht.
  - intros s s' E _ IH.
    rewrite (all_space_prefix _ _ (space_prefix_app _ _ t E)). exact IH.
Qed.

(** [trim_end] drops a suffix of white space. *)
Lemma trim_end_suffix (s : string) :
  exists w, s = (trim_end s ++ w)%string /\ all_space w = true.
Proof.
  induction s as [|c s IH].
  - exists "". split; reflexivity.
  - cbn [trim_end]. destruct (all_space (String c s)) eqn:E.
    + exists (String c s). split; [reflexivity | exact E].
    + destruct IH as (w & Hw & Hs). exists w. split; [|exact Hs].
      simpl. rewrite <- Hw. reflexivity.
Qed.

Lemma trim_end_empty (s : string) :
  trim_end s = EmptyString <-> all_space s = true.
Proof.
  destruct s as [|c s]; [split; reflexivity|].
  cbn [trim_end]. destruct (all_space (String c s)); split; congruence.
Qed.

Lemma trim_end_idempotent (s : string) : trim_end (trim_end s) = trim_end s.
Proof.
  induction s as [|c s IH]; [reflexivity|].
  cbn [trim_end]. destruct (all_space (String c s)) eqn:E; [reflexivity|].
  cbn [trim_end]. rewrite IH.
  destruct (all_space (String c (trim_end s))) eqn:E'; [|reflexivity].
  destruct (trim_end_suffix s) as (w & Hw & Hs).
  pose proof (all_space_app _ w E' Hs) as Happ.
  simpl in Happ. rewrite <- Hw in Happ. congruence.
Qed.

Lemma trim_start_of_trim_end (s : string) :
  trim_start s = s -> trim_start (trim_end s) = trim_end s.
Proof.
  rewrite !trim_start_fixed. intros H.
  destruct (space_prefix (trim_end s)) as [p|] eqn:E; [|reflexivity].
  destruct (trim_end_suffix s) as (w & Hw & _).
  apply (space_prefix_app _ _ w) in E. rewrite <- Hw in E. congruence.
Qed.

Lemma trim_idempotent (s : string) : trim (trim s) = trim s.
Proof.
  unfold trim.
  rewrite (trim_start_of_trim_end _ (trim_start_idempotent s)).
  apply trim_end_idempotent.
Qed.

Lemma string_all_trim_start (P : ascii -> bool) (s : string) :
  string_all P s = true -> string_all P (trim_start s) = true.
Proof.
  induction s as [s E|s s' E IH] using trim_start_ind; intros H.
  - rewrite (proj2 (trim_start_fixed s) E). exact H.
  - rewrite trim_start_unfold, E. apply IH.
    destruct (space_prefix_suffix _ _ E) as (w & -> & _).
    rewrite string_all_app in H. apply andb_prop in H. tauto.
Qed.

Lemma string_all_trim_end (P : ascii -> bool) (s : string) :
  string_all P s = true -> string_all P (trim_end s) = true.
Proof.
  intros H. destruct (trim_end_suffix s) as (w & Hw & _).
  rewrite Hw, string_all_app in H. apply andb_prop in H. tauto.
Qed.

Lemma string_all_trim (P : ascii -> bool) (s : string) :
  string_all P s = true -> string_all P (trim s) = true.
Proof.
  intros H. apply string_all_trim_end, string_all_trim_start. exact H.
Qed.

(** *** Blank cells *)

Lemma trim_empty (s : string) :
  trim s = EmptyString <-> all_space s = true.
Proof.
  unfold trim. rewrite trim_end_empty, all_space_trim_start. tauto.
Qed.

Lemma isBlank_spec (v : cell) :
  isBlank v = true <->
  v = CUndefined \/ v = CNull \/ all_space (String_ v) = true.
Proof.
  unfold isBlank. rewrite orb_true_iff, String.eqb_eq, trim_empty.
  destruct v; simpl; intuition congruence.
Qed.

(** *** The projection loop *)

Lemma project_cell_blank (i : nat) (r : row) (key : string) (st : state)
  (col : string) :
  isBlank (row_get r col) = true -> project_cell i r key st col = st.
Proof. intros H. unfold project_cell. rewrite H. reflexivity. Qed.

Lemma project_cell_other (i : nat) (r : row) (key : string) (st : state)
  (col col' : string) :
  col' <> col ->
  obj_get (outputs (project_cell i r key st col')) col =
  obj_get (outputs st) col.
Proof.
  intros Hne. unfold project_cell.
  destruct (isBlank (row_get r col')); auto.
  destruct (setDeep _ key _) as [tree e]. simpl.
  apply obj_get_update_other. auto.
Qed.

Lemma project_key_blank (localeCols : list string) (i : nat) (r : row)
  (key : string) (col : string) :
  isBlank (row_get r col) = true ->
  forall st,
    obj_get (outputs (project_key localeCols i r st key)) col =
    obj_get (outputs st) col.
Proof.
  intros Hb. unfold project_key.
  induction localeCols as [|c cols IH]; intros st; simpl; auto.
  rewrite IH. destruct (String.eqb_spec c col) as [->|Hne].
  - rewrite project_cell_blank; auto.
  - apply project_cell_other. exact Hne.
Qed.

Lemma project_row_blank (keyColName : string) (localeCols : list string)
  (i : nat) (r : row) (col : string) (st : state) :
  isBlank (row_get r col) = true ->
  obj_get (outputs (project_row keyColName localeCols i r st)) col =
  obj_get (outputs st) col.
Proof.
  intros Hb. unfold project_row.
  assert (H : forall keys st0,
    obj_get (outputs (fold_left (project_key localeCols i r) keys st0)) col =
    obj_get (outputs st0) col).
  { induction keys as [|k keys IH]; intros st0; simpl; auto.
    rewrite IH. apply project_key_blank. exact Hb. }
  destruct (splitMultiKey (row_get r keyColName)); auto.
Qed.

Lemma project_cell_warnings (i : nat) (r : row) (key : string) (st : state)
  (col : string) (w : warning) :
  In w (warnings st) -> In w (warnings (project_cell i r key st col)).
Proof.
  intros H. unfold project_cell. destruct (isBlank (row_get r col)); auto.
  destruct (setDeep _ key _) as [tree [e|]]; simpl; auto.
  apply in_or_app. auto.
Qed.

Lemma project_cells_warnings (i : nat) (r : row) (key : string)
  (cols : list string) (w : warning) :
  forall st,
    In w (warnings st) ->
    In w (warnings (fold_left (project_cell i r key) cols st)).
Proof.
  induction cols as [|c cols IH]; intros st H; simpl; auto.
  apply IH. apply project_cell_warnings. exact H.
Qed.

Lemma project_keys_warnings (localeCols : list string) (i : nat) (r : row)
  (keys : list string) (w : warning) :
  forall st,
    In w (warnings st) ->
    In w (warnings (fold_left (project_key localeCols i r) keys st)).
Proof.
  induction keys as [|k keys IH]; intros st H; simpl; auto.
  apply IH. apply project_cells_warnings. exact H.
Qed.

Lemma project_row_warnings (keyColName : string) (localeCols : list string)
  (i : nat) (r : row) (st : state) (w : warning) :
  In w (warnings st) ->
  In w (warnings (project_row keyColName localeCols i r st)).
Proof.
  intros H. unfold project_row.
  destruct (splitMultiKey (row_get r keyColName)) as [|k keys] eqn:E; auto.
  apply project_keys_warnings. exact H.
Qed.

Lemma project_rows_warnings (keyColName : string) (localeCols : list string)
  (rows : list row) (w : warning) :
  forall i st,
    In w (warnings st) ->
    In w (warnings (project_rows keyColName localeCols i rows st)).
Proof.
  induction rows as [|r rows IH]; intros i st H; simpl; auto.
  apply IH. apply project_row_warnings. exact H.
Qed.

(** *** The scenarios of the design document *)

Example parseKey_scenarios :
  parseKey "a.b.c" = [TProp "a"; TProp "b"; TProp "c"] /\
  parseKey "items[0].name" = [TProp "items"; TIndex 0; TProp "name"] /\
  parseKey ".a..b" = [TProp "a"; TProp "b"] /\
  parseKey "a[x]" = [TProp "a"; TProp "x]"] /\
  parseKey "[]" = [TProp "]"].
Proof. repeat split. Qed.

Example setDeep_nested_objects :
  setDeep (VObj []) "a.b.c" (VStr "Hello") =
  (VObj [("a", VObj [("b", VObj [("c", VStr "Hello")])])], None).
Proof. reflexivity. Qed.

Example setDeep_array_of_objects :
  let t1 := fst (setDeep (VObj []) "items[0].name" (VStr "X")) in
  setDeep t1 "items[1].name" (VStr "Y") =
  (VObj [("items",
          VArr [VObj [("name", VStr "X")]; VObj [("name", VStr "Y")]] [])],
   None).
Proof. reflexivity. Qed.

Example setDeep_leaves_holes :
  setDeep (VObj []) "a[2]" (VStr "Y") =
  (VObj [("a", VArr [VUndef; VUndef; VStr "Y"] [])], None).
Proof. reflexivity. Qed.

Example project_multi_key :
  project "Key" ["loc:EN"] [[("Key", CStr "a,b"); ("loc:EN", CStr "V")]] =
  State [("loc:EN", VObj [("a", VStr "V"); ("b", VStr "V")])] [].
Proof. reflexivity. Qed.

(** *** The properties of the builder and of the projection *)

(** C5: an index token that is not the last keeps a child of the wrong
    kind.  After [a[0].b], the path [a[0][1]] writes into the object at
    [a[0]], and after [a[0][0]], the path [a[0].b.c] gives the array at
    [a[0]] a property; the property token of [a[1]] replaces the object at
    [a] by an array. *)
Theorem setDeep_index_step_keeps_wrong_kind :
  let root := fst (setDeep (VObj []) "a[0].b" (VStr "x")) in
  let root' := fst (setDeep (VObj []) "a[0][0]" (VStr "x")) in
  root = VObj [("a", VArr [VObj [("b", VStr "x")]] [])] /\
  setDeep root "a[0][1]" (VStr "y") =
    (VObj [("a", VArr [VObj [("1", VStr "y"); ("b", VStr "x")]] [])], None) /\
  root' = VObj [("a", VArr [VArr [VStr "x"] []] [])] /\
  setDeep root' "a[0].b.c" (VStr "y") =
    (VObj [("a", VArr [VArr [VStr "x"] [("b", VObj [("c", VStr "y")])]] [])],
     None) /\
  setDeep (VObj [("a", VObj [("b", VStr "x")])]) "a[1]" (VStr "y") =
    (VObj [("a", VArr [VUndef; VStr "y"] [])], None).
Proof. repeat split. Qed.

(** Whatever [setDeep] throws for a row, a key and a column becomes one
    warning with the row number plus two, the column and the key; the loop
    goes on with the columns that are left, and the warning is still there
    after the keys and the rows that are left. *)
Lemma setDeep_failure_becomes_warning
  (i : nat) (r : row) (key : string) (st : state) (col : string)
  (tree : value) (e : error) :
  isBlank (row_get r col) = false ->
  setDeep (or_undefined (obj_get (outputs st) col)) key
    (VStr (String_ (row_get r col))) = (tree, Some e) ->
  project_cell i r key st col =
    State (obj_update (outputs st) col tree)
      (warnings st ++ [Warning (i + 2) col key e]) /\
  (forall cols,
     fold_left (project_cell i r key) (col :: cols) st =
     fold_left (project_cell i r key) cols
       (State (obj_update (outputs st) col tree)
          (warnings st ++ [Warning (i + 2) col key e]))) /\
  (forall cols keyColName localeCols keys rows,
     In (Warning (i + 2) col key e)
       (warnings
          (project_rows keyColName localeCols (S i) rows
             (fold_left (project_key localeCols i r) keys
                (fold_left (project_cell i r key) (col :: cols) st))))).
Proof.
  intros Hb Hs.
  assert (Hcell : project_cell i r key st col =
                  State (obj_update (outputs st) col tree)
                    (warnings st ++ [Warning (i + 2) col key e])).
  { unfold project_cell. rewrite Hb, Hs. reflexivity. }
  split; [exact Hcell | split].
  - intros cols. simpl. rewrite Hcell. reflexivity.
  - intros cols keyColName localeCols keys rows.
    apply project_rows_warnings, project_keys_warnings.
    simpl. apply project_cells_warnings. rewrite Hcell. simpl.
    apply in_or_app. right. simpl. auto.
Qed.

Example setDeep_failure_becomes_warning_at :
  let r : row := [("Key", CStr "[0].x"); ("loc:EN", CStr "E")] in
  let st := initial_state ["loc:EN"] in
  isBlank (row_get r "loc:EN") = false /\
  setDeep (or_undefined (obj_get (outputs st) "loc:EN")) "[0].x"
    (VStr (String_ (row_get r "loc:EN"))) = (VObj [], Some ExpectedArray) /\
  project_cell 0 r "[0].x" st "loc:EN" =
    State (obj_update (outputs st) "loc:EN" (VObj []))
      (warnings st ++ [Warning (0 + 2) "loc:EN" "[0].x" ExpectedArray]).
Proof.
  intros r st. split; [reflexivity | split; [reflexivity |]].
  exact (proj1 (setDeep_failure_becomes_warning 0 r "[0].x" st
                  "loc:EN" (VObj []) ExpectedArray eq_refl eq_refl)).
Qed.

(** C6: an index token that is the last meets a container that is not an
    array, and [setDeep] does not fail.  The test [Array.isArray(cur)]
    guards the index tokens before the last only; for the last token the
    loop assigns and returns before it, so the key [[0]] on the empty
    object of a locale defines the property [0]. *)
Theorem last_index_step_on_object_succeeds :
  visits (VObj []) (parseKey "[0]") = [(VObj [], TIndex 0, true)] /\
  Exists index_on_non_array (visits (VObj []) (parseKey "[0]")) /\
  setDeep (VObj []) "[0]" (VStr "v") = (VObj [("0", VStr "v")], None) /\
  setDeep (VObj []) "[0].x" (VStr "v") = (VObj [], Some ExpectedArray).
Proof.
  split; [reflexivity | split; [|split; reflexivity]].
  apply Exists_cons_hd. split; reflexivity.
Qed.

(** C7, as the code has it: for a key without tokens [parseKey] returns the
    empty array and [setDeep] returns without an error and without a change
    to the tree. *)
Theorem setDeep_empty_path_is_no_op (obj : value) (key : string) (v : value) :
  parseKey key = [] ->
  only_separators key = true /\ setDeep obj key v = (obj, None).
Proof.
  intros H. split; [apply parseKey_nil; exact H|].
  unfold setDeep. rewrite H. reflexivity.
Qed.

Lemma setDeep_empty_path_is_no_op_witness :
  parseKey ".[" = [] /\
  setDeep (VObj [("a", VStr "x")]) ".[" (VStr "v") =
    (VObj [("a", VStr "x")], None).
Proof.
  split; [reflexivity|].
  exact (proj2 (setDeep_empty_path_is_no_op (VObj [("a", VStr "x")]) ".["
                  (VStr "v") eq_refl)).
Defined.

(** C7 as stated fails: the empty key has no tokens, and neither the parser
    nor [setDeep] fails on it. *)
Lemma empty_path_does_not_fail :
  parseKey "" = [] /\ snd (setDeep (VObj []) "" (VStr "v")) = None.
Proof. split; reflexivity. Qed.



(** C9: a cell that is [undefined], [null] or white space after coercion
    to a string is blank; the triple of a blank cell leaves the state as it
    is, and the whole row leaves the tree of that column as it is. *)
Theorem blank_cell_is_skipped (r : row) (col : string) :
  row_get r col = CUndefined \/ row_get r col = CNull \/
  all_space (String_ (row_get r col)) = true ->
  isBlank (row_get r col) = true /\
  (forall i key st, project_cell i r key st col = st) /\
  (forall keyColName localeCols i st,
     obj_get (outputs (project_row keyColName localeCols i r st)) col =
     obj_get (outputs st) col).
Proof.
  intros H. apply isBlank_spec in H. split; [exact H | split].
  - intros i key st. apply project_cell_blank. exact H.
  - intros keyColName localeCols i st. apply project_row_blank. exact H.
Qed.

Lemma blank_cell_is_skipped_witness :
  let nbsp := String (ascii_of_nat 194) (String (ascii_of_nat 160) "") in
  let em_space :=
    String (ascii_of_nat 226)
      (String (ascii_of_nat 128) (String (ascii_of_nat 131) "")) in
  let r : row := [("Key", CStr "a.b,c"); ("loc:EN", CStr "Hello");
                  ("loc:FR", CStr (" " ++ nbsp ++ em_space ++ " "))] in
  let st := State [("loc:EN", VObj []); ("loc:FR", VObj [("a", VStr "old")])]
              [] in
  all_space (String_ (row_get r "loc:FR")) = true /\
  obj_get (outputs (project_row "Key" ["loc:EN"; "loc:FR"] 0 r st)) "loc:FR" =
  obj_get (outputs st) "loc:FR".
Proof.
  intros nbsp em_space r st. split; [reflexivity|].
  exact (proj2 (proj2 (blank_cell_is_skipped r "loc:FR"
                         (or_intror (or_intror eq_refl))))
           "Key" ["loc:EN"; "loc:FR"] 0 st).
Defined.

End GenFacts.

(* ================================================================== *)
(** ** More about sync-structure.mjs *)
(* ================================================================== *)

Module SyncMore.
Import Js Yaml SyncStructure JsFacts SyncFacts.
Unset Implicit Arguments.

(** X1: the tree that [reorderLike] returns depends neither on the key path
    nor on the report that it is given, and the report is only appended to. *)
Theorem reorderLike_appends_to_report
  (mode : string) (ref : value) (tgt : option value) (keyPath : string)
  (st : stats) :
  let alone := reorderLike mode ref tgt keyPath no_stats in
  reorderLike mode ref tgt keyPath st =
  (fst (reorderLike mode ref tgt "" no_stats),
   Stats (missing st ++ missing (snd alone)) (extra st ++ extra (snd alone))).
Proof. apply reorderLike_acc. Qed.

(** X2: the merge of two documents is a document: its mappings have distinct
    keys in enumeration order. *)
Theorem reorderLike_returns_document
  (mode : string) (ref tgt : value) (keyPath : string) (st : stats) :
  wf ref -> wf tgt ->
  wf (fst (reorderLike mode ref (Some tgt) keyPath st)).
Proof.
  intros Href Htgt. rewrite fst_reorderLike.
  apply merged_wf; assumption.
Qed.

Lemma reorderLike_returns_document_witness :
  let ref := JObj [("2", JNum 0); ("b", JArr [JStr "x"])] in
  let tgt := JObj [("1", JNull); ("5", JNull); ("a", JObj [("7", JNull)])] in
  wf ref /\ wf tgt /\
  wf (fst (reorderLike "blank" ref (Some tgt) "" no_stats)).
Proof.
  intros ref tgt.
  assert (Href : wf ref) by (apply wfb_sound; reflexivity).
  assert (Htgt : wf tgt) by (apply wfb_sound; reflexivity).
  split; [exact Href | split; [exact Htgt |]].
  exact (reorderLike_returns_document "blank" ref tgt "" no_stats Href Htgt).
Defined.

(** *** A document merged with itself *)

Lemma zip_elements_same (mode : string) (l : list value) :
  Forall (fun r => merged mode r (Some r) = r) l ->
  zip_elements (merged mode) l l = l.
Proof.
  induction 1 as [|r l Hr Hl IH]; simpl; congruence.
Qed.

Lemma array_report_same (mode : string) (kp : string) (l : list value) :
  Forall (fun r => forall p, report mode r (Some r) p = no_stats) l ->
  forall i, array_report mode kp l l i = no_stats.
Proof.
  induction 1 as [|r l Hr Hl IH]; intros i.
  - reflexivity.
  - rewrite array_report_present, present_report_eq, IH.
    destruct (isContainer r); [rewrite Hr|]; reflexivity.
Qed.

Lemma ref_keys_report_same (mode : string) (kp : string) (o refs : obj value) :
  Forall (fun kv =>
            target_value o (fst kv) = Some (snd kv) /\
            forall p, report mode (snd kv) (Some (snd kv)) p = no_stats)
    refs ->
  ref_keys_report mode kp o refs = no_stats.
Proof.
  induction 1 as [|[k r] refs [Hk Hr] Hrefs IH].
  - reflexivity.
  - simpl in Hk, Hr. rewrite ref_keys_report_cons, IH.
    unfold entry_report. rewrite Hk, present_report_eq.
    destruct (isContainer r); [rewrite Hr|]; reflexivity.
Qed.

Lemma target_only_same (A : Type) (o : obj A) :
  keep (fun k => negb (obj_in o k)) o = [].
Proof.
  apply keep_none. intros k Hk.
  apply obj_has_true_iff in Hk. unfold obj_in. rewrite Hk. reflexivity.
Qed.

Lemma merged_same (mode : string) (r : value) :
  wf r -> no_proto_key r = true ->
  merged mode r (Some r) = r /\
  forall p, report mode r (Some r) p = no_stats.
Proof.
  induction r as [| | | | |l IH|o IH] using value_tree_ind;
    try (intros _ _; split; reflexivity).
  - intros Hwf Hnp. apply wf_arr in Hwf. apply keys_all_arr in Hnp.
    assert (Hall : Forall (fun r => merged mode r (Some r) = r /\
                             forall p, report mode r (Some r) p = no_stats)
                     l).
    { rewrite Forall_forall in *. auto. }
    split.
    + rewrite merged_arr. simpl. f_equal. apply zip_elements_same.
      eapply Forall_impl; [|exact Hall]. simpl. tauto.
    + intros p. rewrite report_arr. simpl. apply array_report_same.
      eapply Forall_impl; [|exact Hall]. simpl. tauto.
  - intros Hwf Hnp. pose proof Hwf as Hwf'.
    apply wf_obj in Hwf. destruct Hwf as [Ho Hall].
    pose proof Hnp as Hkeys. apply keys_all_obj in Hkeys.
    assert (Hentries : Forall (fun kv =>
              target_value o (fst kv) = Some (snd kv) /\
              merged mode (snd kv) (Some (snd kv)) = snd kv /\
              forall p, report mode (snd kv) (Some (snd kv)) p = no_stats)
              o).
    { rewrite Forall_forall in *. intros [k c] Hin. simpl. split.
      - apply target_value_own. apply obj_get_of_in; [apply Ho | exact Hin].
      - apply (IH (k, c) Hin); [apply (Hall (k, c) Hin)|].
        apply (Hkeys (k, c) Hin). }
    assert (Href : ref_entries mode o o = o).
    { unfold ref_entries.
      transitivity (map (fun kv : string * value => kv) o); [|apply map_id].
      apply map_ext_in. intros [k c] Hin. simpl.
      rewrite Forall_forall in Hentries.
      destruct (Hentries (k, c) Hin) as (Hk & Hm & _). simpl in *.
      rewrite Hk, Hm. reflexivity. }
    split.
    + rewrite merged_obj, (storable_ref_entries mode _ o Hnp).
      simpl target_object.
      rewrite Href, target_only_keep, target_only_same, app_nil_r.
      f_equal. apply obj_assign_nil_wf. exact Ho.
    + intros p. rewrite report_obj. simpl target_object.
      rewrite target_only_keep, target_only_same. simpl.
      rewrite (ref_keys_report_same mode p o o).
      * reflexivity.
      * eapply Forall_impl; [|exact Hentries]. simpl. tauto.
Qed.

(** X3: a document without the key [__proto__], merged with itself as
    reference, comes back as it is, and nothing is added to the report. *)
Theorem reorderLike_same_document
  (mode : string) (doc : value) (keyPath : string) (st : stats) :
  wf doc -> no_proto_key doc = true ->
  reorderLike mode doc (Some doc) keyPath st = (doc, st).
Proof.
  intros Hwf Hnp. rewrite reorderLike_acc.
  destruct (merged_same mode doc Hwf Hnp) as [-> ->].
  rewrite stats_app_nil_r. reflexivity.
Qed.

Lemma reorderLike_same_document_witness :
  let doc := JObj [("3", JArr [JNum 1; JObj [("x", JNull)]]);
                   ("a", JStr "A"); ("toString", JObj [])] in
  wf doc /\ no_proto_key doc = true /\
  reorderLike "null" doc (Some doc) "k" no_stats = (doc, no_stats).
Proof.
  intros doc.
  assert (Hwf : wf doc) by (apply wfb_sound; reflexivity).
  split; [exact Hwf|]. split; [reflexivity|].
  exact (reorderLike_same_document "null" doc "k" no_stats Hwf eq_refl).
Defined.

(** *** The keys and the length of the result *)

Lemma obj_keys_assign_in (A : Type) (l : obj A) :
  forall o x,
    In x (obj_keys (obj_assign o l)) <-> In x (obj_keys o) \/ In x (obj_keys l).
Proof.
  induction l as [|[k v] l IH]; simpl; intros o x.
  - tauto.
  - rewrite IH, obj_keys_set_in. intuition.
Qed.

Lemma obj_has_orb (A B C : Type) (o : obj A) (o1 : obj B) (o2 : obj C)
  (k : string) :
  (In k (obj_keys o) <-> In k (obj_keys o1) \/ In k (obj_keys o2)) ->
  obj_has o k = (obj_has o1 k || obj_has o2 k)%bool.
Proof.
  rewrite <- !obj_has_true_iff.
  destruct (obj_has o k), (obj_has o1 k), (obj_has o2 k); simpl;
    intuition congruence.
Qed.

(** X4: the own keys of the object that [reorderLike] returns for a
    reference object are the keys of the reference other than [__proto__],
    and the keys of the target object that are not the name of a member of
    [Object.prototype]; it has no other. *)
Theorem reorderLike_object_keys
  (mode : string) (refObj : obj value) (tgt : option value)
  (keyPath : string) (st : stats) :
  exists out,
    fst (reorderLike mode (JObj refObj) tgt keyPath st) = JObj out /\
    forall k,
      obj_has out k =
      ((obj_has refObj k && negb (String.eqb k "__proto__")) ||
       (obj_has (target_object tgt) k && negb (inherited k)))%bool.
Proof.
  rewrite fst_reorderLike, merged_obj. eexists. split; [reflexivity|].
  intros k. apply eq_iff_eq_true.
  rewrite orb_true_iff, !andb_true_iff, !negb_true_iff, !obj_has_true_iff.
  rewrite obj_keys_assign_in, obj_keys_app, in_app_iff, target_only_key.
  rewrite obj_keys_storable, filter_In, obj_keys_ref_entries.
  rewrite negb_true_iff, obj_has_false_iff. simpl (In k (obj_keys [])).
  destruct (String.eqb_spec k "__proto__") as [->|Hne].
  - rewrite inherited_proto. intuition congruence.
  - destruct (in_dec string_dec k (obj_keys refObj)); intuition.
Qed.

Lemma length_zip_elements (f : value -> option value -> value)
  (refs : list value) :
  forall tgts,
    List.length (zip_elements f refs tgts) =
    Nat.max (List.length refs) (List.length tgts).
Proof.
  induction refs as [|r refs IH]; intros tgts; simpl; auto.
  destruct tgts as [|t tgts]; simpl; rewrite IH; simpl; auto.
  rewrite Nat.max_0_r. reflexivity.
Qed.

(** X5: the array that [reorderLike] returns for a reference array is as long
    as the longer of the reference array and the target array. *)
Theorem reorderLike_array_length
  (mode : string) (refArr : list value) (tgt : option value)
  (keyPath : string) (st : stats) :
  exists out,
    fst (reorderLike mode (JArr refArr) tgt keyPath st) = JArr out /\
    List.length out =
    Nat.max (List.length refArr) (List.length (target_array tgt)).
Proof.
  rewrite fst_reorderLike, merged_arr. eexists. split; [reflexivity|].
  apply length_zip_elements.
Qed.

(** *** The order of the keys of the result *)

(** X6: in the object that [reorderLike] returns, the keys of the reference
    are in the order of the reference, without [__proto__], and the keys
    that the second loop copies from the target are in the order of the
    target. *)
Theorem reorderLike_keeps_both_orders
  (mode : string) (refObj tgtObj : obj value) (keyPath : string)
  (st : stats) :
  wf (JObj refObj) -> wf (JObj tgtObj) ->
  exists out,
    fst (reorderLike mode (JObj refObj) (Some (JObj tgtObj)) keyPath st) =
      JObj out /\
    filter (obj_has refObj) (obj_keys out) =
      filter (fun k => negb (String.eqb k "__proto__")) (obj_keys refObj) /\
    filter (fun k => negb (obj_has refObj k)) (obj_keys out) =
      filter (fun k => negb (obj_in refObj k)) (obj_keys tgtObj).
Proof.
  intros Href Htgt.
  apply wf_obj in Href. destruct Href as [Href _].
  apply wf_obj in Htgt. destruct Htgt as [Htgt _].
  rewrite fst_reorderLike, merged_obj. simpl target_object.
  eexists. split; [reflexivity|].
  assert (Hin : forall k,
            In k (obj_keys (storable (ref_entries mode tgtObj refObj))) ->
            obj_has refObj k = true).
  { intros k Hk. rewrite obj_keys_storable in Hk. apply filter_In in Hk.
    destruct Hk as [Hk _]. rewrite obj_keys_ref_entries in Hk.
    apply obj_has_true_iff. exact Hk. }
  assert (Hout : forall k,
            In k (obj_keys (target_only refObj tgtObj)) ->
            obj_has refObj k = false).
  { intros k Hk. apply target_only_key in Hk. tauto. }
  split.
  - rewrite <- obj_keys_keep, keep_assign by constructor.
    rewrite keep_app, (keep_all (obj_has refObj) _ Hin).
    rewrite (@keep_none _ (obj_has refObj) (target_only refObj tgtObj) Hout).
    rewrite app_nil_r. simpl. rewrite obj_assign_nil_wf.
    + rewrite obj_keys_storable, obj_keys_ref_entries. reflexivity.
    + apply obj_wf_storable_entries. exact Href.
  - rewrite <- obj_keys_keep, keep_assign by constructor.
    rewrite keep_app.
    rewrite (@keep_none _ (fun k => negb (obj_has refObj k))
               (storable (ref_entries mode tgtObj refObj))).
    + rewrite (keep_all (fun k => negb (obj_has refObj k))
                 (target_only refObj tgtObj)).
      * simpl. rewrite obj_assign_nil_wf.
        -- rewrite target_only_keep. apply obj_keys_keep.
        -- rewrite target_only_keep. apply obj_wf_keep. exact Htgt.
      * intros k Hk. rewrite (Hout k Hk). reflexivity.
    + intros k Hk. rewrite (Hin k Hk). reflexivity.
Qed.

Lemma reorderLike_keeps_both_orders_witness :
  let refObj := [("2", JNum 0); ("b", JNum 1); ("__proto__", JNum 3);
                 ("a", JNum 2)] in
  let tgtObj := [("1", JNull); ("5", JNull); ("z", JNull); ("a", JStr "A");
                 ("valueOf", JNull); ("c", JNull)] in
  wf (JObj refObj) /\ wf (JObj tgtObj) /\
  exists out,
    fst (reorderLike "ref" (JObj refObj) (Some (JObj tgtObj)) "" no_stats) =
      JObj out /\
    filter (obj_has refObj) (obj_keys out) =
      filter (fun k => negb (String.eqb k "__proto__")) (obj_keys refObj) /\
    filter (fun k => negb (obj_has refObj k)) (obj_keys out) =
      filter (fun k => negb (obj_in refObj k)) (obj_keys tgtObj).
Proof.
  intros refObj tgtObj.
  assert (Href : wf (JObj refObj)) by (apply wfb_sound; reflexivity).
  assert (Htgt : wf (JObj tgtObj)) by (apply wfb_sound; reflexivity).
  split; [exact Href | split; [exact Htgt |]].
  exact (reorderLike_keeps_both_orders "ref" refObj tgtObj "" no_stats
           Href Htgt).
Defined.

(** *** The keys and the elements that only the target has *)

Lemma reorderLike_keeps_target_only_keys_witness :
  let refObj := [("a", JNum 1)] in
  let tgtObj := [("7", JStr "seven"); ("a", JNum 2); ("b", JArr [JNull])] in
  wf (JObj refObj) /\ wf (JObj tgtObj) /\
  let result :=
    reorderLike "empty" (JObj refObj) (Some (JObj tgtObj)) "p" no_stats in
  lookup (fst result) [Key "7"] = Some (JStr "seven") /\
  In (key_path "p" "7") (extra (snd result)).
Proof.
  intros refObj tgtObj.
  assert (Href : wf (JObj refObj)) by (apply wfb_sound; reflexivity).
  assert (Htgt : wf (JObj tgtObj)) by (apply wfb_sound; reflexivity).
  split; [exact Href | split; [exact Htgt |]].
  exact (proj1 (@reorderLike_keeps_target_only_keys "empty" refObj tgtObj
                  "p" Href Htgt)
           "7" (JStr "seven") eq_refl eq_refl eq_refl).
Defined.

Lemma reorderLike_keeps_target_only_elements_witness :
  let refArr := [JNum 1] in
  let tgtArr := [JNum 5; JStr "six"; JNull] in
  List.length refArr <= 2 /\ nth_error tgtArr 2 = Some JNull /\
  let result :=
    reorderLike "empty" (JArr refArr) (Some (JArr tgtArr)) "p" no_stats in
  lookup (fst result) [Idx 2] = Some JNull /\
  In (index_path "p" 2) (extra (snd result)).
Proof.
  intros refArr tgtArr.
  assert (Hlen : List.length refArr <= 2) by (simpl; lia).
  split; [exact Hlen | split; [reflexivity |]].
  exact (@reorderLike_keeps_target_only_elements "empty" refArr tgtArr "p"
           2 JNull Hlen eq_refl).
Defined.

(** *** When nothing is reported missing *)

Lemma covers_leaf (r t : value) : isContainer r = false -> covers t r.
Proof.
  intros Hc [|s p] Hp; [discriminate|].
  exfalso. apply Hp. destruct r; try discriminate; destruct s; reflexivity.
Qed.

Lemma covers_arr (l : list value) (t : value) :
  covers t (JArr l) <->
  forall j r, nth_error l j = Some r ->
    exists tv, nth_error (target_array (Some t)) j = Some tv /\ covers tv r.
Proof.
  split.
  - intros H j r Hj.
    assert (Hp : forall p, lookup r p <> None ->
                           lookup t (Idx j :: p) <> None).
    { intros p Hp. apply H. simpl. rewrite Hj. exact Hp. }
    pose proof (Hp [] ltac:(discriminate)) as H0.
    destruct t as [| | | | |tl|to]; try (exfalso; apply H0; reflexivity).
    simpl in *. destruct (nth_error tl j) as [tv|] eqn:Htv; [|congruence].
    exists tv. split; [reflexivity|]. intros p Hr. apply (Hp p Hr).
  - intros H [|[k|j] p] Hp; simpl in *; try congruence.
    destruct (nth_error l j) as [r|] eqn:Hj; [|congruence].
    destruct (H j r Hj) as (tv & Htv & Hc).
    destruct t as [| | | | |tl|to]; simpl in Htv;
      try (destruct j; discriminate).
    rewrite Htv. apply Hc. exact Hp.
Qed.

Lemma covers_obj (o : obj value) (t : value) :
  covers t (JObj o) <->
  forall k r, obj_get o k = Some r ->
    exists tv, obj_get (target_object (Some t)) k = Some tv /\ covers tv r.
Proof.
  split.
  - intros H k r Hk.
    assert (Hp : forall p, lookup r p <> None ->
                           lookup t (Key k :: p) <> None).
    { intros p Hp. apply H. simpl. rewrite Hk. exact Hp. }
    pose proof (Hp [] ltac:(discriminate)) as H0.
    destruct t as [| | | | |tl|to]; try (exfalso; apply H0; reflexivity).
    simpl in *. destruct (obj_get to k) as [tv|] eqn:Htv; [|congruence].
    exists tv. split; [reflexivity|]. intros p Hr. apply (Hp p Hr).
  - intros H [|[k|j] p] Hp; simpl in *; try congruence.
    destruct (obj_get o k) as [r|] eqn:Hk; [|congruence].
    destruct (H k r Hk) as (tv & Htv & Hc).
    destruct t as [| | | | |tl|to]; simpl in Htv; try discriminate.
    rewrite Htv. apply Hc. exact Hp.
Qed.

Lemma missing_fill_report (mode : string) (r : value) (p : string) :
  missing (fill_report mode r p) <> [].
Proof.
  rewrite fill_report_eq, missing_stats_app. simpl.
  intros H. apply app_eq_nil in H. destruct H. discriminate.
Qed.

Lemma missing_present_report (mode : string) (r t : value) (p : string) :
  (forall t p, missing (report mode r (Some t) p) = [] <-> covers t r) ->
  (missing (present_report mode r t p) = [] <-> covers t r).
Proof.
  intros IH. rewrite present_report_eq.
  destruct (isContainer r) eqn:Hc; [apply IH|].
  split; [intros _; apply covers_leaf; exact Hc | reflexivity].
Qed.

Lemma missing_array_report (mode : string) (kp : string) (l : list value) :
  Forall (fun r => forall t p,
            missing (report mode r (Some t) p) = [] <-> covers t r) l ->
  forall tl i,
    missing (array_report mode kp l tl i) = [] <->
    forall j r, nth_error l j = Some r ->
      exists tv, nth_error tl j = Some tv /\ covers tv r.
Proof.
  induction 1 as [|r l Hr Hl IH]; intros tl i.
  - rewrite array_report_nil, array_extra_missing. simpl.
    split; auto. intros _ j r Hj. destruct j; discriminate.
  - destruct tl as [|t tl].
    + rewrite array_report_missing, missing_stats_app. split.
      * intros H. apply app_eq_nil in H. destruct H as [H _].
        exfalso. eapply missing_fill_report. eassumption.
      * intros H. destruct (H 0 r eq_refl) as (tv & Htv & _). discriminate.
    + rewrite array_report_present, missing_stats_app. split.
      * intros H. apply app_eq_nil in H. destruct H as [H1 H2].
        apply (proj1 (missing_present_report mode r t _ Hr)) in H1.
        pose proof (proj1 (IH tl (S i)) H2) as H3.
        intros [|j] r' Hj; simpl in *.
        -- inversion Hj. subst. exists t. auto.
        -- apply H3. exact Hj.
      * intros H.
        destruct (H 0 r eq_refl) as (tv & Htv & Hc). simpl in Htv.
        inversion Htv. subst tv.
        apply (proj2 (missing_present_report mode r t (index_path kp i) Hr))
          in Hc.
        rewrite Hc. simpl. apply (proj2 (IH tl (S i))).
        intros j r' Hj. apply (H (S j) r' Hj).
Qed.

Lemma missing_ref_keys_report (mode : string) (kp : string)
  (to refs : obj value) :
  Forall (fun kv =>
            inherited (fst kv) = false /\
            forall t p,
              missing (report mode (snd kv) (Some t) p) = [] <->
              covers t (snd kv)) refs ->
  (missing (ref_keys_report mode kp to refs) = [] <->
   forall k r, In (k, r) refs ->
     exists tv, obj_get to k = Some tv /\ covers tv r).
Proof.
  induction 1 as [|[k r] refs [Hk Hr] Hrefs IH].
  - split; [intros _ k r [] | reflexivity].
  - simpl in Hr, Hk. rewrite ref_keys_report_cons, missing_stats_app.
    unfold entry_report. rewrite (target_value_plain to k Hk). split.
    + intros H. apply app_eq_nil in H. destruct H as [H1 H2].
      destruct (obj_get to k) as [tv|] eqn:Htv.
      * apply (proj1 (missing_present_report mode r tv _ Hr)) in H1.
        intros k' r' [Heq|Hin].
        -- inversion Heq. subst. exists tv. auto.
        -- apply (proj1 IH H2). exact Hin.
      * exfalso. eapply missing_fill_report. eassumption.
    + intros H. destruct (H k r (or_introl eq_refl)) as (tv & Htv & Hc).
      rewrite Htv.
      apply (proj2 (missing_present_report mode r tv (key_path kp k) Hr))
        in Hc.
      rewrite Hc. simpl. apply (proj2 IH).
      intros k' r' Hin. apply H. right. exact Hin.
Qed.

Lemma report_missing_covers (mode : string) (r : value) :
  wf r -> plain_keys r = true ->
  forall t p, missing (report mode r (Some t) p) = [] <-> covers t r.
Proof.
  induction r as [| | | | |l IH|o IH] using value_tree_ind;
    try (intros _ _ t p; split;
         [intros _; apply covers_leaf; reflexivity | reflexivity]).
  - intros Hwf Hpl t p. apply wf_arr in Hwf. apply keys_all_arr in Hpl.
    rewrite report_arr, covers_arr. apply missing_array_report.
    rewrite Forall_forall in *. auto.
  - intros Hwf Hpl t p. apply wf_obj in Hwf. destruct Hwf as [[Hnd _] Hall].
    apply keys_all_obj in Hpl.
    rewrite report_obj, missing_stats_app, covers_obj. simpl missing.
    rewrite app_nil_r, missing_ref_keys_report.
    + split; intros H k r Hk.
      * apply H. apply obj_get_some_in. exact Hk.
      * apply H. apply obj_get_of_in; assumption.
    + rewrite Forall_forall in *. intros kv Hin.
      destruct (Hpl kv Hin) as [Hk Hv]. apply negb_true_iff in Hk.
      split; [exact Hk|]. apply IH; auto.
Qed.

(** X9: for a reference none of whose keys is the name of a member of
    [Object.prototype], the report says that nothing is missing exactly
    when every position of the reference is a position of the target. *)
Theorem reorderLike_nothing_missing
  (mode : string) (ref tgt : value) (keyPath : string) :
  wf ref -> plain_keys ref = true ->
  (missing (snd (reorderLike mode ref (Some tgt) keyPath no_stats)) = [] <->
   forall p, lookup ref p <> None -> lookup tgt p <> None).
Proof.
  intros Hwf Hpl. apply (report_missing_covers mode ref Hwf Hpl tgt keyPath).
Qed.

Lemma reorderLike_nothing_missing_witness :
  let ref := JObj [("a", JArr [JNum 1; JObj [("x", JNull)]]); ("b", JStr "")] in
  let tgt := JObj [("b", JNull);
                   ("a", JArr [JStr "s"; JObj [("x", JNum 0)]])] in
  wf ref /\ plain_keys ref = true /\
  (missing (snd (reorderLike "ref" ref (Some tgt) "" no_stats)) = [] <->
   forall p, lookup ref p <> None -> lookup tgt p <> None).
Proof.
  intros ref tgt.
  assert (Hwf : wf ref) by (apply wfb_sound; reflexivity).
  split; [exact Hwf|]. split; [reflexivity|].
  exact (reorderLike_nothing_missing "ref" ref tgt "" Hwf eq_refl).
Defined.

End SyncMore.

(* ================================================================== *)
(** ** More about generate-locale.mjs *)
(* ================================================================== *)

Module GenMore.
Import Js GenerateLocale JsFacts GenFacts.
Unset Implicit Arguments.

(** *** The tokens of a key *)

Lemma take_run_no_separator (s : string) :
  no_separator (fst (take_run s)) = true.
Proof.
  induction s as [|c s IH]; simpl; auto.
  destruct (is_dot c || is_lbracket c)%bool eqn:E; simpl; auto.
  destruct (take_run s) as [run rest]. simpl in *. rewrite E, IH. reflexivity.
Qed.

Lemma parse_from_props (fuel : nat) :
  forall s name,
    In (TProp name) (parse_from fuel s) ->
    name <> EmptyString /\ no_separator name = true.
Proof.
  induction fuel as [|fuel IH]; intros s name Hin; [destruct Hin|].
  destruct s as [|c s]; [destruct Hin|].
  cbn [parse_from] in Hin.
  destruct (is_dot c) eqn:Hdot; [eapply IH; eassumption|].
  destruct (is_lbracket c) eqn:Hbr.
  - destruct (match_index s) as [[n rest]|].
    + destruct Hin as [Hin|Hin]; [discriminate | eapply IH; eassumption].
    + eapply IH; eassumption.
  - pose proof (take_run_no_separator (String c s)) as Hrun.
    destruct (take_run (String c s)) as [run rest] eqn:E.
    destruct Hin as [Hin|Hin]; [|eapply IH; eassumption].
    inversion Hin. subst name. split; [|exact Hrun].
    simpl in E. rewrite Hdot, Hbr in E. simpl in E.
    destruct (take_run s). inversion E. discriminate.
Qed.

(** X10: a property token of [parseKey] is never empty and holds neither a dot
    nor an opening bracket. *)
Theorem parseKey_property_tokens (key name : string) :
  In (TProp name) (parseKey key) ->
  name <> EmptyString /\ no_separator name = true.
Proof. apply parse_from_props. Qed.

Lemma parseKey_property_tokens_witness :
  In (TProp "b]c") (parseKey "..a[1].b]c[") /\
  "b]c" <> EmptyString /\ no_separator "b]c" = true.
Proof.
  assert (H : In (TProp "b]c") (parseKey "..a[1].b]c["))
    by (right; right; left; reflexivity).
  split; [exact H|].
  exact (parseKey_property_tokens "..a[1].b]c[" "b]c" H).
Defined.

(** *** The paths of the merge report, parsed *)

Lemma separator_not_digit (c : ascii) :
  (is_dot c || is_lbracket c)%bool = true -> is_digit c = false.
Proof.
  unfold is_dot, is_lbracket, is_digit. intros H.
  apply orb_prop in H. destruct H as [H|H]; apply Nat.eqb_eq in H;
    rewrite H; reflexivity.
Qed.

Lemma separator_not_rbracket (c : ascii) :
  (is_dot c || is_lbracket c)%bool = true -> is_rbracket c = false.
Proof.
  unfold is_dot, is_lbracket, is_rbracket. intros H.
  apply orb_prop in H. destruct H as [H|H]; apply Nat.eqb_eq in H;
    rewrite H; reflexivity.
Qed.

Lemma take_run_app (s1 s2 : string) :
  starts_with_separator s2 ->
  take_run (s1 ++ s2) = (fst (take_run s1), (snd (take_run s1) ++ s2)%string).
Proof.
  intros H2. induction s1 as [|c s1 IH]; simpl.
  - destruct s2 as [|c s2]; simpl in *; auto. rewrite H2. reflexivity.
  - destruct (is_dot c || is_lbracket c)%bool; simpl; auto.
    rewrite IH. destruct (take_run s1). reflexivity.
Qed.

Lemma take_digits_app (s1 s2 : string) :
  starts_with_separator s2 ->
  take_digits (s1 ++ s2) =
  (fst (take_digits s1), (snd (take_digits s1) ++ s2)%string).
Proof.
  intros H2. induction s1 as [|c s1 IH]; simpl.
  - destruct s2 as [|c s2]; simpl in *; auto.
    rewrite (separator_not_digit c H2). reflexivity.
  - destruct (is_digit c); simpl; auto.
    rewrite IH. destruct (take_digits s1). reflexivity.
Qed.

Lemma match_index_app (s1 s2 : string) :
  starts_with_separator s2 ->
  match_index (s1 ++ s2) =
  match match_index s1 with
  | Some (n, rest) => Some (n, (rest ++ s2)%string)
  | None => None
  end.
Proof.
  intros H2. unfold match_index. rewrite (take_digits_app s1 s2 H2).
  destruct (take_digits s1) as [ds r]. simpl.
  destruct ds as [|d ds]; [reflexivity|].
  destruct r as [|c r]; simpl.
  - destruct s2 as [|c s2]; [reflexivity|]. simpl in H2.
    rewrite (separator_not_rbracket c H2). reflexivity.
  - destruct (is_rbracket c); [|reflexivity].
    destruct (N_of_digits (String d ds)); reflexivity.
Qed.

(** Tokens do not run over a dot or an opening bracket. *)
Lemma parse_from_app (fuel : nat) :
  forall s1 s2,
    starts_with_separator s2 ->
    String.length (s1 ++ s2) < fuel ->
    parse_from fuel (s1 ++ s2) = parse_from fuel s1 ++ parse_from fuel s2.
Proof.
  induction fuel as [|fuel IH]; intros s1 s2 H2 Hlen; [lia|].
  destruct s1 as [|c s1]; [reflexivity|].
  rewrite length_append in Hlen. simpl in Hlen.
  assert (Hs2 : parse_from (S fuel) s2 = parse_from fuel s2).
  { apply parse_from_enough_fuel; lia. }
  assert (Happ : forall s, String.length s <= String.length s1 ->
            parse_from fuel (s ++ s2) =
            parse_from fuel s ++ parse_from (S fuel) s2).
  { intros s Hs. rewrite Hs2. apply IH; auto. rewrite length_append. lia. }
  change ((String c s1 ++ s2)%string) with (String c (s1 ++ s2)).
  cbn [parse_from].
  destruct (is_dot c) eqn:Hdot; [apply Happ; lia|].
  destruct (is_lbracket c) eqn:Hbr.
  - rewrite (match_index_app s1 s2 H2).
    destruct (match_index s1) as [[n rest]|] eqn:Hm.
    + apply match_index_length in Hm. simpl. f_equal. apply Happ. lia.
    + apply Happ. lia.
  - change (String c (s1 ++ s2)) with ((String c s1 ++ s2)%string).
    rewrite (take_run_app (String c s1) s2 H2).
    pose proof (take_run_length (String c s1)) as Hrun.
    destruct (take_run (String c s1)) as [run rest] eqn:E. simpl.
    simpl in E. rewrite Hdot, Hbr in E. simpl in E.
    pose proof (take_run_length s1) as Hrun1.
    destruct (take_run s1) as [run1 rest1]. inversion E. subst.
    simpl in Hrun1. f_equal. apply Happ. lia.
Qed.

Lemma parseKey_app (s1 s2 : string) :
  starts_with_separator s2 ->
  parseKey (s1 ++ s2) = parseKey s1 ++ parseKey s2.
Proof.
  intros H2. unfold parseKey.
  rewrite (parse_from_app _ s1 s2 H2) by lia.
  rewrite length_append. f_equal; apply parse_from_enough_fuel; lia.
Qed.

Lemma take_run_whole (s : string) :
  no_separator s = true -> take_run s = (s, EmptyString).
Proof.
  induction s as [|c s IH]; simpl; auto. intros H.
  apply andb_prop in H. destruct H as [Hc Hs].
  apply negb_true_iff in Hc. rewrite Hc, (IH Hs). reflexivity.
Qed.

Lemma parseKey_name (k : string) :
  k <> EmptyString -> no_separator k = true -> parseKey k = [TProp k].
Proof.
  intros Hne Hk. destruct k as [|c k]; [congruence|].
  unfold parseKey. cbn [parse_from String.length].
  pose proof Hk as Hk'. simpl in Hk'. apply andb_prop in Hk'.
  destruct Hk' as [Hc _]. apply negb_true_iff in Hc.
  apply orb_false_iff in Hc. destruct Hc as [-> ->].
  rewrite (take_run_whole _ Hk). destruct (String.length k); reflexivity.
Qed.

(** X11: the path that [reorderLike] reports for a key parses into the tokens
    of the path of the parent followed by the key as a property token,
    whenever the key is not empty and has no dot and no opening bracket. *)
Theorem parseKey_key_path (keyPath k : string) :
  k <> EmptyString -> no_separator k = true ->
  parseKey (SyncStructure.key_path keyPath k) = parseKey keyPath ++ [TProp k].
Proof.
  intros Hne Hk. unfold SyncStructure.key_path.
  destruct keyPath as [|c kp]; [apply parseKey_name; assumption|].
  rewrite parseKey_app by reflexivity. f_equal.
  transitivity (parse_from (S (String.length k)) k);
    [reflexivity | apply parseKey_name; assumption].
Qed.

Lemma parseKey_key_path_witness :
  "farewell" <> EmptyString /\ no_separator "farewell" = true /\
  parseKey (SyncStructure.key_path "a[0].b" "farewell") =
  parseKey "a[0].b" ++ [TProp "farewell"].
Proof.
  assert (Hne : "farewell" <> EmptyString) by discriminate.
  split; [exact Hne | split; [reflexivity |]].
  exact (parseKey_key_path "a[0].b" "farewell" Hne eq_refl).
Defined.

Lemma string_of_uint_digits (d : Decimal.uint) :
  all_digits (NilEmpty.string_of_uint d) = true.
Proof. induction d; simpl; auto. Qed.

Lemma string_of_N_spec (n : N) :
  string_of_N n <> EmptyString /\ all_digits (string_of_N n) = true /\
  N_of_digits (string_of_N n) = Some n.
Proof.
  unfold string_of_N, N_of_digits.
  assert (Hnil : N.to_uint n <> Decimal.Nil).
  { intros H. pose proof (DecimalN.Unsigned.of_to n) as Hn.
    rewrite H in Hn. simpl in Hn. subst n. discriminate. }
  assert (Heq : NilZero.string_of_uint (N.to_uint n) =
                NilEmpty.string_of_uint (N.to_uint n)).
  { destruct (N.to_uint n); try reflexivity. congruence. }
  rewrite Heq. split; [|split].
  - destruct (N.to_uint n); simpl; congruence.
  - apply string_of_uint_digits.
  - rewrite NilEmpty.usu, DecimalN.Unsigned.of_to. reflexivity.
Qed.

Lemma take_digits_closed (ds : string) :
  all_digits ds = true ->
  take_digits (ds ++ "]") = (ds, "]").
Proof.
  induction ds as [|c ds IH]; simpl; [reflexivity|]. intros H.
  apply andb_prop in H. destruct H as [-> H]. rewrite (IH H). reflexivity.
Qed.

(** X12: the path that [reorderLike] reports for an element parses into the
    tokens of the path of the array followed by the index. *)
Theorem parseKey_index_path (keyPath : string) (i : nat) :
  parseKey (SyncStructure.index_path keyPath i) =
  parseKey keyPath ++ [TIndex (N.of_nat i)].
Proof.
  unfold SyncStructure.index_path, string_of_nat.
  destruct (string_of_N_spec (N.of_nat i)) as (Hne & Hd & Hn).
  set (ds := string_of_N (N.of_nat i)) in *.
  rewrite parseKey_app by reflexivity. f_equal.
  unfold parseKey. change (("[" ++ ds ++ "]")%string) with
    (String "[" (ds ++ "]")).
  cbn [parse_from String.length]. change (is_dot "[") with false.
  change (is_lbracket "[") with true. cbv iota.
  unfold match_index. rewrite (take_digits_closed ds Hd).
  destruct ds as [|c ds']; [congruence|].
  change (is_rbracket "]") with true. cbv iota. rewrite Hn.
  destruct (String.length (String c ds' ++ "]")); reflexivity.
Qed.

(** *** What [setDeep] leaves behind *)

Lemma store_primitive (c : value) (k : string) (x : value) :
  isContainer c = false -> store c k x = c.
Proof. destruct c; simpl; auto; discriminate. Qed.

Lemma get_prop_fresh (t : token) (k : string) :
  get_prop (fresh_for t) k = VUndef.
Proof.
  unfold fresh_for. destruct (is_number t); simpl; auto.
  destruct (array_index k) as [i|]; auto. destruct (N.to_nat i); reflexivity.
Qed.

Lemma isContainer_fresh_for (t : token) : isContainer (fresh_for t) = true.
Proof. unfold fresh_for. destruct (is_number t); reflexivity. Qed.

(** A step either goes through a child that is there and changes nothing,
    or puts a fresh container in its place. *)
Lemma enter_cases (cur : value) (t next : token) (cur1 child : value) :
  isContainer cur = true ->
  enter cur t next = Ok (cur1, child) ->
  (cur1 = cur /\ child = get_prop cur (prop_key t) /\ nullish child = false)
  \/ (cur1 = store cur (prop_key t) (fresh_for next) /\
      child = fresh_for next).
Proof.
  intros Hc. destruct t as [s|n]; simpl.
  - rewrite ensureContainer_container by assumption. cbv zeta.
    unfold fresh_for.
    destruct (nullish (get_prop cur s)) eqn:Hn.
    + intros H. inversion H. auto.
    + destruct (is_number next), (isArray (get_prop cur s));
        intros H; inversion H; subst; auto.
  - destruct (isArray cur); [|discriminate].
    destruct (nullish (get_prop cur (string_of_N n))) eqn:Hn;
      intros H; inversion H; subst.
    + right. split; auto. apply get_store_same. exact Hc.
    + auto.
Qed.

Lemma enter_fresh (t next : token) :
  enter (fresh_for t) t next =
  Ok (store (fresh_for t) (prop_key t) (fresh_for next), fresh_for next).
Proof.
  destruct t as [s|n].
  - simpl enter. rewrite ensureContainer_container by reflexivity.
    cbv zeta. rewrite get_prop_fresh. reflexivity.
  - pose proof (get_prop_fresh (TIndex n) (string_of_N n)) as Hg.
    change (fresh_for (TIndex n)) with (VArr [] []) in *.
    unfold enter. cbn [isArray prop_key]. rewrite Hg. cbn [nullish].
    rewrite get_store_same by reflexivity. reflexivity.
Qed.

Lemma setDeep_from_fresh (rest : list token) (v : value) :
  forall t, snd (setDeep_from (fresh_for t) (t :: rest) v) = None.
Proof.
  induction rest as [|next rest IH]; intros t.
  - simpl. rewrite set_prop_container by apply isContainer_fresh_for.
    reflexivity.
  - rewrite setDeep_from_cons, enter_fresh.
    specialize (IH next).
    destruct (setDeep_from (fresh_for next) (next :: rest) v) as [c e].
    exact IH.
Qed.

Lemma setDeep_from_failure (tokens : list token) (v : value) :
  forall cur e,
    snd (setDeep_from cur tokens v) = Some e ->
    fst (setDeep_from cur tokens v) = cur.
Proof.
  induction tokens as [|t rest IH]; intros cur e H; [reflexivity|].
  destruct rest as [|next rest].
  - simpl in *. destruct (set_prop cur (prop_key t) v); [discriminate|].
    reflexivity.
  - rewrite setDeep_from_cons in *.
    destruct (enter cur t next) as [[cur1 child]|e'] eqn:He; [|reflexivity].
    specialize (IH child).
    destruct (setDeep_from child (next :: rest) v) as [child' e1] eqn:Hd.
    cbn [fst snd] in H, IH |- *. subst e1.
    specialize (IH e eq_refl). subst child'.
    destruct (isContainer cur) eqn:Hc.
    + destruct (enter_cases _ _ _ _ _ Hc He) as [(-> & -> & Hn)|[_ ->]].
      * apply store_present; auto. apply not_nullish_defined. exact Hn.
      * pose proof (setDeep_from_fresh rest v next) as Hf.
        rewrite Hd in Hf. discriminate.
    + pose proof (enter_primitive cur t next Hc) as Hp. rewrite He in Hp.
      destruct Hp as [-> _]. apply store_primitive. exact Hc.
Qed.

(** X13: a call of [setDeep] whose walk meets no inherited member and that
    throws has assigned nothing: the tree is as it was before the call. *)
Theorem setDeep_failure_keeps_tree (obj : value) (key : string) (v : value)
  (e : error) :
  plain_walk obj key = true ->
  snd (setDeep obj key v) = Some e -> fst (setDeep obj key v) = obj.
Proof. intros _. apply setDeep_from_failure. Qed.

Lemma setDeep_failure_keeps_tree_witness :
  let obj := VObj [("a", VArr [VStr "x"] []); ("b", VNull)] in
  plain_walk obj "a[0][1].c" = true /\
  snd (setDeep obj "a[0][1].c" (VStr "v")) = Some ExpectedArray /\
  fst (setDeep obj "a[0][1].c" (VStr "v")) = obj.
Proof.
  intros obj. split; [reflexivity | split; [reflexivity|]].
  exact (setDeep_failure_keeps_tree obj "a[0][1].c" (VStr "v")
           ExpectedArray eq_refl eq_refl).
Defined.

(** X14: on the empty container of the kind that the first token asks for, the
    empty object for a property and the empty array for an index, [setDeep]
    does not throw when its walk meets no inherited member. *)
Theorem setDeep_on_fresh_succeeds (key : string) (v : value) (t : token)
  (rest : list token) :
  parseKey key = t :: rest ->
  plain_walk (fresh_for t) key = true ->
  snd (setDeep (fresh_for t) key v) = None.
Proof. unfold setDeep. intros -> _. apply setDeep_from_fresh. Qed.

Lemma setDeep_on_fresh_succeeds_witness :
  parseKey "a[2][0].b" = [TProp "a"; TIndex 2; TIndex 0; TProp "b"] /\
  plain_walk (fresh_for (TProp "a")) "a[2][0].b" = true /\
  snd (setDeep (fresh_for (TProp "a")) "a[2][0].b" (VStr "v")) = None.
Proof.
  split; [reflexivity | split; [reflexivity|]].
  exact (setDeep_on_fresh_succeeds "a[2][0].b" (VStr "v") (TProp "a")
           [TIndex 2; TIndex 0; TProp "b"] eq_refl eq_refl).
Defined.

Lemma setDeep_from_reads_back (tokens : list token) (v : value) :
  forall cur,
    tokens <> [] ->
    snd (setDeep_from cur tokens v) = None ->
    get_path (fst (setDeep_from cur tokens v)) tokens = v.
Proof.
  induction tokens as [|t rest IH]; intros cur Hne H; [congruence|].
  destruct rest as [|next rest].
  - simpl in *. destruct (set_prop cur (prop_key t) v) as [c|] eqn:Hs;
      [|discriminate].
    apply set_prop_ok in Hs. destruct Hs as [Hc ->]. simpl.
    apply get_store_same. exact Hc.
  - rewrite setDeep_from_cons in *.
    destruct (enter cur t next) as [[cur1 child]|e'] eqn:He;
      [|discriminate].
    specialize (IH child).
    destruct (setDeep_from child (next :: rest) v) as [child' e1] eqn:Hd.
    simpl in H. subst e1. simpl fst in *.
    change (get_path (store cur1 (prop_key t) child') (t :: next :: rest))
      with (get_path (get_prop (store cur1 (prop_key t) child') (prop_key t))
              (next :: rest)).
    assert (Hc1 : isContainer cur1 = true).
    { destruct (isContainer cur) eqn:Hc.
      - destruct (enter_kind _ _ _ _ _ He) as [Ha Ho].
        unfold isContainer in *. rewrite Ha, Ho. exact Hc.
      - exfalso. pose proof (enter_primitive cur t next Hc) as Hp.
        rewrite He in Hp. destruct Hp as [_ Hchild].
        pose proof (setDeep_from_primitive (next :: rest) v child Hchild)
          as Hf.
        rewrite Hd in Hf. apply Hf; [discriminate | reflexivity]. }
    rewrite get_store_same by exact Hc1.
    apply IH; [discriminate | reflexivity].
Qed.

(** X15: after a call of [setDeep] that returns and whose walk meets no
    inherited member, the value is what the walk along the tokens of the
    key reads from the tree. *)
Theorem setDeep_reads_back (obj : value) (key : string) (v : value) :
  parseKey key <> [] ->
  plain_walk obj key = true ->
  snd (setDeep obj key v) = None ->
  get_path (fst (setDeep obj key v)) (parseKey key) = v.
Proof. intros Hne _. apply setDeep_from_reads_back. exact Hne. Qed.

Lemma setDeep_reads_back_witness :
  let obj := VObj [("a", VObj [("k", VStr "x")])] in
  parseKey "a[1].b" <> [] /\
  plain_walk obj "a[1].b" = true /\
  snd (setDeep obj "a[1].b" (VStr "v")) = None /\
  get_path (fst (setDeep obj "a[1].b" (VStr "v"))) (parseKey "a[1].b") =
  VStr "v".
Proof.
  intros obj.
  assert (Hne : parseKey "a[1].b" <> []) by discriminate.
  split; [exact Hne | split; [reflexivity | split; [reflexivity |]]].
  exact (setDeep_reads_back obj "a[1].b" (VStr "v") Hne eq_refl eq_refl).
Defined.

Lemma get_store_other_obj (o : obj value) (k k' : string) (x : value) :
  k' <> k -> get_prop (store (VObj o) k x) k' = get_prop (VObj o) k'.
Proof. intros Hne. simpl. rewrite obj_get_set_other; auto. Qed.

Lemma enter_other (cur : value) (t next : token) (cur1 child : value)
  (k' : string) :
  isObject cur = true -> k' <> prop_key t ->
  enter cur t next = Ok (cur1, child) ->
  get_prop cur1 k' = get_prop cur k'.
Proof.
  intros Ho Hne He.
  assert (Hc : isContainer cur = true).
  { unfold isContainer. rewrite Ho. reflexivity. }
  destruct (enter_cases _ _ _ _ _ Hc He) as [(-> & _)|[-> _]]; auto.
  destruct cur; try discriminate. apply get_store_other_obj. exact Hne.
Qed.

(** X16: [setDeep] on an object touches no property of it but the one that the
    first token names. *)
Theorem setDeep_keeps_other_properties (o : obj value) (key : string)
  (v : value) (t : token) (rest : list token) (k' : string) :
  parseKey key = t :: rest -> k' <> prop_key t ->
  get_prop (fst (setDeep (VObj o) key v)) k' = get_prop (VObj o) k'.
Proof.
  unfold setDeep. intros -> Hne. destruct rest as [|next rest].
  - simpl setDeep_from. simpl fst. apply get_store_other_obj. exact Hne.
  - rewrite setDeep_from_cons.
    destruct (enter (VObj o) t next) as [[cur1 child]|e] eqn:He;
      [|reflexivity].
    destruct (setDeep_from child (next :: rest) v) as [child' e].
    simpl fst.
    pose proof (enter_other (VObj o) t next cur1 child k' eq_refl Hne He)
      as Hother.
    destruct (enter_kind _ _ _ _ _ He) as [_ Ho]. simpl in Ho.
    destruct cur1; try discriminate.
    rewrite get_store_other_obj by exact Hne. exact Hother.
Qed.

Lemma setDeep_keeps_other_properties_witness :
  let o := [("a", VStr "x"); ("b", VArr [VNull] [])] in
  parseKey "a.c[1]" = [TProp "a"; TProp "c"; TIndex 1] /\
  "b" <> prop_key (TProp "a") /\
  get_prop (fst (setDeep (VObj o) "a.c[1]" (VStr "v"))) "b" =
  get_prop (VObj o) "b".
Proof.
  intros o.
  assert (Hne : "b" <> prop_key (TProp "a")) by discriminate.
  split; [reflexivity | split; [exact Hne |]].
  exact (setDeep_keeps_other_properties o "a.c[1]" (VStr "v") (TProp "a")
           [TProp "c"; TIndex 1] "b" eq_refl Hne).
Defined.

(** *** The keys of a key cell *)

(** The pieces are made of the characters between the separators. *)
Lemma split_runs_pieces (sep P : ascii -> bool) (s : string) :
  forall piece in_run,
    string_all P piece = true ->
    string_all (fun c => sep c || P c)%bool s = true ->
    Forall (fun p => string_all P p = true) (split_runs sep s piece in_run).
Proof.
  induction s as [|c s IH]; intros piece in_run Hp Hs; simpl.
  - constructor; auto.
  - simpl in Hs. apply andb_prop in Hs. destruct Hs as [Hc Hs].
    destruct (sep c) eqn:E.
    + destruct in_run; [|constructor; auto]; apply IH; auto.
    + apply IH; auto. rewrite string_all_app, Hp. simpl in *.
      rewrite Hc. reflexivity.
Qed.

(** X17: every key that [splitMultiKey] returns is not empty, has no white
    space around it and holds no line feed, bar or comma. *)
Theorem splitMultiKey_keys (c : cell) (k : string) :
  In k (splitMultiKey c) ->
  k <> EmptyString /\ trim k = k /\
  string_all (fun ch => negb (is_key_separator ch)) k = true.
Proof.
  unfold splitMultiKey. cbv zeta. intros H.
  apply filter_In in H. destruct H as [Hin Hne].
  apply in_map_iff in Hin. destruct Hin as (p & <- & Hp).
  split; [|split].
  - intros E. rewrite E in Hne. discriminate.
  - apply trim_idempotent.
  - apply string_all_trim. clear Hne. revert p Hp. apply Forall_forall.
    apply split_runs_pieces; [reflexivity|].
    clear. generalize (String_ (if cell_truthy c then c else CStr "")).
    intros s. induction s as [|ch s IH]; simpl; auto.
    rewrite IH, andb_true_r. destruct (is_key_separator ch); reflexivity.
Qed.

Lemma splitMultiKey_keys_witness :
  let c := CStr (String "010" " a.b ,| c d, ") in
  splitMultiKey c = ["a.b"; "c d"] /\
  "c d" <> EmptyString /\ trim "c d" = "c d" /\
  string_all (fun ch => negb (is_key_separator ch)) "c d" = true.
Proof.
  intros c. split; [reflexivity|].
  apply (splitMultiKey_keys c "c d"). right. left. reflexivity.
Defined.

Lemma all_space_one (c1 : ascii) :
  is_space c1 = true -> all_space (String c1 "") = true.
Proof.
  intros H. rewrite (all_space_prefix _ _ (space_prefix_one c1 "" H)).
  reflexivity.
Qed.

Lemma all_space_two (c1 c2 : ascii) :
  is_space c1 = false -> is_space2 c1 c2 = true ->
  all_space (String c1 (String c2 "")) = true.
Proof.
  intros H1 H2.
  rewrite (all_space_prefix _ _ (space_prefix_two c1 c2 "" H1 H2)).
  reflexivity.
Qed.

Lemma all_space_three (c1 c2 c3 : ascii) :
  is_space c1 = false -> is_space2 c1 c2 = false ->
  is_space3 c1 c2 c3 = true ->
  all_space (String c1 (String c2 (String c3 ""))) = true.
Proof.
  intros H1 H2 H3.
  rewrite (all_space_prefix _ _ (space_prefix_three c1 c2 c3 "" H1 H2 H3)).
  reflexivity.
Qed.

(** The separators are ASCII characters, and no byte of a longer character
    is one. *)
Lemma high_byte_no_separator (c : ascii) :
  128 <= nat_of_ascii c -> is_key_separator c = false.
Proof.
  intros H. unfold is_key_separator. cbv zeta.
  destruct (Nat.eqb_spec (nat_of_ascii c) 10); [lia|].
  destruct (Nat.eqb_spec (nat_of_ascii c) 124); [lia|].
  destruct (Nat.eqb_spec (nat_of_ascii c) 44); [lia|]. reflexivity.
Qed.

Lemma is_space2_bytes (c1 c2 : ascii) :
  is_space2 c1 c2 = true ->
  is_key_separator c1 = false /\ is_key_separator c2 = false.
Proof.
  unfold is_space2. intros H. bool_hyps.
  split; apply high_byte_no_separator; lia.
Qed.

Lemma is_space3_bytes (c1 c2 c3 : ascii) :
  is_space3 c1 c2 c3 = true ->
  is_key_separator c1 = false /\ is_key_separator c2 = false /\
  is_key_separator c3 = false.
Proof.
  unfold is_space3. cbv zeta. intros H. bool_hyps;
    repeat split; apply high_byte_no_separator; lia.
Qed.

(** The pieces of a string of white space are strings of white space. *)
Lemma split_runs_spaces (s : string) :
  all_space s = true ->
  forall piece in_run,
    all_space piece = true ->
    Forall (fun p => all_space p = true)
      (split_runs is_key_separator s piece in_run).
Proof.
  revert s.
  apply (all_space_ind
           (fun s => forall piece in_run,
              all_space piece = true ->
              Forall (fun p => all_space p = true)
                (split_runs is_key_separator s piece in_run))).
  - intros piece in_run Hp. simpl. constructor; auto.
  - intros s s' E _ IH piece in_run Hp.
    apply space_prefix_cases in E.
    destruct E as [(c1 & -> & H1)|[(c1 & c2 & -> & H1 & H2)|
                   (c1 & c2 & c3 & -> & H1 & H2 & H3)]].
    + simpl. destruct (is_key_separator c1).
      * destruct in_run; [|constructor; auto]; apply IH; reflexivity.
      * apply IH. apply all_space_app; [exact Hp|].
        apply all_space_one. exact H1.
    + destruct (is_space2_bytes _ _ H2) as [S1 S2].
      simpl. rewrite S1, S2. apply IH. rewrite append_assoc.
      apply all_space_app; [exact Hp|].
      apply (all_space_two c1 c2 H1 H2).
    + destruct (is_space3_bytes _ _ _ H3) as (S1 & S2 & S3).
      simpl. rewrite S1, S2, S3. apply IH. rewrite !append_assoc.
      apply all_space_app; [exact Hp|].
      apply (all_space_three c1 c2 c3 H1 H2 H3).
Qed.

Lemma split_blank (s : string) :
  all_space s = true ->
  filter (fun p => negb (String.eqb p ""))
    (map trim (split_runs is_key_separator s EmptyString false)) = [].
Proof.
  intros Hs.
  pose proof (split_runs_spaces s Hs EmptyString false eq_refl) as Hall.
  induction Hall as [|p l Hp _ IH]; simpl; auto.
  apply trim_empty in Hp. rewrite Hp. simpl. exact IH.
Qed.

Lemma splitMultiKey_blank (c : cell) :
  isBlank c = true -> splitMultiKey c = [].
Proof.
  intros H. apply isBlank_spec in H. unfold splitMultiKey. cbv zeta.
  apply split_blank. destruct H as [->|[->|H]]; try reflexivity.
  destruct (cell_truthy c); auto.
Qed.

(** X18: a row whose key cell is blank, that is [undefined], [null] or a
    string of white space and line terminators, leaves the state as it is,
    whatever its locale cells hold. *)
Theorem blank_key_row_is_skipped (keyColName : string)
  (localeCols : list string) (i : nat) (r : row) (st : state) :
  isBlank (row_get r keyColName) = true ->
  project_row keyColName localeCols i r st = st.
Proof.
  intros H. unfold project_row. rewrite (splitMultiKey_blank _ H).
  reflexivity.
Qed.

Lemma blank_key_row_is_skipped_witness :
  let nbsp := String (ascii_of_nat 194) (String (ascii_of_nat 160) "") in
  let line_separator :=
    String (ascii_of_nat 226)
      (String (ascii_of_nat 128) (String (ascii_of_nat 168) "")) in
  let r : row :=
    [("Key", CStr (String "010" (nbsp ++ line_separator ++ " ")));
     ("loc:EN", CStr "Hello")] in
  let st := initial_state ["loc:EN"] in
  isBlank (row_get r "Key") = true /\
  project_row "Key" ["loc:EN"] 0 r st = st.
Proof.
  intros nbsp line_separator r st. split; [reflexivity|].
  exact (blank_key_row_is_skipped "Key" ["loc:EN"] 0 r st eq_refl).
Defined.

(** *** The projection as a whole *)

Lemma obj_update_absent (o : obj value) (k : string) (x : value) :
  obj_get o k = None -> obj_update o k x = o.
Proof.
  induction o as [|[k' v'] o IH]; simpl; auto.
  destruct (String.eqb k' k); [discriminate|].
  intros H. rewrite IH; auto.
Qed.

Lemma obj_update_read (o : obj value) (k : string) :
  obj_update o k (or_undefined (obj_get o k)) = o.
Proof.
  destruct (obj_get o k) as [x|] eqn:E; simpl.
  - apply obj_update_same_value. exact E.
  - apply obj_update_absent. exact E.
Qed.

(** X19: a triple of row, key and column for which [setDeep] throws, on a
    walk that meets no inherited member, changes no tree: the outputs are
    as before, and the warnings have one more entry. *)
Theorem failed_cell_keeps_outputs (i : nat) (r : row) (key : string)
  (st : state) (col : string) (e : error) :
  isBlank (row_get r col) = false ->
  plain_walk (or_undefined (obj_get (outputs st) col)) key = true ->
  snd (setDeep (or_undefined (obj_get (outputs st) col)) key
         (VStr (String_ (row_get r col)))) = Some e ->
  project_cell i r key st col =
  State (outputs st) (warnings st ++ [Warning (i + 2) col key e]).
Proof.
  intros Hb _ He. unfold project_cell. rewrite Hb.
  pose proof (setDeep_from_failure (parseKey key)
                (VStr (String_ (row_get r col)))
                (or_undefined (obj_get (outputs st) col)) e He) as Hf.
  unfold setDeep in *.
  destruct (setDeep_from _ (parseKey key) _) as [tree e'].
  simpl in He, Hf. subst. rewrite obj_update_read. reflexivity.
Qed.

Lemma failed_cell_keeps_outputs_witness :
  let r : row := [("Key", CStr "a.b"); ("loc:EN", CStr "E")] in
  let st := State [("loc:EN", VObj [("a", VStr "x")])] [] in
  isBlank (row_get r "loc:EN") = false /\
  plain_walk (or_undefined (obj_get (outputs st) "loc:EN")) "a.b" = true /\
  project_cell 3 r "a.b" st "loc:EN" =
  State (outputs st) [Warning 5 "loc:EN" "a.b" JsTypeError].
Proof.
  intros r st. split; [reflexivity | split; [reflexivity|]].
  exact (failed_cell_keeps_outputs 3 r "a.b" st "loc:EN" JsTypeError
           eq_refl eq_refl eq_refl).
Defined.

Lemma fold_left_invariant (A B : Type) (P : A -> Prop) (f : A -> B -> A)
  (l : list B) :
  (forall a b, P a -> P (f a b)) -> forall a, P a -> P (fold_left f l a).
Proof.
  intros Hf. induction l as [|b l IH]; intros a Ha; simpl; auto.
Qed.

Lemma project_cell_keys (i : nat) (r : row) (key : string) (st : state)
  (col : string) :
  obj_keys (outputs (project_cell i r key st col)) = obj_keys (outputs st).
Proof.
  unfold project_cell. destruct (isBlank (row_get r col)); auto.
  destruct (setDeep _ key _) as [tree e]. simpl. apply obj_keys_update.
Qed.

Lemma obj_update_in_present (o : obj value) (k : string) (x : value)
  (kv : string * value) :
  In kv (obj_update o k x) ->
  (kv = (k, x) /\ obj_get o k <> None) \/ In kv o.
Proof.
  induction o as [|[k' v'] o IH]; simpl; [tauto|].
  destruct (String.eqb_spec k' k) as [->|Hne]; simpl.
  - intros [<-|H]; [left; split; [reflexivity | discriminate] | tauto].
  - intros [<-|H]; [tauto|]. destruct (IH H); tauto.
Qed.

Lemma project_cell_objects (i : nat) (r : row) (key : string) (st : state)
  (col : string) :
  Forall (fun kv => isObject (snd kv) = true) (outputs st) ->
  Forall (fun kv => isObject (snd kv) = true)
    (outputs (project_cell i r key st col)).
Proof.
  intros H. unfold project_cell. destruct (isBlank (row_get r col)); auto.
  pose proof (setDeep_from_kind (parseKey key)
                (VStr (String_ (row_get r col)))
                (or_undefined (obj_get (outputs st) col))) as [_ Hk].
  unfold setDeep.
  destruct (setDeep_from _ (parseKey key) _) as [tree e]. simpl in *.
  apply Forall_forall. intros kv Hin.
  apply obj_update_in_present in Hin. destruct Hin as [[-> Hsome]|Hin].
  - simpl. rewrite Hk.
    destruct (obj_get (outputs st) col) as [t|] eqn:E; [|congruence].
    apply obj_get_some_in in E.
    exact (proj1 (Forall_forall _ _) H _ E).
  - exact (proj1 (Forall_forall _ _) H _ Hin).
Qed.

(** X20: after the projection the outputs hold the locale columns and
    nothing else, and the tree of every column is an object, whatever the
    rows were. *)
Theorem project_outputs_are_objects (keyColName : string)
  (localeCols : list string) (rows : list row) :
  (forall col,
     In col (obj_keys (outputs (project keyColName localeCols rows))) <->
     In col localeCols) /\
  Forall (fun kv => isObject (snd kv) = true)
    (outputs (project keyColName localeCols rows)).
Proof.
  set (P := fun st : state =>
    obj_keys (outputs st) = obj_keys (outputs (initial_state localeCols)) /\
    Forall (fun kv => isObject (snd kv) = true) (outputs st)).
  assert (Hcell : forall i r key st col,
            P st -> P (project_cell i r key st col)).
  { intros i r key st col [Hk Ho]. split.
    - rewrite project_cell_keys. exact Hk.
    - apply project_cell_objects. exact Ho. }
  assert (Hkey : forall i r st key,
            P st -> P (project_key localeCols i r st key)).
  { intros i r st key. unfold project_key.
    apply fold_left_invariant. intros a b. apply Hcell. }
  assert (Hrow : forall i r st,
            P st -> P (project_row keyColName localeCols i r st)).
  { intros i r st Hst. unfold project_row.
    destruct (splitMultiKey (row_get r keyColName)) as [|k keys]; auto.
    apply fold_left_invariant; auto. }
  assert (Hrows : forall rs i st, P st ->
            P (project_rows keyColName localeCols i rs st)).
  { induction rs as [|r rs IH]; intros i st Hst; simpl; auto. }
  assert (Hinit : P (initial_state localeCols)).
  { split; [reflexivity|]. unfold initial_state. simpl.
    apply Forall_forall. intros kv Hin.
    apply obj_assign_in in Hin. destruct Hin as [[]|Hin].
    apply in_map_iff in Hin. destruct Hin as (c & <- & _). reflexivity. }
  destruct (Hrows rows 0 (initial_state localeCols) Hinit) as [Hk Ho].
  split; [|exact Ho].
  intros col. unfold project. rewrite Hk. unfold initial_state. simpl.
  rewrite SyncMore.obj_keys_assign_in. unfold obj_keys at 2.
  rewrite map_map. simpl. rewrite map_id. simpl. tauto.
Qed.

(** X21: a triple for which [setDeep] returns, on a walk that meets no
    inherited member and for a cell that [String] prints in full, leaves
    the value of the cell, as a string, where the walk along the tokens of
    the key reads it in the tree of the column, and adds no warning. *)
Theorem written_cell_reads_back (i : nat) (r : row) (key : string)
  (st : state) (col : string) (root : value) :
  isBlank (row_get r col) = false ->
  printed_in_full (row_get r col) = true ->
  obj_get (outputs st) col = Some root ->
  parseKey key <> [] ->
  plain_walk root key = true ->
  snd (setDeep root key (VStr (String_ (row_get r col)))) = None ->
  exists tree,
    obj_get (outputs (project_cell i r key st col)) col = Some tree /\
    get_path tree (parseKey key) = VStr (String_ (row_get r col)) /\
    warnings (project_cell i r key st col) = warnings st.
Proof.
  intros Hb _ Hroot Hne _ Hs. unfold project_cell. rewrite Hb, Hroot.
  simpl or_undefined.
  pose proof (setDeep_from_reads_back (parseKey key)
                (VStr (String_ (row_get r col))) root Hne Hs) as Hread.
  unfold setDeep in *.
  destruct (setDeep_from root (parseKey key) _) as [tree e].
  simpl in Hs, Hread. subst e. exists tree. simpl.
  split; [|split; auto].
  apply obj_get_update_same. eapply obj_get_in_keys. exact Hroot.
Qed.

Lemma written_cell_reads_back_witness :
  let r : row := [("Key", CStr "a[1]"); ("loc:EN", CNum 42)] in
  let st := State [("loc:EN", VObj [("a", VStr "old")])] [] in
  isBlank (row_get r "loc:EN") = false /\
  printed_in_full (row_get r "loc:EN") = true /\
  plain_walk (VObj [("a", VStr "old")]) "a[1]" = true /\
  exists tree,
    obj_get (outputs (project_cell 0 r "a[1]" st "loc:EN")) "loc:EN" =
    Some tree /\
    get_path tree (parseKey "a[1]") = VStr "42" /\
    warnings (project_cell 0 r "a[1]" st "loc:EN") = warnings st.
Proof.
  intros r st.
  split; [reflexivity | split; [reflexivity | split; [reflexivity|]]].
  assert (Hne : parseKey "a[1]" <> []) by discriminate.
  exact (written_cell_reads_back 0 r "a[1]" st "loc:EN"
           (VObj [("a", VStr "old")]) eq_refl eq_refl eq_refl Hne eq_refl
           eq_refl).
Defined.

(** *** Command-line arguments *)

Lemma index_of_first (x : string) (pre post : list string) :
  ~ In x pre -> index_of x (pre ++ x :: post) = Some (List.length pre).
Proof.
  induction pre as [|a pre IH]; simpl; intros Hnot.
  - rewrite String.eqb_refl. reflexivity.
  - destruct (String.eqb_spec a x) as [->|Hne]; [tauto|].
    rewrite IH by tauto. reflexivity.
Qed.

Lemma index_of_absent (x : string) (args : list string) :
  ~ In x args -> index_of x args = None.
Proof.
  induction args as [|a args IH]; simpl; intros Hnot; auto.
  destruct (String.eqb_spec a x) as [->|Hne]; [tauto|].
  rewrite IH by tauto. reflexivity.
Qed.

(** X22: [getArg] returns the argument that follows the first occurrence of
    the flag, whatever it is, and the fallback when the flag is the last
    argument or is not there. *)
Theorem getArg_first_occurrence (name : string) (fallback : option string) :
  (forall pre a post,
     ~ In ("--" ++ name)%string pre ->
     getArg (pre ++ ("--" ++ name)%string :: a :: post) name fallback =
     Some a) /\
  (forall pre,
     ~ In ("--" ++ name)%string pre ->
     getArg (pre ++ [("--" ++ name)%string]) name fallback = fallback) /\
  (forall args,
     ~ In ("--" ++ name)%string args -> getArg args name fallback = fallback).
Proof.
  unfold getArg. split; [|split].
  - intros pre a post Hnot. rewrite index_of_first by exact Hnot.
    rewrite nth_error_app2 by lia.
    replace (List.length pre + 1 - List.length pre) with 1 by lia.
    reflexivity.
  - intros pre Hnot. rewrite index_of_first by exact Hnot.
    rewrite nth_error_app2 by lia.
    replace (List.length pre + 1 - List.length pre) with 1 by lia.
    reflexivity.
  - intros args Hnot. rewrite index_of_absent by exact Hnot. reflexivity.
Qed.

End GenMore.

(* ================================================================== *)
(** ** The reference merge of generate-locale.mjs *)
(* ================================================================== *)

Module FillFacts.
Import Js GenerateLocale JsFacts GenFacts GenMore.
Unset Implicit Arguments.

(** *** The loops *)

Lemma fill_arr (target : value) (refArr : list Yaml.value) (mode : string) :
  fillMissingFromRef target (Yaml.JArr refArr) mode =
  match target with
  | VArr es ps => VArr (fill_elements mode refArr 0 es) ps
  | _ => VArr (fill_elements mode refArr 0 []) []
  end.
Proof.
  assert (H : forall l i es,
    (fix elements_loop (refArr : list Yaml.value) (i : nat)
       (es : list value) {struct refArr} : list value :=
       match refArr with
       | [] => es
       | refVal :: refArr' =>
           let tgtVal := nth i es VUndef in
           elements_loop refArr' (S i)
             (if is_undefined tgtVal
              then array_store es i (of_yaml (createFromRef refVal mode))
              else if both_objects_or_arrays refVal tgtVal
                   then array_store es i
                          (fillMissingFromRef tgtVal refVal mode)
                   else es)
       end) l i es = fill_elements mode l i es).
  { induction l as [|r l IH]; intros i es; simpl; auto. }
  destruct target; simpl; rewrite H; reflexivity.
Qed.

Lemma fill_obj (target : value) (refObj : obj Yaml.value) (mode : string) :
  fillMissingFromRef target (Yaml.JObj refObj) mode =
  VObj (fill_keys mode refObj
          match target with VObj o => o | _ => [] end).
Proof.
  assert (H : forall l o,
    (fix keys_loop (refObj : obj Yaml.value) (o : obj value)
       {struct refObj} : obj value :=
       match refObj with
       | [] => o
       | (k, refVal) :: refObj' =>
           let tgtVal := or_undefined (obj_get o k) in
           keys_loop refObj'
             (if is_undefined tgtVal
              then obj_set o k (of_yaml (createFromRef refVal mode))
              else if both_objects_or_arrays refVal tgtVal
                   then obj_set o k (fillMissingFromRef tgtVal refVal mode)
                   else o)
       end) l o = fill_keys mode l o).
  { induction l as [|[k r] l IH]; intros o; simpl; auto. }
  simpl. rewrite H. reflexivity.
Qed.

Lemma is_undefined_false (x : value) : is_undefined x = false <-> x <> VUndef.
Proof. destruct x; simpl; split; congruence. Qed.

(** Every pass of a loop assigns what [filled] gives. *)
Lemma fill_elements_cons (mode : string) (refVal : Yaml.value)
  (refArr : list Yaml.value) (i : nat) (es : list value) :
  fill_elements mode (refVal :: refArr) i es =
  fill_elements mode refArr (S i)
    (array_store es i (filled (nth i es VUndef) refVal mode)).
Proof.
  simpl. unfold filled.
  destruct (is_undefined (nth i es VUndef)) eqn:Hu; auto.
  destruct (both_objects_or_arrays refVal (nth i es VUndef)); auto.
  rewrite array_store_present; auto. apply is_undefined_false. exact Hu.
Qed.

Lemma fill_keys_cons (mode : string) (k : string) (refVal : Yaml.value)
  (refObj : obj Yaml.value) (o : obj value) :
  fill_keys mode ((k, refVal) :: refObj) o =
  fill_keys mode refObj
    (obj_set o k (filled (or_undefined (obj_get o k)) refVal mode)).
Proof.
  simpl. unfold filled.
  destruct (is_undefined (or_undefined (obj_get o k))) eqn:Hu; auto.
  destruct (both_objects_or_arrays refVal (or_undefined (obj_get o k)));
    auto.
  rewrite obj_set_same_value; auto. apply or_undefined_some; auto.
  apply is_undefined_false. exact Hu.
Qed.

Lemma nth_array_store_other (es : list value) (i j : nat) (x : value) :
  i <> j -> nth j (array_store es i x) VUndef = nth j es VUndef.
Proof.
  revert es j. induction i as [|i IH]; intros [|e es] [|j] Hne; simpl;
    try congruence; auto.
  - destruct j; reflexivity.
  - rewrite IH by congruence. destruct j; reflexivity.
Qed.

(** What holds of the value under a key before the loop and is kept by
    [filled] holds of it after the loop. *)
Lemma fill_keys_invariant (mode : string) (P : value -> Prop) (k : string)
  (refObj : obj Yaml.value) :
  Forall (fun kv => forall c, P c -> P (filled c (snd kv) mode)) refObj ->
  forall o,
    P (or_undefined (obj_get o k)) ->
    P (or_undefined (obj_get (fill_keys mode refObj o) k)).
Proof.
  induction 1 as [|[k' r] l Hr _ IH]; intros o Ho; [exact Ho|].
  rewrite fill_keys_cons. apply IH.
  destruct (String.eqb_spec k k') as [->|Hne].
  - rewrite obj_get_set_same. simpl. apply Hr. exact Ho.
  - rewrite obj_get_set_other by exact Hne. exact Ho.
Qed.

Lemma fill_elements_invariant (mode : string) (P : value -> Prop) (j : nat)
  (refArr : list Yaml.value) :
  Forall (fun r => forall c, P c -> P (filled c r mode)) refArr ->
  forall i es,
    P (nth j es VUndef) ->
    P (nth j (fill_elements mode refArr i es) VUndef).
Proof.
  induction 1 as [|r l Hr _ IH]; intros i es Hes; [exact Hes|].
  rewrite fill_elements_cons. apply IH.
  destruct (Nat.eq_dec i j) as [->|Hne].
  - rewrite nth_array_store. apply Hr. exact Hes.
  - rewrite nth_array_store_other by exact Hne. exact Hes.
Qed.

(** *** What is there stays *)

Lemma get_path_undefined (tokens : list token) :
  get_path VUndef tokens = VUndef.
Proof. induction tokens as [|t rest IH]; simpl; auto. Qed.

Lemma both_kinds (refVal : Yaml.value) (c : value) :
  both_objects_or_arrays refVal c = true ->
  (Yaml.isObject refVal = true -> isObject c = true) /\
  (Yaml.isArray refVal = true -> isArray c = true).
Proof.
  unfold both_objects_or_arrays.
  destruct refVal, c; simpl; intros H; split; intros H'; congruence.
Qed.

Lemma fillMissingFromRef_keeps (mode : string) (x : value) :
  x <> VUndef -> isContainer x = false ->
  forall ref target tokens,
    (Yaml.isObject ref = true -> isObject target = true) ->
    (Yaml.isArray ref = true -> isArray target = true) ->
    get_path target tokens = x ->
    get_path (fillMissingFromRef target ref mode) tokens = x.
Proof.
  intros Hx Hleaf.
  assert (Hfilled : forall r rest,
    (forall target tokens,
       (Yaml.isObject r = true -> isObject target = true) ->
       (Yaml.isArray r = true -> isArray target = true) ->
       get_path target tokens = x ->
       get_path (fillMissingFromRef target r mode) tokens = x) ->
    forall c, get_path c rest = x -> get_path (filled c r mode) rest = x).
  { intros r rest IH c Hc. unfold filled.
    destruct (is_undefined c) eqn:Hu.
    - destruct c; try discriminate. rewrite get_path_undefined in Hc.
      congruence.
    - destruct (both_objects_or_arrays r c) eqn:Hb; auto.
      apply both_kinds in Hb. destruct Hb. apply IH; auto. }
  induction ref as [| | | | |l IH|o IH] using Yaml.value_tree_ind;
    intros target tokens Hobj Harr Hget; auto.
  - specialize (Harr eq_refl). destruct target as [| | | | | |es ps|];
      try discriminate.
    rewrite fill_arr. destruct tokens as [|t rest].
    + simpl in Hget. subst x. discriminate.
    + simpl in *. destruct (array_index (prop_key t)) as [j|]; auto.
      apply (fill_elements_invariant mode
               (fun c => get_path c rest = x)); auto.
      eapply Forall_impl; [|exact IH]. intros r Hr. apply Hfilled. exact Hr.
  - specialize (Hobj eq_refl). destruct target as [| | | | | | |to];
      try discriminate.
    rewrite fill_obj. destruct tokens as [|t rest].
    + simpl in Hget. subst x. discriminate.
    + simpl in *.
      apply (fill_keys_invariant mode (fun c => get_path c rest = x)); auto.
      eapply Forall_impl; [|exact IH]. intros [k r] Hr. apply Hfilled.
      exact Hr.
Qed.

(** X23: whatever the merge reaches below a target of the kind of the
    reference, a leaf of the target stays where it was. *)
Theorem fillMissingFromRef_keeps_target_leaves (target : value)
  (ref : Yaml.value) (mode : string) (tokens : list token) (x : value) :
  x <> VUndef -> isContainer x = false ->
  (Yaml.isObject ref = true -> isObject target = true) ->
  (Yaml.isArray ref = true -> isArray target = true) ->
  get_path target tokens = x ->
  get_path (fillMissingFromRef target ref mode) tokens = x.
Proof. intros Hx Hl. apply fillMissingFromRef_keeps; assumption. Qed.

Lemma fillMissingFromRef_keeps_target_leaves_witness :
  let target := VObj [("a", VArr [VUndef; VStr "un"] []); ("b", VStr "x")] in
  let ref := Yaml.JObj [("b", Yaml.JObj [("c", Yaml.JNum 1)]);
                        ("a", Yaml.JArr [Yaml.JStr "zero"; Yaml.JStr "one"])] in
  get_path target [TProp "a"; TIndex 1] = VStr "un" /\
  get_path (fillMissingFromRef target ref "ref") [TProp "a"; TIndex 1] =
  VStr "un".
Proof.
  intros target ref.
  assert (Hx : VStr "un" <> VUndef) by discriminate.
  split; [reflexivity|].
  exact (fillMissingFromRef_keeps_target_leaves target ref "ref"
           [TProp "a"; TIndex 1] (VStr "un") Hx eq_refl
           (fun _ => eq_refl) (fun H => H) eq_refl).
Defined.

(** *** What the reference has is there *)

Lemma of_yaml_defined (v : Yaml.value) : of_yaml v <> VUndef.
Proof. destruct v; discriminate. Qed.

Lemma fillMissingFromRef_kind (target : value) (ref : Yaml.value)
  (mode : string) :
  Yaml.isContainer ref = true ->
  isObject (fillMissingFromRef target ref mode) = Yaml.isObject ref /\
  isArray (fillMissingFromRef target ref mode) = Yaml.isArray ref.
Proof.
  destruct ref; try discriminate; intros _.
  - rewrite fill_arr. destruct target; auto.
  - rewrite fill_obj. auto.
Qed.

Lemma both_container (refVal : Yaml.value) (c : value) :
  both_objects_or_arrays refVal c = true -> Yaml.isContainer refVal = true.
Proof.
  unfold both_objects_or_arrays, Yaml.isContainer.
  destruct (Yaml.isObject refVal), (Yaml.isArray refVal); simpl; auto.
Qed.

Lemma filled_defined (c : value) (r : Yaml.value) (mode : string) :
  filled c r mode <> VUndef.
Proof.
  unfold filled. destruct (is_undefined c) eqn:Hu.
  - apply of_yaml_defined.
  - destruct (both_objects_or_arrays r c) eqn:Hb.
    + apply both_container in Hb.
      destruct (fillMissingFromRef_kind c r mode Hb) as [Ho Ha].
      intros E. rewrite E in Ho, Ha. simpl in *.
      unfold Yaml.isContainer in Hb. rewrite <- Ho, <- Ha in Hb.
      discriminate.
    + apply is_undefined_false. exact Hu.
Qed.

Lemma fill_keys_defined (mode : string) (k : string)
  (refObj : obj Yaml.value) :
  In k (obj_keys refObj) ->
  forall o, or_undefined (obj_get (fill_keys mode refObj o) k) <> VUndef.
Proof.
  assert (Hkeep : forall l : obj Yaml.value,
            Forall (fun kv => forall c,
                      c <> VUndef -> filled c (snd kv) mode <> VUndef) l).
  { intros l. apply Forall_forall. intros kv _ c _. apply filled_defined. }
  induction refObj as [|[k' r] l IH]; simpl obj_keys; intros Hin o;
    [destruct Hin|].
  rewrite fill_keys_cons. destruct (String.eqb_spec k' k) as [->|Hne].
  - apply (fill_keys_invariant mode (fun c => c <> VUndef)); auto.
    rewrite obj_get_set_same. apply filled_defined.
  - apply IH. destruct Hin as [H|H]; [contradiction | exact H].
Qed.

Lemma fill_elements_defined (mode : string) (refArr : list Yaml.value) :
  forall i es j,
    i <= j < i + List.length refArr ->
    nth j (fill_elements mode refArr i es) VUndef <> VUndef.
Proof.
  assert (Hkeep : forall l : list Yaml.value,
            Forall (fun r => forall c,
                      c <> VUndef -> filled c r mode <> VUndef) l).
  { intros l. apply Forall_forall. intros r _ c _. apply filled_defined. }
  induction refArr as [|r l IH]; intros i es j Hj; simpl in Hj; [lia|].
  rewrite fill_elements_cons. destruct (Nat.eq_dec i j) as [->|Hne].
  - apply (fill_elements_invariant mode (fun c => c <> VUndef)); auto.
    rewrite nth_array_store. apply filled_defined.
  - apply IH. lia.
Qed.

(** X24: for a reference none of whose keys is the name of a member of
    [Object.prototype], after the merge every key of a reference object is a
    defined property of the result, and every index of a reference array is
    a defined element of it. *)
Theorem fillMissingFromRef_defines_reference_positions (target : value)
  (mode : string) :
  (forall refObj k,
     Yaml.plain_keys (Yaml.JObj refObj) = true ->
     In k (obj_keys refObj) ->
     get_prop (fillMissingFromRef target (Yaml.JObj refObj) mode) k
     <> VUndef) /\
  (forall refArr i,
     Yaml.plain_keys (Yaml.JArr refArr) = true ->
     i < List.length refArr ->
     exists es ps,
       fillMissingFromRef target (Yaml.JArr refArr) mode = VArr es ps /\
       nth i es VUndef <> VUndef).
Proof.
  split.
  - intros refObj k _ Hin. rewrite fill_obj. simpl.
    apply fill_keys_defined. exact Hin.
  - intros refArr i _ Hi. rewrite fill_arr.
    destruct target as [| | | | | |es ps|];
      eexists; eexists; (split; [reflexivity|]);
      apply fill_elements_defined; lia.
Qed.

(** *** An empty target *)

Lemma array_store_end (es : list value) (x : value) :
  array_store es (List.length es) x = es ++ [x].
Proof. induction es as [|e es IH]; simpl; congruence. Qed.

Lemma fill_elements_fresh (mode : string) (refArr : list Yaml.value) :
  forall es,
    fill_elements mode refArr (List.length es) es =
    es ++ map (fun r => of_yaml (createFromRef r mode)) refArr.
Proof.
  induction refArr as [|r l IH]; intros es; simpl.
  - symmetry. apply app_nil_r.
  - rewrite nth_overflow by lia. simpl. rewrite array_store_end.
    replace (S (List.length es)) with
      (List.length (es ++ [of_yaml (createFromRef r mode)]))
      by (rewrite length_app; simpl; lia).
    rewrite IH, <- app_assoc. reflexivity.
Qed.

Lemma fill_keys_fresh (mode : string) (refObj : obj Yaml.value) :
  NoDup (obj_keys refObj) ->
  forall o,
    (forall k, In k (obj_keys refObj) -> obj_get o k = None) ->
    fill_keys mode refObj o =
    obj_assign o
      (map (fun kv => (fst kv, of_yaml (createFromRef (snd kv) mode)))
         refObj).
Proof.
  induction refObj as [|[k r] l IH]; intros Hnd o Ho; [reflexivity|].
  simpl obj_keys in *. inversion Hnd as [|? ? Hnot Hnd']. subst.
  rewrite fill_keys_cons. rewrite (Ho k) by (left; reflexivity).
  simpl or_undefined. unfold filled. simpl is_undefined. cbv iota.
  rewrite IH; auto.
  intros k' Hk'. rewrite obj_get_set_other.
  - apply Ho. right. exact Hk'.
  - intros ->. contradiction.
Qed.

Lemma createFromRef_obj (mode : string) (o : obj Yaml.value) :
  Yaml.wf (Yaml.JObj o) ->
  of_yaml (createFromRef (Yaml.JObj o) mode) =
  VObj (map (fun kv => (fst kv, of_yaml (createFromRef (snd kv) mode))) o).
Proof.
  intros Hwf. rewrite (SyncFacts.createFromRef_clone mode _ Hwf). simpl.
  rewrite map_map. simpl. f_equal. apply map_ext_in. intros [k v] Hin.
  simpl. f_equal. f_equal. symmetry. apply SyncFacts.createFromRef_clone.
  apply SyncFacts.wf_obj in Hwf. destruct Hwf as [_ Hall].
  exact (proj1 (Forall_forall _ _) Hall _ Hin).
Qed.

Lemma createFromRef_arr (mode : string) (l : list Yaml.value) :
  of_yaml (createFromRef (Yaml.JArr l) mode) =
  VArr (map (fun r => of_yaml (createFromRef r mode)) l) [].
Proof. simpl. rewrite map_map. reflexivity. Qed.

Lemma fill_empty_obj (mode : string) (o : obj Yaml.value) :
  Yaml.wf (Yaml.JObj o) ->
  VObj (fill_keys mode o []) = of_yaml (createFromRef (Yaml.JObj o) mode).
Proof.
  intros Hwf. rewrite (createFromRef_obj mode o Hwf). f_equal.
  apply SyncFacts.wf_obj in Hwf. destruct Hwf as [Ho _].
  rewrite fill_keys_fresh; [|exact (proj1 Ho) | reflexivity].
  apply obj_assign_nil_wf.
  eapply SyncFacts.obj_wf_same_keys; [|exact Ho].
  unfold obj_keys. rewrite map_map. reflexivity.
Qed.

Lemma fill_empty_arr (mode : string) (l : list Yaml.value) :
  VArr (fill_elements mode l 0 []) [] =
  of_yaml (createFromRef (Yaml.JArr l) mode).
Proof.
  rewrite createFromRef_arr.
  pose proof (fill_elements_fresh mode l []) as H. simpl in H.
  rewrite H. reflexivity.
Qed.

Lemma fillMissingFromRef_empty (target : value) (ref : Yaml.value)
  (mode : string) :
  Yaml.wf ref -> Yaml.isContainer ref = true ->
  both_objects_or_arrays ref target = false \/
  target = VObj [] \/ target = VArr [] [] ->
  fillMissingFromRef target ref mode = of_yaml (createFromRef ref mode).
Proof.
  intros Hwf Hc H. destruct ref as [| | | | |l|o]; try discriminate.
  - rewrite fill_arr, <- fill_empty_arr.
    destruct H as [H|[->| ->]]; auto.
    destruct target; auto. discriminate.
  - rewrite fill_obj, <- (fill_empty_obj mode o Hwf).
    destruct H as [H|[->| ->]]; auto.
    destruct target; auto. discriminate.
Qed.

(** X25: for a reference none of whose keys is the name of a member of
    [Object.prototype], on a target that is empty, or not of the kind of
    the reference and so replaced by an empty container, the merge gives
    what [createFromRef] gives for the reference. *)
Theorem fillMissingFromRef_on_empty_target (target : value)
  (ref : Yaml.value) (mode : string) :
  Yaml.wf ref -> Yaml.plain_keys ref = true ->
  Yaml.isContainer ref = true ->
  both_objects_or_arrays ref target = false \/
  target = VObj [] \/ target = VArr [] [] ->
  fillMissingFromRef target ref mode = of_yaml (createFromRef ref mode).
Proof. intros Hwf _. apply fillMissingFromRef_empty. exact Hwf. Qed.

Lemma fillMissingFromRef_on_empty_target_witness :
  let ref := Yaml.JArr [Yaml.JObj [("id", Yaml.JNum 7)]; Yaml.JStr "x"] in
  let target := VObj [("title", VStr "Titre")] in
  Yaml.wf ref /\ Yaml.plain_keys ref = true /\
  fillMissingFromRef target ref "blank" =
  VArr [VObj [("id", VStr "")]; VStr ""] [].
Proof.
  intros ref target.
  assert (Hwf : Yaml.wf ref) by (apply SyncFacts.wfb_sound; reflexivity).
  split; [exact Hwf | split; [reflexivity|]].
  exact (fillMissingFromRef_on_empty_target target ref "blank" Hwf eq_refl
           eq_refl (or_introl eq_refl)).
Defined.

(** *** A second merge *)












(** *** The order of the keys *)

Lemma obj_keys_set_present (o : obj value) (k : string) (x : value) :
  In k (obj_keys o) -> obj_keys (obj_set o k x) = obj_keys o.
Proof.
  intros H. unfold obj_set.
  rewrite (proj2 (obj_has_true_iff o k) H). apply obj_keys_update.
Qed.

Lemma fill_keys_order (mode : string) (P : string -> bool)
  (K : list string) (refObj : obj Yaml.value) :
  (forall k, P k = true -> In k K) ->
  forall o,
    obj_wf o -> obj_keys (keep P o) = K ->
    obj_keys (keep P (fill_keys mode refObj o)) = K.
Proof.
  intros HP. induction refObj as [|[k r] l IH]; intros o Hwf HK; [exact HK|].
  rewrite fill_keys_cons. apply IH.
  - apply obj_set_wf. exact Hwf.
  - rewrite keep_set by exact (proj2 Hwf).
    destruct (P k) eqn:Hk; [|exact HK].
    rewrite obj_keys_set_present; [exact HK|].
    rewrite HK. apply HP. exact Hk.
Qed.

(** X27: the merge does not reorder: in the object that it returns, the keys
    that the target had are in the order in which the target had them. *)
Theorem fillMissingFromRef_keeps_key_order (o : obj value)
  (refObj : obj Yaml.value) (mode : string) :
  obj_wf o ->
  exists o',
    fillMissingFromRef (VObj o) (Yaml.JObj refObj) mode = VObj o' /\
    filter (obj_has o) (obj_keys o') = obj_keys o.
Proof.
  intros Hwf. rewrite fill_obj. eexists. split; [reflexivity|].
  rewrite <- obj_keys_keep. apply fill_keys_order; auto.
  - intros k Hk. apply obj_has_true_iff. exact Hk.
  - rewrite JsFacts.keep_all; auto.
    intros k Hk. apply obj_has_true_iff. exact Hk.
Qed.

Lemma fillMissingFromRef_keeps_key_order_witness :
  let o := [("z", VStr "Z"); ("a", VStr "A")] in
  let refObj := [("a", Yaml.JStr "1"); ("m", Yaml.JStr "2");
                 ("z", Yaml.JStr "3")] in
  obj_wf o /\
  fillMissingFromRef (VObj o) (Yaml.JObj refObj) "blank" =
    VObj [("z", VStr "Z"); ("a", VStr "A"); ("m", VStr "")] /\
  exists o',
    fillMissingFromRef (VObj o) (Yaml.JObj refObj) "blank" = VObj o' /\
    filter (obj_has o) (obj_keys o') = obj_keys o.
Proof.
  intros o refObj.
  assert (Hwf : obj_wf o) by (apply obj_wfb_sound; reflexivity).
  split; [exact Hwf | split; [reflexivity |]].
  exact (fillMissingFromRef_keeps_key_order o refObj "blank" Hwf).
Defined.

(** *** The merge of the main program *)




(** *** The two scripts on an empty target *)

Lemma merged_empty_object (mode : string) (ref : Yaml.value) :
  Yaml.isContainer ref = true ->
  SyncStructure.merged mode ref (Some (Yaml.JObj [])) =
  SyncStructure.merged mode ref None.
Proof.
  intros Hc. apply SyncFacts.merged_blank_target; auto.
Qed.

Lemma missingLeaf_not_null (mode : string) (leaf : Yaml.value) :
  mode <> "null" ->
  SyncStructure.missingLeaf mode leaf =
  if String.eqb mode "ref" then leaf else Yaml.JStr "".
Proof.
  intros Hne. unfold SyncStructure.missingLeaf.
  destruct (String.eqb_spec mode "null"); [contradiction|].
  destruct (String.eqb mode "ref"); auto. destruct leaf; reflexivity.
Qed.

(** X29: for a reference none of whose keys is the name of a member of
    [Object.prototype] and a target file that is empty, the tree that
    sync-structure builds is the tree that generate-locale makes of an
    empty object and the same reference, under every mode but [null]. *)
Theorem scripts_agree_on_empty_target (mode : string) (ref : Yaml.value) :
  Yaml.wf ref -> Yaml.plain_keys ref = true ->
  Yaml.isContainer ref = true -> mode <> "null" ->
  of_yaml (fst (SyncStructure.normalized mode ref Yaml.JNull)) =
  fillMissingFromRef (VObj []) ref mode.
Proof.
  intros Hwf Hpl Hc Hmode. unfold SyncStructure.normalized.
  rewrite SyncFacts.fst_reorderLike.
  assert (Href : SyncStructure.readYaml ref = ref)
    by (destruct ref; try discriminate; reflexivity).
  rewrite Href. simpl SyncStructure.readYaml.
  rewrite merged_empty_object by exact Hc.
  rewrite SyncFacts.merged_none by assumption.
  rewrite fillMissingFromRef_empty by (auto; right; left; reflexivity).
  rewrite SyncFacts.createFromRef_clone by exact Hwf.
  f_equal. apply SyncFacts.map_leaves_ext. intros leaf.
  apply missingLeaf_not_null. exact Hmode.
Qed.

Lemma scripts_agree_on_empty_target_witness :
  let ref := Yaml.JObj [("menu", Yaml.JArr [Yaml.JStr "Open"; Yaml.JNum 2]);
                        ("title", Yaml.JStr "Title")] in
  Yaml.wf ref /\ Yaml.plain_keys ref = true /\ "blank" <> "null" /\
  fst (SyncStructure.normalized "blank" ref Yaml.JNull) =
    Yaml.JObj [("menu", Yaml.JArr [Yaml.JStr ""; Yaml.JStr ""]);
               ("title", Yaml.JStr "")] /\
  of_yaml (fst (SyncStructure.normalized "blank" ref Yaml.JNull)) =
  fillMissingFromRef (VObj []) ref "blank".
Proof.
  intros ref.
  assert (Hwf : Yaml.wf ref) by (apply SyncFacts.wfb_sound; reflexivity).
  assert (Hmode : "blank" <> "null") by discriminate.
  split; [exact Hwf|]. split; [reflexivity|].
  split; [exact Hmode | split; [reflexivity |]].
  exact (scripts_agree_on_empty_target "blank" ref Hwf eq_refl eq_refl
           Hmode).
Defined.

End FillFacts.
